(** * The round-based matching engine of the online dating simulator

    A shallow embedding of [agents.py], [compatibility.py], [matchers.py]
    and of three strategies of [strategies.py].

    Conventions of the embedding.
    - Python floats are idealised as real numbers ([R]) and a float
      division by zero raises.  [x ** y] is [Rpower x y], which agrees with
      it for a positive base only: on the base 0 Python gives 0, on a
      negative base a complex number, and [Rpower] gives 1.  The base of the
      happiness formula, [attractiveness * compatibility + 2], is positive
      unless the rewards or the weights of the calculator are negative; the
      base of the discomfort divisor is positive by the test before it.
    - A call that raises is [None]; a call that returns is [Some].
    - Python sets of ids are [gset nat], dictionaries are [gmap] or, where the
      insertion order is iterated, association lists.
    - The strategy of an agent is an object with three methods; it is a type
      class over the strategy's own state.  No strategy of the repository
      writes to the bookkeeping fields of the agent it is given, so a method
      reads the agent and returns the new state of the strategy.
    - The draws of the global random source and the iteration orders of
      Python sets are inputs of a round ([Choices]). *)

From Stdlib Require Import Reals Lra ZArith.
From stdpp Require Import gmap list strings sorting.

#[global] Instance R_eq_dec : EqDecision R := Req_dec_T.
#[global] Instance Rle_decision : RelDecision Rle := Rle_dec.
#[global] Instance Rlt_decision : RelDecision Rlt := Rlt_dec.
#[global] Instance Rgt_decision : RelDecision Rgt := λ x y, Rlt_dec y x.

(** Values of the instance attributes that [Agent.log_state] snapshots. *)
Inductive PyVal :=
  | PyInt (z : Z)
  | PyFloat (r : R)
  | PyBool (b : bool)
  | PyStr (s : string)
  | PyStrs (l : list string)
  | PyIds (s : gset nat).

(** A float division: [ZeroDivisionError] on a zero divisor. *)
Definition fdiv (x y : R) : option R :=
  if decide (y = 0%R) then None else Some (x / y)%R.

(** ** compatibility.py *)
Module CompatibilityCalculator.

Record t := mk {
  attribute_weights : list R;
  (* one dictionary per attribute, keyed by [True] (match) and [False] *)
  attribute_match_rewards : list (gmap bool R) }.

(** One iteration of the loop of [get_compatibility]. *)
Definition step {A} `{EqDecision A} (c : t) (type_1 type_2 : list A)
    (acc : option R) (i : nat) : option R :=
  compatibility ← acc;
  x ← type_1 !! i;
  y ← type_2 !! i;
  rewards ← attribute_match_rewards c !! i;
  reward ← rewards !! bool_decide (x = y);
  weight ← attribute_weights c !! i;
  Some (compatibility + reward * weight)%R.

Definition get_compatibility {A} `{EqDecision A} (c : t)
    (type_1 type_2 : list A) : option R :=
  foldl (step c type_1 type_2) (Some 0%R) (seq 0 (length type_1)).

End CompatibilityCalculator.

(** ** agents.py *)
Module Agent.

Record t (S : Type) := mk {
  id : nat;
  gender : string;
  attractiveness : R;
  estimated_attractiveness : R;
  is_premium : bool;
  is_impostor : bool;
  observable_attributes : list string;
  hidden_attributes : list string;
  like_allowance : Z;
  remaining_likes : Z;
  strategy : S;
  compatibility_calculator : CompatibilityCalculator.t;
  liked : gset nat;
  passed : gset nat;
  matched : gset nat;
  match_count : nat;
  happiness : R;
  history : gmap string (gmap nat PyVal) }.

Arguments mk {S}.
Arguments id {S}.
Arguments gender {S}.
Arguments attractiveness {S}.
Arguments estimated_attractiveness {S}.
Arguments is_premium {S}.
Arguments is_impostor {S}.
Arguments observable_attributes {S}.
Arguments hidden_attributes {S}.
Arguments like_allowance {S}.
Arguments remaining_likes {S}.
Arguments strategy {S}.
Arguments compatibility_calculator {S}.
Arguments liked {S}.
Arguments passed {S}.
Arguments matched {S}.
Arguments match_count {S}.
Arguments happiness {S}.
Arguments history {S}.

(** The dictionary returned by [get_public_details]. *)
Record details := mk_details {
  d_id : nat;
  d_attractiveness : R;
  d_observable_attributes : list string }.

(** The interface of strategies.py: [Strategy] and its subclasses. *)
Class Strategy (S : Type) := {
  is_interested : S → t S → details → bool * S;
  match_callback : S → t S → t S → S;
  new_round_callback : S → t S → S }.

Section methods.
Context {S : Type} `{!Strategy S}.
Implicit Types (a : t S).

(** Field assignments. *)
Definition set_remaining_likes a (n : Z) : t S :=
  mk (id a) (gender a) (attractiveness a) (estimated_attractiveness a)
    (is_premium a) (is_impostor a) (observable_attributes a)
    (hidden_attributes a) (like_allowance a) n (strategy a)
    (compatibility_calculator a) (liked a) (passed a) (matched a)
    (match_count a) (happiness a) (history a).

Definition set_strategy a (s : S) : t S :=
  mk (id a) (gender a) (attractiveness a) (estimated_attractiveness a)
    (is_premium a) (is_impostor a) (observable_attributes a)
    (hidden_attributes a) (like_allowance a) (remaining_likes a) s
    (compatibility_calculator a) (liked a) (passed a) (matched a)
    (match_count a) (happiness a) (history a).

Definition set_assessed a (l p : gset nat) : t S :=
  mk (id a) (gender a) (attractiveness a) (estimated_attractiveness a)
    (is_premium a) (is_impostor a) (observable_attributes a)
    (hidden_attributes a) (like_allowance a) (remaining_likes a)
    (strategy a) (compatibility_calculator a) l p (matched a)
    (match_count a) (happiness a) (history a).

Definition set_match a (m : gset nat) (n : nat) (h : R) : t S :=
  mk (id a) (gender a) (attractiveness a) (estimated_attractiveness a)
    (is_premium a) (is_impostor a) (observable_attributes a)
    (hidden_attributes a) (like_allowance a) (remaining_likes a)
    (strategy a) (compatibility_calculator a) (liked a) (passed a) m n h
    (history a).

Definition set_history a (h : gmap string (gmap nat PyVal)) : t S :=
  mk (id a) (gender a) (attractiveness a) (estimated_attractiveness a)
    (is_premium a) (is_impostor a) (observable_attributes a)
    (hidden_attributes a) (like_allowance a) (remaining_likes a)
    (strategy a) (compatibility_calculator a) (liked a) (passed a)
    (matched a) (match_count a) (happiness a) h.

(** [__init__], with the random draws (gender, attractiveness, the
    estimation, premium and impostor status) given by the caller. *)
Definition init (id : nat) (observable_attributes hidden_attributes : list string)
    (like_allowance : Z) (strategy : S)
    (compatibility_calculator : CompatibilityCalculator.t)
    (gender : string) (attractiveness estimated_attractiveness : R)
    (is_premium is_impostor : bool) : t S :=
  mk id gender attractiveness estimated_attractiveness is_premium
    is_impostor observable_attributes hidden_attributes
    (if is_premium then like_allowance * 2 else like_allowance)%Z
    like_allowance strategy compatibility_calculator ∅ ∅ ∅ 0 0%R ∅.

(** The start of a round for an agent: the hook of its strategy, then
    [remaining_likes = like_allowance]. *)
Definition replenish a : t S :=
  let a := set_strategy a (new_round_callback (strategy a) a) in
  set_remaining_likes a (like_allowance a).

Definition get_public_details a : details :=
  mk_details (id a) (attractiveness a) (observable_attributes a).

Definition get_assessed_candidates a : gset nat := liked a ∪ passed a.

(** The loop of [assess_candidates]: [l] and [p] are the local sets
    [liked] and [passed]. *)
Fixpoint assess_loop a (candidates_details : list details)
    (l p : gset nat) : t S * gset nat * gset nat :=
  match candidates_details with
  | [] => (a, l, p)
  | candidate_details :: rest =>
      if bool_decide (remaining_likes a < 1)%Z then (a, l, p)
      else
        let '(interested, s) :=
          is_interested (strategy a) a candidate_details in
        let a := set_strategy a s in
        if interested then
          assess_loop (set_remaining_likes a (remaining_likes a - 1))
            rest (l ∪ {[d_id candidate_details]}) p
        else
          assess_loop a rest l (p ∪ {[d_id candidate_details]})
  end.

(** Returns the agent after the call and the dictionary
    [{"liked": liked, "passed": passed}]. *)
Definition assess_candidates a (candidates_details : list details)
    : t S * (gset nat * gset nat) :=
  let '(a, l, p) := assess_loop a candidates_details ∅ ∅ in
  (set_assessed a (liked a ∪ l) (passed a ∪ p), (l, p)).

Definition discomfort_divisor a (matched_agent : t S) : option R :=
  q ← fdiv (5 - estimated_attractiveness a)
           (5 * estimated_attractiveness a);
  Some (q + Rpower (attractiveness matched_agent
                    - estimated_attractiveness a) (1 / 100))%R.

(** The branch of [calculate_happiness] that computes the utility. *)
Definition match_happiness a (matched_agent : t S) : option R :=
  compatibility ←
    CompatibilityCalculator.get_compatibility
      (compatibility_calculator a)
      [observable_attributes a ++ hidden_attributes a]
      [observable_attributes matched_agent
       ++ hidden_attributes matched_agent];
  let happiness :=
    (Rpower (attractiveness matched_agent * compatibility + 2)
            (9 / 10) - 1)%R in
  if bool_decide (gender a = "Female")
     && bool_decide (attractiveness matched_agent
                     - estimated_attractiveness a > 0)%R
  then discomfort_divisor a matched_agent ≫= fdiv happiness
  else Some happiness.

Definition calculate_happiness a (matched_agent : t S) : option R :=
  if is_impostor a
     || (negb (is_impostor a) && negb (is_impostor matched_agent))
  then match_happiness a matched_agent
  else Some 0%R.

Definition get_matched a (matched_agent : t S) : option (t S) :=
  let a :=
    set_match a (matched a) (Datatypes.S (match_count a)) (happiness a) in
  let a :=
    set_match a (matched a ∪ {[id matched_agent]}) (match_count a)
      (happiness a) in
  h ← calculate_happiness a matched_agent;
  let a :=
    set_match a (matched a) (match_count a)
      (happiness a + h * (999 / 1000) ^ match_count a)%R in
  Some (set_strategy a (match_callback (strategy a) a matched_agent)).

(** The data attributes that can be logged, by name. *)
Definition getattr a (variable : string) : option PyVal :=
  if decide (variable = "id") then Some (PyInt (Z.of_nat (id a)))
  else if decide (variable = "gender") then Some (PyStr (gender a))
  else if decide (variable = "attractiveness")
    then Some (PyFloat (attractiveness a))
  else if decide (variable = "estimated_attractiveness")
    then Some (PyFloat (estimated_attractiveness a))
  else if decide (variable = "is_premium")
    then Some (PyBool (is_premium a))
  else if decide (variable = "is_impostor")
    then Some (PyBool (is_impostor a))
  else if decide (variable = "observable_attributes")
    then Some (PyStrs (observable_attributes a))
  else if decide (variable = "hidden_attributes")
    then Some (PyStrs (hidden_attributes a))
  else if decide (variable = "like_allowance")
    then Some (PyInt (like_allowance a))
  else if decide (variable = "remaining_likes")
    then Some (PyInt (remaining_likes a))
  else if decide (variable = "liked") then Some (PyIds (liked a))
  else if decide (variable = "passed") then Some (PyIds (passed a))
  else if decide (variable = "matched") then Some (PyIds (matched a))
  else if decide (variable = "match_count")
    then Some (PyInt (Z.of_nat (match_count a)))
  else if decide (variable = "happiness")
    then Some (PyFloat (happiness a))
  else None.

Definition log_variable (log_id : nat) a (variable : string) : t S :=
  match getattr a variable with
  | Some v =>
      match history a !! variable with
      | None => set_history a (<[variable := {[log_id := v]}]> (history a))
      | Some h =>
          set_history a (<[variable := <[log_id := v]> h]> (history a))
      end
  | None => a
  end.

Definition log_state a (log_id : nat) (logged_variables : list string)
    : t S :=
  foldl (log_variable log_id) a logged_variables.

(** [estimate_self_attractiveness]: [rvs lower upper loc scale] is the draw
    of [stats.truncnorm(lower, upper, loc=loc, scale=scale).rvs()]; a zero
    [sigma] raises [ZeroDivisionError]. *)
Definition estimate_self_attractiveness (rvs : R → R → R → R → R) a
    : option R :=
  let estimation_max := (3 * attractiveness a / 8 + 25 / 8)%R in
  let estimation_min := (3 * attractiveness a / 4 + 1 / 4)%R in
  let mu := ((estimation_max + estimation_min) / 2)%R in
  let sigma := ((estimation_max - estimation_min) / 6)%R in
  lower ← fdiv (estimation_min - mu) sigma;
  upper ← fdiv (estimation_max - mu) sigma;
  Some (rvs lower upper mu sigma).

(** The two shapes of the dictionary that [get_logs] returns: the logs of
    all the rounds of each variable, or the values of one round. *)
Inductive logs :=
  | all_rounds (d : gmap string (gmap nat PyVal))
  | one_round (d : gmap string PyVal).

Definition get_logs a (log_id : option nat)
    (variables : option (list string)) : logs :=
  match log_id, variables with
  | None, None => all_rounds (history a)
  | Some log_id, None =>
      one_round (omap (λ log : gmap nat PyVal, log !! log_id) (history a))
  | None, Some variables =>
      all_rounds
        (list_to_map
           (omap (λ variable, pair variable <$> history a !! variable)
              variables))
  | Some log_id, Some variables =>
      one_round
        (list_to_map
           (omap (λ variable,
                   pair variable
                     <$> (history a !! variable ≫= λ log, log !! log_id))
              variables))
  end.

End methods.
End Agent.

(** ** Python and library primitives used by matchers.py *)

(** A loop whose body may raise. *)
Fixpoint for_each {A B} (body : B → A → option B) (l : list A) (acc : B)
    : option B :=
  match l with
  | [] => Some acc
  | x :: l => acc ← body acc x; for_each body l acc
  end.

(** [d[k] = v] on a dictionary kept in insertion order: an existing key
    keeps its place. *)
Fixpoint dict_set {V} (k : nat) (v : V) (d : list (nat * V))
    : list (nat * V) :=
  match d with
  | [] => [(k, v)]
  | (k', v') :: d =>
      if decide (k' = k) then (k, v) :: d else (k', v') :: dict_set k v d
  end.

(** [sorted(l, key=key, reverse=reverse)]: a stable sort.  An element is
    inserted in front of the sorted rest of the list and moves past the
    entries that must come strictly before it. *)
Definition goes_first (reverse : bool) (x y : R) : bool :=
  if reverse then bool_decide (y < x)%R else bool_decide (x < y)%R.

Fixpoint sorted_insert {A} (key : A → R) (reverse : bool) (x : A)
    (l : list A) : list A :=
  match l with
  | [] => [x]
  | y :: l' =>
      if goes_first reverse (key y) (key x)
      then y :: sorted_insert key reverse x l'
      else x :: l
  end.

Definition sorted {A} (key : A → R) (reverse : bool) (l : list A) : list A :=
  foldr (sorted_insert key reverse) [] l.

(** [numpy.percentile(a, q)] with the default linear interpolation between
    the two closest ranks.  It raises on a percentile out of [0, 100] and on
    an empty sample. *)
Definition np_percentile (a : list R) (q : R) : option R :=
  if decide (0 <= q ∧ q <= 100)%R then
    let arr := sorted (λ x : R, x) false a in
    let n := length arr in
    let virtual_index := (INR (n - 1) * (q / 100))%R in
    let previous_index := Z.to_nat (Zfloor virtual_index) in
    let next_index := (previous_index + 1) `min` (n - 1) in
    previous ← arr !! previous_index;
    next ← arr !! next_index;
    Some (previous + (next - previous) * (virtual_index - INR previous_index))%R
  else None.

(** [scipy.sparse.dok_matrix(shape, dtype=int)]: a dictionary of the cells
    that are not zero; an index out of the shape raises. *)
Module dok_matrix.

Record t := mk { shape : nat * nat; cells : gmap (nat * nat) Z }.

Definition new (shape : nat * nat) : t := mk shape ∅.

Definition in_shape (m : t) (i j : nat) : bool :=
  bool_decide (i < (shape m).1) && bool_decide (j < (shape m).2).

Definition get (m : t) (i j : nat) : option Z :=
  if in_shape m i j then Some (default 0%Z (cells m !! (i, j))) else None.

Definition set (m : t) (i j : nat) (v : Z) : option t :=
  if in_shape m i j then
    Some (mk (shape m)
            (if decide (v = 0%Z) then delete (i, j) (cells m)
             else <[(i, j) := v]> (cells m)))
  else None.

End dok_matrix.

(** What a round takes from the global random source and from the iteration
    order of Python sets. *)
Record Choices := mk_choices {
  (* [random.sample(population, k)]; the key is the position in the list of
     agents of the agent being served and the number of the call *)
  sample : nat * nat → list nat → nat → list nat;
  (* [random.shuffle] *)
  shuffle : list nat → list nat;
  (* the order in which a set of ids, or of pairs, is iterated *)
  set_order : gset nat → list nat;
  pair_order : gset (nat * nat) → list (nat * nat) }.

(** [random.sample]: [ValueError] when the sample is larger than the
    population. *)
Definition random_sample (c : Choices) (call : nat * nat)
    (population : list nat) (k : nat) : option (list nat) :=
  if decide (k ≤ length population) then Some (sample c call population k)
  else None.

(** The choices that the random source and the sets can really make. *)
Record choices_ok (c : Choices) : Prop := {
  sample_length : ∀ call population k,
    k ≤ length population → length (sample c call population k) = k;
  sample_subset : ∀ call population k x,
    x ∈ sample c call population k → x ∈ population;
  sample_NoDup : ∀ call population k,
    NoDup population → NoDup (sample c call population k);
  shuffle_perm : ∀ l, shuffle c l ≡ₚ l;
  set_order_perm : ∀ X, set_order c X ≡ₚ elements X;
  pair_order_perm : ∀ X, pair_order c X ≡ₚ elements X }.

(** ** matchers.py: the base class *)
Module AgentMatcher.
Section methods.
Context {S : Type}.

Definition get_agents_by_ids (agents : list (Agent.t S)) (ids : list nat)
    : list (Agent.t S) :=
  filter (λ agent, Agent.id agent ∈ ids) agents.

Definition get_agent_by_id (agents : list (Agent.t S)) (id : nat)
    : option (Agent.t S) :=
  agents !! id.

End methods.
End AgentMatcher.

(** ** matchers.py: RandomAgentMatcher *)
Module RandomAgentMatcher.

Record t (S : Type) := mk {
  agents : list (Agent.t S);
  agent_ids : gset nat;
  round : nat;
  matrix : dok_matrix.t;
  recommendation_limit : nat;
  compatibility_calculator : CompatibilityCalculator.t;
  waiting_matches : gset (nat * nat);
  eliminated_agents : gset nat }.

Arguments mk {S}.
Arguments agents {S}.
Arguments agent_ids {S}.
Arguments round {S}.
Arguments matrix {S}.
Arguments recommendation_limit {S}.
Arguments compatibility_calculator {S}.
Arguments waiting_matches {S}.
Arguments eliminated_agents {S}.

Section methods.
Context {S : Type} `{!Agent.Strategy S}.
Implicit Types (m : t S) (agent : Agent.t S).

Definition set_agents m (l : list (Agent.t S)) : t S :=
  mk l (agent_ids m) (round m) (matrix m) (recommendation_limit m)
    (compatibility_calculator m) (waiting_matches m)
    (eliminated_agents m).

Definition set_round m (n : nat) : t S :=
  mk (agents m) (agent_ids m) n (matrix m) (recommendation_limit m)
    (compatibility_calculator m) (waiting_matches m)
    (eliminated_agents m).

Definition set_matrix m (x : dok_matrix.t) : t S :=
  mk (agents m) (agent_ids m) (round m) x (recommendation_limit m)
    (compatibility_calculator m) (waiting_matches m)
    (eliminated_agents m).

Definition set_waiting_matches m (w : gset (nat * nat)) : t S :=
  mk (agents m) (agent_ids m) (round m) (matrix m)
    (recommendation_limit m) (compatibility_calculator m) w
    (eliminated_agents m).

Definition set_eliminated_agents m (e : gset nat) : t S :=
  mk (agents m) (agent_ids m) (round m) (matrix m)
    (recommendation_limit m) (compatibility_calculator m)
    (waiting_matches m) e.

(** [__init__] has no statement that raises. *)
Definition init (agents : list (Agent.t S)) (recommendation_limit : nat)
    (compatibility_calculator : CompatibilityCalculator.t)
    : option (t S) :=
  let agent_ids : gset nat := list_to_set (Agent.id <$> agents) in
  Some (mk agents agent_ids 0
          (dok_matrix.new (size agent_ids, size agent_ids))
          recommendation_limit compatibility_calculator ∅ ∅).

Definition get_available_candidates m agent : gset nat :=
  (agent_ids m ∖ Agent.get_assessed_candidates agent)
    ∖ ({[Agent.id agent]} ∪ eliminated_agents m).

(** [tuple(sorted([agent_id, liked_id]))] *)
Definition sorted_pair (i j : nat) : nat * nat := (i `min` j, i `max` j).

Definition like (agent_id : nat) m (liked_id : nat) : option (t S) :=
  x ← dok_matrix.set (matrix m) agent_id liked_id 1;
  let m := set_matrix m x in
  back ← dok_matrix.get (matrix m) liked_id agent_id;
  if decide (back = 1%Z) then
    Some (set_waiting_matches m
            (waiting_matches m ∪ {[sorted_pair agent_id liked_id]}))
  else Some m.

Definition process_likes (c : Choices) (likes : list (nat * gset nat)) m
    : option (t S) :=
  for_each (λ m '(agent_id, likes),
             for_each (like agent_id) (set_order c likes) m) likes m.

Definition pass (agent_id : nat) m (passed_id : nat) : option (t S) :=
  x ← dok_matrix.set (matrix m) agent_id passed_id (-1);
  Some (set_matrix m x).

Definition process_passes (c : Choices) (passes : list (nat * gset nat)) m
    : option (t S) :=
  for_each (λ m '(agent_id, passed),
             for_each (pass agent_id) (set_order c passed) m) passes m.

(** [agents[i].get_matched(agents[j])] on the shared agent objects. *)
Definition notify (i j : nat) (l : list (Agent.t S))
    : option (list (Agent.t S)) :=
  agent ← AgentMatcher.get_agent_by_id l i;
  matched_agent ← AgentMatcher.get_agent_by_id l j;
  agent ← Agent.get_matched agent matched_agent;
  Some (<[i := agent]> l).

Definition process_match (l : list (Agent.t S)) (p : nat * nat)
    : option (list (Agent.t S)) :=
  l ← notify p.1 p.2 l; notify p.2 p.1 l.

Definition process_matches (c : Choices) m : option (t S) :=
  l ← for_each process_match (pair_order c (waiting_matches m)) (agents m);
  Some (set_waiting_matches (set_agents m l) ∅).

Definition log_agents m : t S :=
  set_agents m
    ((λ agent, Agent.log_state agent (round m) ["match_count"; "happiness"])
       <$> agents m).

(** The dictionaries [round_likes] and [round_passes] of a round. *)
Definition collected : Type :=
  t S * list (nat * gset nat) * list (nat * gset nat).

(** The candidates shown to the agent at position [i], once its
    allowance is replenished.  [random.sample] is given a set, as the
    Python versions before 3.11 accept. *)
Definition recommend (c : Choices) (i : nat) m agent
    : option (list Agent.details) :=
  let available_candidates := get_available_candidates m agent in
  let n_recommend :=
    recommendation_limit m `min` size available_candidates in
  recommended_agent_ids ←
    random_sample c (i, 0) (set_order c available_candidates) n_recommend;
  Some (Agent.get_public_details
          <$> AgentMatcher.get_agents_by_ids (agents m)
                recommended_agent_ids).

(** The body of the loop of [run_new_round], for the agent at position
    [i] of [self.agents]. *)
Definition serve (c : Choices) (acc : collected) (i : nat)
    : option collected :=
  let '(m, round_likes, round_passes) := acc in
  agent ← agents m !! i;
  if decide (Agent.id agent ∈ eliminated_agents m) then Some acc
  else
    let agent := Agent.replenish agent in
    let m := set_agents m (<[i := agent]> (agents m)) in
    candidates_details ← recommend c i m agent;
    let '(agent, (l, p)) :=
      Agent.assess_candidates agent candidates_details in
    let m := set_agents m (<[i := agent]> (agents m)) in
    Some (m, dict_set (Agent.id agent) l round_likes,
          dict_set (Agent.id agent) p round_passes).

Definition collect (c : Choices) m : option collected :=
  for_each (serve c) (seq 0 (length (agents m))) (m, [], []).

(** [run_new_round] up to the call of [process_matches]. *)
Definition resolve_likes (c : Choices) m : option (t S) :=
  let m := set_round m (round m + 1) in
  '(m, round_likes, round_passes) ← collect c m;
  m ← process_likes c round_likes m;
  process_passes c round_passes m.

Definition run_new_round (c : Choices) m : option (t S) :=
  m ← resolve_likes c m;
  m ← process_matches c m;
  Some (log_agents m).

Definition eliminate (threshold_value : R) (e : gset nat) agent
    : gset nat :=
  if decide (Agent.happiness agent <= threshold_value)%R
  then e ∪ {[Agent.id agent]} else e.

Definition eliminate_bottom (bottom_threshold : R) m : option (t S) :=
  threshold_value ←
    np_percentile
      (Agent.happiness
         <$> filter (λ agent, Agent.id agent ∉ eliminated_agents m)
               (agents m))
      bottom_threshold;
  Some (set_eliminated_agents m
          (foldl (eliminate threshold_value) (eliminated_agents m)
             (agents m))).

Definition name : string := "Random Agent Matcher".

Definition get_info m : gmap string PyVal :=
  {[ "name" := PyStr name;
     "agents" := PyInt (Z.of_nat (size (agent_ids m)));
     "rounds" := PyInt (Z.of_nat (round m));
     "recommendation_limit" := PyInt (Z.of_nat (recommendation_limit m)) ]}.

End methods.
End RandomAgentMatcher.

(** ** matchers.py: RankedAgentMatcher *)

(** [trueskill.Rating]; ratings compare by their mean. *)
Record Rating := mk_rating { mu : R; sigma : R }.

(** [Rating()]: the prior of the default TrueSkill environment. *)
Definition default_rating : Rating := mk_rating 25 (25 / 3).

(** [trueskill.rate_1vs1(winner, loser, drawn)], taken as given. *)
Class TrueSkill := {
  rate_1vs1 : Rating → Rating → bool → Rating * Rating }.

(** [l[i] = x] on a Python list: [IndexError] out of range. *)
Definition list_set {A} (l : list A) (i : nat) (x : A) : option (list A) :=
  if decide (i < length l) then Some (<[i := x]> l) else None.

Module RankedAgentMatcher.

Record t (S : Type) := mk {
  agents : list (Agent.t S);
  agent_ids : gset nat;
  round : nat;
  matrix : dok_matrix.t;
  ratings : list Rating;
  recommendation_limit : nat;
  compatibility_calculator : CompatibilityCalculator.t;
  waiting_matches : gset (nat * nat);
  eliminated_agents : gset nat;
  rating_logs : gmap nat (gmap nat Rating);
  strict_recommendations : bool;
  likes_as_draws : bool;
  rank_passes : bool;
  rank_pass_from_lower : bool;
  rank_pass_from_higher : bool }.

Arguments mk {S}.
Arguments agents {S}.
Arguments agent_ids {S}.
Arguments round {S}.
Arguments matrix {S}.
Arguments ratings {S}.
Arguments recommendation_limit {S}.
Arguments compatibility_calculator {S}.
Arguments waiting_matches {S}.
Arguments eliminated_agents {S}.
Arguments rating_logs {S}.
Arguments strict_recommendations {S}.
Arguments likes_as_draws {S}.
Arguments rank_passes {S}.
Arguments rank_pass_from_lower {S}.
Arguments rank_pass_from_higher {S}.

Section methods.
Context {S : Type} `{!Agent.Strategy S} `{!TrueSkill}.
Implicit Types (m : t S) (agent : Agent.t S).

Definition set_agents m (l : list (Agent.t S)) : t S :=
  mk l (agent_ids m) (round m) (matrix m) (ratings m)
    (recommendation_limit m) (compatibility_calculator m)
    (waiting_matches m) (eliminated_agents m) (rating_logs m)
    (strict_recommendations m) (likes_as_draws m) (rank_passes m)
    (rank_pass_from_lower m) (rank_pass_from_higher m).

Definition set_round m (n : nat) : t S :=
  mk (agents m) (agent_ids m) n (matrix m) (ratings m)
    (recommendation_limit m) (compatibility_calculator m)
    (waiting_matches m) (eliminated_agents m) (rating_logs m)
    (strict_recommendations m) (likes_as_draws m) (rank_passes m)
    (rank_pass_from_lower m) (rank_pass_from_higher m).

Definition set_matrix m (x : dok_matrix.t) : t S :=
  mk (agents m) (agent_ids m) (round m) x (ratings m)
    (recommendation_limit m) (compatibility_calculator m)
    (waiting_matches m) (eliminated_agents m) (rating_logs m)
    (strict_recommendations m) (likes_as_draws m) (rank_passes m)
    (rank_pass_from_lower m) (rank_pass_from_higher m).

Definition set_ratings m (r : list Rating) : t S :=
  mk (agents m) (agent_ids m) (round m) (matrix m) r
    (recommendation_limit m) (compatibility_calculator m)
    (waiting_matches m) (eliminated_agents m) (rating_logs m)
    (strict_recommendations m) (likes_as_draws m) (rank_passes m)
    (rank_pass_from_lower m) (rank_pass_from_higher m).

Definition set_waiting_matches m (w : gset (nat * nat)) : t S :=
  mk (agents m) (agent_ids m) (round m) (matrix m) (ratings m)
    (recommendation_limit m) (compatibility_calculator m) w
    (eliminated_agents m) (rating_logs m) (strict_recommendations m)
    (likes_as_draws m) (rank_passes m) (rank_pass_from_lower m)
    (rank_pass_from_higher m).

Definition set_eliminated_agents m (e : gset nat) : t S :=
  mk (agents m) (agent_ids m) (round m) (matrix m) (ratings m)
    (recommendation_limit m) (compatibility_calculator m)
    (waiting_matches m) e (rating_logs m) (strict_recommendations m)
    (likes_as_draws m) (rank_passes m) (rank_pass_from_lower m)
    (rank_pass_from_higher m).

Definition set_rating_logs m (g : gmap nat (gmap nat Rating)) : t S :=
  mk (agents m) (agent_ids m) (round m) (matrix m) (ratings m)
    (recommendation_limit m) (compatibility_calculator m)
    (waiting_matches m) (eliminated_agents m) g
    (strict_recommendations m) (likes_as_draws m) (rank_passes m)
    (rank_pass_from_lower m) (rank_pass_from_higher m).

(** [__init__] has no statement that raises. *)
Definition init (agents : list (Agent.t S)) (recommendation_limit : nat)
    (compatibility_calculator : CompatibilityCalculator.t)
    (strict_recommendations likes_as_draws rank_passes
       rank_pass_from_lower rank_pass_from_higher : bool)
    : option (t S) :=
  let agent_ids : gset nat := list_to_set (Agent.id <$> agents) in
  Some (mk agents agent_ids 0
          (dok_matrix.new (size agent_ids, size agent_ids))
          (replicate (size agent_ids) default_rating)
          recommendation_limit compatibility_calculator ∅ ∅
          (gset_to_gmap ∅ agent_ids)
          strict_recommendations likes_as_draws rank_passes
          rank_pass_from_lower rank_pass_from_higher).

(** The dictionary [sorted_ratings] before it is sorted: the distance of
    every available index of [self.ratings], in the order of the
    indices. *)
Definition rating_distances (all_available : gset nat)
    (agent_rating : R) (ratings : list Rating) : list (nat * R) :=
  filter (λ x, x.1 ∈ all_available)
    (imap (λ i rating, (i, Rabs (mu rating - agent_rating))) ratings).

Definition ranked_candidates m agent : option (list nat) :=
  let all_available :=
    (agent_ids m ∖ Agent.get_assessed_candidates agent)
      ∖ ({[Agent.id agent]} ∪ eliminated_agents m) in
  rating ← ratings m !! Agent.id agent;
  let agent_rating := mu rating in
  let sorted_ratings :=
    sorted snd true
      (rating_distances all_available agent_rating (ratings m)) in
  Some (sorted_ratings.*1).

(** The position [i] of the agent in [self.agents] only selects the draw
    of the random source. *)
Definition get_available_candidates (c : Choices) (i : nat) m agent
    : option (list nat) :=
  keys ← ranked_candidates m agent;
  if strict_recommendations m then
    Some (take (length keys `min` recommendation_limit m) keys)
  else
    random_sample c (i, 0)
      (take (length keys `min` (recommendation_limit m * 3 / 2)) keys)
      (length keys `min` recommendation_limit m).

Definition sorted_pair (i j : nat) : nat * nat := (i `min` j, i `max` j).

Definition like (agent_id : nat) m (liked_id : nat) : option (t S) :=
  x ← dok_matrix.set (matrix m) agent_id liked_id 1;
  let m := set_matrix m x in
  winner ← ratings m !! liked_id;
  loser ← ratings m !! agent_id;
  let '(liked_rating, agent_rating) :=
    rate_1vs1 winner loser (likes_as_draws m) in
  r ← list_set (ratings m) liked_id liked_rating;
  r ← list_set r agent_id agent_rating;
  let m := set_ratings m r in
  back ← dok_matrix.get (matrix m) liked_id agent_id;
  if decide (back = 1%Z) then
    Some (set_waiting_matches m
            (waiting_matches m ∪ {[sorted_pair agent_id liked_id]}))
  else Some m.

(** [get] reads a dictionary kept in insertion order. *)
Definition dict_get {V} (d : list (nat * V)) (k : nat) : option V :=
  (λ x, x.2.2) <$> list_find (λ x, x.1 = k) d.

Definition process_likes (c : Choices) (likes : list (nat * gset nat)) m
    : option (t S) :=
  let liker_agents := shuffle c (likes.*1) in
  for_each (λ m agent_id,
             liked ← dict_get likes agent_id;
             for_each (like agent_id)
               (shuffle c (set_order c liked)) m)
    liker_agents m.

Definition pass (agent_id : nat) m (passed_id : nat) : option (t S) :=
  x ← dok_matrix.set (matrix m) agent_id passed_id (-1);
  let m := set_matrix m x in
  if rank_passes m then
    winner ← ratings m !! agent_id;
    loser ← ratings m !! passed_id;
    if negb (rank_pass_from_lower m)
       && bool_decide (mu winner < mu loser)%R then Some m
    else if negb (rank_pass_from_higher m)
            && bool_decide (mu winner > mu loser)%R then Some m
    else
      let '(agent_rating, passed_rating) :=
        rate_1vs1 winner loser false in
      r ← list_set (ratings m) passed_id passed_rating;
      r ← list_set r agent_id agent_rating;
      Some (set_ratings m r)
  else Some m.

Definition process_passes (c : Choices) (passes : list (nat * gset nat))
    m : option (t S) :=
  let passing_agents := shuffle c (passes.*1) in
  for_each (λ m agent_id,
             passed ← dict_get passes agent_id;
             for_each (pass agent_id)
               (shuffle c (set_order c passed)) m)
    passing_agents m.

Definition notify (i j : nat) (l : list (Agent.t S))
    : option (list (Agent.t S)) :=
  agent ← AgentMatcher.get_agent_by_id l i;
  matched_agent ← AgentMatcher.get_agent_by_id l j;
  agent ← Agent.get_matched agent matched_agent;
  Some (<[i := agent]> l).

Definition process_match (l : list (Agent.t S)) (p : nat * nat)
    : option (list (Agent.t S)) :=
  l ← notify p.1 p.2 l; notify p.2 p.1 l.

Definition process_matches (c : Choices) m : option (t S) :=
  l ← for_each process_match (pair_order c (waiting_matches m)) (agents m);
  Some (set_waiting_matches (set_agents m l) ∅).

(** One iteration of [log_agents], for the agent at position [i]. *)
Definition log_agent m (i : nat) : option (t S) :=
  agent ← agents m !! i;
  let agent :=
    Agent.log_state agent (round m) ["match_count"; "happiness"] in
  let m := set_agents m (<[i := agent]> (agents m)) in
  log ← rating_logs m !! Agent.id agent;
  rating ← ratings m !! Agent.id agent;
  Some (set_rating_logs m
          (<[Agent.id agent := <[round m := rating]> log]>
             (rating_logs m))).

Definition log_agents m : option (t S) :=
  for_each log_agent (seq 0 (length (agents m))) m.

Definition collected : Type :=
  t S * list (nat * gset nat) * list (nat * gset nat).

Definition recommend (c : Choices) (i : nat) m agent
    : option (list Agent.details) :=
  available_candidates ← get_available_candidates c i m agent;
  let n_recommend :=
    recommendation_limit m `min` length available_candidates in
  recommended_agent_ids ←
    random_sample c (i, 1) available_candidates n_recommend;
  Some (Agent.get_public_details
          <$> AgentMatcher.get_agents_by_ids (agents m)
                recommended_agent_ids).

Definition serve (c : Choices) (acc : collected) (i : nat)
    : option collected :=
  let '(m, round_likes, round_passes) := acc in
  agent ← agents m !! i;
  if decide (Agent.id agent ∈ eliminated_agents m) then Some acc
  else
    let agent := Agent.replenish agent in
    let m := set_agents m (<[i := agent]> (agents m)) in
    candidates_details ← recommend c i m agent;
    let '(agent, (l, p)) :=
      Agent.assess_candidates agent candidates_details in
    let m := set_agents m (<[i := agent]> (agents m)) in
    Some (m, dict_set (Agent.id agent) l round_likes,
          dict_set (Agent.id agent) p round_passes).

Definition collect (c : Choices) m : option collected :=
  for_each (serve c) (seq 0 (length (agents m))) (m, [], []).

Definition run_new_round (c : Choices) m : option (t S) :=
  let m := set_round m (round m + 1) in
  '(m, round_likes, round_passes) ← collect c m;
  m ← process_likes c round_likes m;
  m ← process_passes c round_passes m;
  m ← process_matches c m;
  log_agents m.

Definition eliminate (threshold_value : R) (e : gset nat) agent
    : gset nat :=
  if decide (Agent.happiness agent <= threshold_value)%R
  then e ∪ {[Agent.id agent]} else e.

(** The branch [using_ratings] walks the set [self.agent_ids]; what it
    computes does not depend on the order of the walk. *)
Definition eliminate_bottom (bottom_threshold : R) (using_ratings : bool)
    m : option (t S) :=
  if using_ratings then
    means ←
      mapM (λ agent_id, mu <$> ratings m !! agent_id)
        (filter (λ agent_id, agent_id ∉ eliminated_agents m)
           (elements (agent_ids m)));
    threshold_value ← np_percentile means bottom_threshold;
    e ← for_each (λ e agent_id,
                   rating ← ratings m !! agent_id;
                   if decide (mu rating <= threshold_value)%R
                   then Some (e ∪ {[agent_id]}) else Some e)
           (elements (agent_ids m)) (eliminated_agents m);
    Some (set_eliminated_agents m e)
  else
    threshold_value ←
      np_percentile
        (Agent.happiness
           <$> filter (λ agent, Agent.id agent ∉ eliminated_agents m)
                 (agents m))
        bottom_threshold;
    Some (set_eliminated_agents m
            (foldl (eliminate threshold_value) (eliminated_agents m)
               (agents m))).

Definition name : string := "Ranked Agent Matcher".

Definition get_info m : gmap string PyVal :=
  {[ "name" := PyStr name;
     "agents" := PyInt (Z.of_nat (size (agent_ids m)));
     "rounds" := PyInt (Z.of_nat (round m));
     "recommendation_limit" := PyInt (Z.of_nat (recommendation_limit m)) ]}.

End methods.
End RankedAgentMatcher.

(** ** strategies.py *)

(** [int(x)] on a float: the truncation towards zero. *)
Definition py_int (x : R) : Z :=
  if decide (0 <= x)%R then Zfloor x else Zceil x.

(** [max(l)] on a list: [ValueError] on the empty list. *)
Definition py_max (l : list R) : option R :=
  match l with
  | [] => None
  | x :: l => Some (foldl Rmax x l)
  end.

(** The strategies below keep their observations in their own state; a
    method returns the new state.  A result of [is_interested] counts by
    its truth value, as [assess_candidates] reads it: the [None] of a
    branch without [return] is [false]. *)
Module HR.

Record t := mk {
  is_premium : bool;
  estimated_daily_candidates : Z;
  default_rejection_threshold : R;
  observed_values : list R }.

Definition init (estimated_daily_candidates : Z)
    (default_rejection_threshold : R) : t :=
  mk false estimated_daily_candidates default_rejection_threshold [].

Definition set_observed_values (s : t) (l : list R) : t :=
  mk (is_premium s) (estimated_daily_candidates s)
    (default_rejection_threshold s) l.

(** The first statement of [is_interested]: the strategy of a premium
    agent doubles its number of daily candidates, once. *)
Definition upgrade {S} (s : t) (agent : Agent.t S) : t :=
  if Agent.is_premium agent && negb (is_premium s)
  then mk true (estimated_daily_candidates s * 2)
         (default_rejection_threshold s) (observed_values s)
  else s.

(** [int(default_rejection_threshold * 0.01 * estimated_daily_candidates)] *)
Definition rejection_count (s : t) : Z :=
  py_int (default_rejection_threshold s * (1 / 100)
          * IZR (estimated_daily_candidates s)).

Definition is_interested {S} (s : t) (agent : Agent.t S)
    (candidate_details : Agent.details) : option (bool * t) :=
  let s := upgrade s agent in
  if bool_decide (Z.of_nat (length (observed_values s))
                  >= rejection_count s)%Z
  then
    highest ← py_max (observed_values s);
    Some (bool_decide
            (Agent.d_attractiveness candidate_details > highest)%R, s)
  else
    Some (false,
          set_observed_values s
            (observed_values s
             ++ [Agent.d_attractiveness candidate_details])).

Definition new_round_callback {S} (s : t) (agent : Agent.t S) : t :=
  set_observed_values s [].

(** The verdicts of the strategy on the candidates of a list, asked one
    after the other. *)
Fixpoint verdicts {S} (s : t) (agent : Agent.t S)
    (candidates_details : list Agent.details) : option (list bool * t) :=
  match candidates_details with
  | [] => Some ([], s)
  | candidate_details :: rest =>
      '(interested, s) ← is_interested s agent candidate_details;
      '(l, s) ← verdicts s agent rest;
      Some (interested :: l, s)
  end.

End HR.

Module AmbitiousHR.

Record t := mk {
  is_premium : bool;
  estimated_daily_candidates : Z;
  default_rejection_threshold : R;
  observed_values : list R }.

Definition init (estimated_daily_candidates : Z)
    (default_rejection_threshold : R) : t :=
  mk false estimated_daily_candidates default_rejection_threshold [].

Definition set_observed_values (s : t) (l : list R) : t :=
  mk (is_premium s) (estimated_daily_candidates s)
    (default_rejection_threshold s) l.

Definition upgrade {S} (s : t) (agent : Agent.t S) : t :=
  if Agent.is_premium agent && negb (is_premium s)
  then mk true (estimated_daily_candidates s * 2)
         (default_rejection_threshold s) (observed_values s)
  else s.

Definition rejection_count (s : t) : Z :=
  py_int (default_rejection_threshold s * (1 / 100)
          * IZR (estimated_daily_candidates s)).

Definition is_interested {S} (s : t) (agent : Agent.t S)
    (candidate_details : Agent.details) : option (bool * t) :=
  let s := upgrade s agent in
  let s :=
    set_observed_values s
      (observed_values s ++ [Agent.d_attractiveness candidate_details]) in
  if bool_decide (Z.of_nat (length (observed_values s))
                  > rejection_count s)%Z
  then
    highest ← py_max (observed_values s);
    Some (bool_decide
            (Agent.d_attractiveness candidate_details > highest)%R, s)
  else Some (false, s).

(** The base class: the hook does nothing. *)
Definition new_round_callback {S} (s : t) (agent : Agent.t S) : t := s.

End AmbitiousHR.

Module Picky.

Record t := mk {
  percentile_threshold : R;
  observed_values : list R }.

Definition init (percentile_threshold : R) : t :=
  mk percentile_threshold [].

Definition is_interested {S} (s : t) (agent : Agent.t S)
    (candidate_details : Agent.details) : option (bool * t) :=
  let s :=
    mk (percentile_threshold s)
      (observed_values s ++ [Agent.d_attractiveness candidate_details]) in
  bar ← np_percentile (observed_values s) (percentile_threshold s);
  Some (bool_decide
          (bar <= Agent.d_attractiveness candidate_details)%R, s).

End Picky.

(** ** Runs of the random matcher *)

(** The ids of a population as the matchers require them: the id of an agent
    is its position in the list. *)
Definition dense_ids {S} (agents : list (Agent.t S)) : Prop :=
  ∀ i agent, agents !! i = Some agent → Agent.id agent = i.

(** An agent that has not met anyone yet. *)
Definition fresh {S} (agent : Agent.t S) : Prop :=
  Agent.liked agent = ∅ ∧ Agent.passed agent = ∅ ∧ Agent.matched agent = ∅
  ∧ Agent.match_count agent = 0.

(** The calls [agent.get_matched(matched_agent)] that [process_matches]
    makes for a list of pending pairs: the ids of the receiver and of the
    argument. *)
Definition get_matched_calls (pairs : list (nat * nat)) : list (nat * nat) :=
  pairs ≫= λ p, [(p.1, p.2); (p.2, p.1)].

Definition occurrences (p : nat * nat) (l : list (nat * nat)) : nat :=
  length (filter (λ q, q = p) l).

Section runs.
Context {S : Type} `{!Agent.Strategy S}.
Import RandomAgentMatcher.

(** A call of the driver.  The label of a round is the list of the pairs
    that wait in [waiting_matches] when [process_matches] starts, in the
    order in which it walks them: the matches registered by the round. *)
Inductive step (m : t S) : list (nat * nat) → t S → Prop :=
  | step_round c m1 m' :
      choices_ok c →
      resolve_likes c m = Some m1 →
      run_new_round c m = Some m' →
      step m (pair_order c (waiting_matches m1)) m'
  | step_eliminate bottom_threshold m' :
      eliminate_bottom bottom_threshold m = Some m' →
      step m [] m'.

(** A sequence of calls, with all the matches registered on the way. *)
Inductive run (m0 : t S) : list (nat * nat) → t S → Prop :=
  | run_start : run m0 [] m0
  | run_next registered m new m' :
      run m0 registered m →
      step m new m' →
      run m0 (registered ++ new) m'.

(** The state in which [run_new_round] enters its loop. *)
Definition round_start (m : t S) : collected :=
  (set_round m (round m + 1), [], []).

End runs.

(** ** A small population, for the examples *)

(** The strategy that likes every candidate. *)
#[export] Instance eager : Agent.Strategy unit := {|
  Agent.is_interested _ _ _ := (true, tt);
  Agent.match_callback _ _ _ := tt;
  Agent.new_round_callback _ _ := tt |}.

(** The calculator of the docstring of [CompatibilityCalculator]. *)
Definition calculator : CompatibilityCalculator.t :=
  CompatibilityCalculator.mk [1 / 2; 1 / 2]%R
    [ {[ true := (3 / 4)%R; false := (5 / 4)%R ]};
      {[ true := (5 / 4)%R; false := (3 / 4)%R ]} ].

Definition person (id : nat) (is_impostor : bool) : Agent.t unit :=
  Agent.init id ["a"] ["b"] 3 tt calculator "Male" 3 3 false is_impostor.

(** The draws that take the first elements and keep every order. *)
Definition first_choices : Choices :=
  mk_choices (λ _ population k, take k population) (λ l, l) elements elements.

(** The verdicts that the loop of [assess_candidates] obtains from the
    strategy, with the candidate of each, in the order of the calls of
    [is_interested]. *)
Fixpoint consulted {S} `{!Agent.Strategy S} (a : Agent.t S)
    (candidates_details : list Agent.details) : list (Agent.details * bool) :=
  match candidates_details with
  | [] => []
  | candidate_details :: rest =>
      if bool_decide (Agent.remaining_likes a < 1)%Z then []
      else
        let '(interested, s) :=
          Agent.is_interested (Agent.strategy a) a candidate_details in
        let a := Agent.set_strategy a s in
        (candidate_details, interested)
          :: consulted
               (if interested
                then Agent.set_remaining_likes a (Agent.remaining_likes a - 1)
                else a)
               rest
  end.

(** The ids of the candidates that got the verdict [v]. *)
Definition verdict_ids (v : bool) (l : list (Agent.details * bool))
    : list nat :=
  (λ x, Agent.d_id x.1) <$> filter (λ x, x.2 = v) l.

(** The fields that the loop of [assess_candidates] leaves alone. *)
Definition same_record {S} (a a' : Agent.t S) : Prop :=
  Agent.id a' = Agent.id a
  ∧ Agent.like_allowance a' = Agent.like_allowance a
  ∧ Agent.liked a' = Agent.liked a
  ∧ Agent.passed a' = Agent.passed a
  ∧ Agent.matched a' = Agent.matched a
  ∧ Agent.match_count a' = Agent.match_count a
  ∧ Agent.happiness a' = Agent.happiness a
  ∧ Agent.history a' = Agent.history a
  ∧ Agent.get_public_details a' = Agent.get_public_details a.

#[export] Instance no_rating_change : TrueSkill := {|
  rate_1vs1 winner loser _ := (winner, loser) |}.

(** An agent with a given accumulated happiness. *)
Definition contented (id : nat) (happiness : R) : Agent.t unit :=
  Agent.set_match (person id false) ∅ 0 happiness.

(** Six agents with the happiness values 0, 0, 1, 1, 2, 2. *)
Definition six_agents : list (Agent.t unit) :=
  [contented 0 0; contented 1 0; contented 2 1; contented 3 1;
   contented 4 2; contented 5 2].

(** The distance between the rating mean of the agent [x] and a mean. *)
Definition rating_distance (ratings : list Rating) (agent_rating : R)
    (x : nat) : R :=
  match ratings !! x with
  | Some rating => Rabs (mu rating - agent_rating)
  | None => 0
  end.

(** An agent that differs from another one by its history only. *)
Definition same_but_history {S} (a a' : Agent.t S) : Prop :=
  Agent.mk (Agent.id a') (Agent.gender a') (Agent.attractiveness a')
    (Agent.estimated_attractiveness a') (Agent.is_premium a')
    (Agent.is_impostor a') (Agent.observable_attributes a')
    (Agent.hidden_attributes a') (Agent.like_allowance a')
    (Agent.remaining_likes a') (Agent.strategy a')
    (Agent.compatibility_calculator a') (Agent.liked a') (Agent.passed a')
    (Agent.matched a') (Agent.match_count a') (Agent.happiness a')
    (Agent.history a) = a.

(** A ranked matcher that differs from another one by the logs only: the
    histories of the agents and the rating logs. *)
Definition same_but_logs {S} (m m' : RankedAgentMatcher.t S) : Prop :=
  Forall2 same_but_history (RankedAgentMatcher.agents m)
    (RankedAgentMatcher.agents m')
  ∧ dom (RankedAgentMatcher.rating_logs m')
    = dom (RankedAgentMatcher.rating_logs m)
  ∧ RankedAgentMatcher.set_rating_logs
      (RankedAgentMatcher.set_agents m' (RankedAgentMatcher.agents m))
      (RankedAgentMatcher.rating_logs m) = m.

(** A random matcher whose only agent is eliminated, and a ranked one. *)
Definition ghost_town : RandomAgentMatcher.t unit :=
  RandomAgentMatcher.mk [person 0 false] {[0]} 0 (dok_matrix.new (1, 1)) 3
    calculator ∅ {[0]}.

Definition ranked_ghost_town : RankedAgentMatcher.t unit :=
  RankedAgentMatcher.mk [person 0 false] {[0]} 0 (dok_matrix.new (1, 1))
    [default_rating] 3 calculator ∅ {[0]} {[0 := ∅]} true false true true
    true.

(** The bookkeeping of the likes of an agent is the same in two states. *)
Definition same_bookkeeping {S} (a a' : Agent.t S) : Prop :=
  Agent.id a' = Agent.id a
  ∧ Agent.like_allowance a' = Agent.like_allowance a
  ∧ Agent.remaining_likes a' = Agent.remaining_likes a
  ∧ Agent.liked a' = Agent.liked a
  ∧ Agent.passed a' = Agent.passed a
  ∧ Agent.get_public_details a' = Agent.get_public_details a.

(** A random matcher that differs from another one by its agents only. *)
Definition same_but_agents {S} (m m' : RandomAgentMatcher.t S) : Prop :=
  RandomAgentMatcher.mk (RandomAgentMatcher.agents m)
    (RandomAgentMatcher.agent_ids m') (RandomAgentMatcher.round m')
    (RandomAgentMatcher.matrix m') (RandomAgentMatcher.recommendation_limit m')
    (RandomAgentMatcher.compatibility_calculator m')
    (RandomAgentMatcher.waiting_matches m')
    (RandomAgentMatcher.eliminated_agents m') = m.

(** The agent [a], at position [i] when the loop of a round starts in [m],
    is served by the loop: it is replenished, shown candidates and assessed;
    [a'] is the agent after that, [l] and [p] its likes and passes. *)
Definition served {S} `{!Agent.Strategy S} (c : Choices)
    (m : RandomAgentMatcher.t S) (i : nat) (a a' : Agent.t S)
    (l p : gset nat) : Prop :=
  ∃ mi candidates_details,
    same_but_agents m mi
    ∧ Agent.id <$> RandomAgentMatcher.agents mi
      = Agent.id <$> RandomAgentMatcher.agents m
    ∧ RandomAgentMatcher.recommend c i mi (Agent.replenish a)
      = Some candidates_details
    ∧ Agent.assess_candidates (Agent.replenish a) candidates_details
      = (a', (l, p)).

(** The likes (or passes) of a round in the order in which [process_likes]
    (or [process_passes]) walks them. *)
Definition walk (c : Choices) (d : list (nat * gset nat)) : list (nat * nat) :=
  d ≫= λ x, pair x.1 <$> set_order c x.2.

(** [a] likes [b] and [b] likes [a], in the matrix. *)
Definition mutual (x : dok_matrix.t) (i j : nat) : Prop :=
  dok_matrix.cells x !! (i, j) = Some 1%Z
  ∧ dok_matrix.cells x !! (j, i) = Some 1%Z.

(** What holds between two rounds of a run of the random matcher that has
    registered the matches [registered] so far. *)
Record consistent {S} (m : RandomAgentMatcher.t S)
    (registered : list (nat * nat)) : Prop := {
  consistent_dense : dense_ids (RandomAgentMatcher.agents m);
  consistent_ids : ∀ x,
    x ∈ RandomAgentMatcher.agent_ids m
    ↔ x < length (RandomAgentMatcher.agents m);
  consistent_waiting : RandomAgentMatcher.waiting_matches m = ∅;
  consistent_cells : ∀ i j,
    dok_matrix.cells (RandomAgentMatcher.matrix m) !! (i, j) = Some 1%Z
    ↔ ∃ a, RandomAgentMatcher.agents m !! i = Some a ∧ j ∈ Agent.liked a;
  consistent_sorted : ∀ p, p ∈ registered → p.1 ≤ p.2;
  consistent_registered : ∀ i j, i < j →
    occurrences (i, j) registered
    = if decide (mutual (RandomAgentMatcher.matrix m) i j) then 1 else 0;
  consistent_matched : ∀ i a j,
    RandomAgentMatcher.agents m !! i = Some a →
    j ∈ Agent.matched a ↔ (i, j) ∈ get_matched_calls registered }.

(** The invariant of the loop of [run_new_round], started in [m], after the
    first [k] agents. *)
Definition collect_inv {S} `{!Agent.Strategy S} (c : Choices)
    (m : RandomAgentMatcher.t S) (k : nat)
    (acc : RandomAgentMatcher.collected) : Prop :=
  let '(mk, round_likes, round_passes) := acc in
  same_but_agents m mk
  ∧ Agent.id <$> RandomAgentMatcher.agents mk
    = Agent.id <$> RandomAgentMatcher.agents m
  ∧ (∀ i, k ≤ i →
       RandomAgentMatcher.agents mk !! i = RandomAgentMatcher.agents m !! i)
  ∧ (∀ i a, i < k → RandomAgentMatcher.agents m !! i = Some a →
       (Agent.id a ∈ RandomAgentMatcher.eliminated_agents m
        ∧ RandomAgentMatcher.agents mk !! i = Some a)
       ∨ ((Agent.id a ∉ RandomAgentMatcher.eliminated_agents m)
          ∧ ∃ a' l p,
              RandomAgentMatcher.agents mk !! i = Some a'
              ∧ served c m i a a' l p
              ∧ (dense_ids (RandomAgentMatcher.agents m) →
                 (i, l) ∈ round_likes ∧ (i, p) ∈ round_passes)))
  ∧ (dense_ids (RandomAgentMatcher.agents m) →
     NoDup round_likes.*1 ∧ NoDup round_passes.*1
     ∧ ∀ x, x ∈ round_likes.*1 ∨ x ∈ round_passes.*1 →
         x < k ∧ ∃ a, RandomAgentMatcher.agents m !! x = Some a
                      ∧ Agent.id a ∉ RandomAgentMatcher.eliminated_agents m).

(** The fields that [process_likes] and [process_passes] leave alone. *)
Definition same_population {S} (m m' : RandomAgentMatcher.t S) : Prop :=
  RandomAgentMatcher.agents m' = RandomAgentMatcher.agents m
  ∧ RandomAgentMatcher.agent_ids m' = RandomAgentMatcher.agent_ids m
  ∧ RandomAgentMatcher.round m' = RandomAgentMatcher.round m
  ∧ RandomAgentMatcher.eliminated_agents m'
    = RandomAgentMatcher.eliminated_agents m
  ∧ RandomAgentMatcher.recommendation_limit m'
    = RandomAgentMatcher.recommendation_limit m.

(** Two agents that like everybody, before and after their first round. *)
Definition two_people : list (Agent.t unit) :=
  [person 0 false; person 1 false].

Definition date_start : RandomAgentMatcher.t unit :=
  RandomAgentMatcher.mk two_people {[0; 1]} 0 (dok_matrix.new (2, 2)) 3
    calculator ∅ ∅.

Definition date_likes : RandomAgentMatcher.t unit :=
  default date_start (RandomAgentMatcher.resolve_likes first_choices date_start).

Definition date_end : RandomAgentMatcher.t unit :=
  default date_start (RandomAgentMatcher.run_new_round first_choices date_start).

(** A ranked matcher with three agents and three different ratings. *)
Definition three_ratings : RankedAgentMatcher.t unit :=
  RankedAgentMatcher.mk [person 0 false; person 1 false; person 2 false]
    {[0; 1; 2]} 0 (dok_matrix.new (3, 3))
    [mk_rating 25 8; mk_rating 30 8; mk_rating 10 8] 1 calculator ∅ ∅
    {[0 := ∅; 1 := ∅; 2 := ∅]} true false true true true.

(** A random matcher with the six agents, nobody eliminated. *)
Definition six_matcher : RandomAgentMatcher.t unit :=
  RandomAgentMatcher.mk six_agents {[0; 1; 2; 3; 4; 5]} 0
    (dok_matrix.new (6, 6)) 3 calculator ∅ ∅.

(** The turn of the agent at position [i] in the loop of [run_new_round]
    of the random matcher, from the state [acc] of the loop to the state
    [acc']: the agent is in the game, its allowance is replenished, the
    list [candidates_details] is recommended to it and handed to
    [assess_candidates], and the verdicts are stored. *)
Definition shown {S} `{!Agent.Strategy S} (c : Choices)
    (acc : RandomAgentMatcher.collected) (i : nat)
    (candidates_details : list Agent.details)
    (acc' : RandomAgentMatcher.collected) : Prop :=
  ∃ agent a' l p,
    RandomAgentMatcher.agents acc.1.1 !! i = Some agent
    ∧ (Agent.id agent ∉ RandomAgentMatcher.eliminated_agents acc.1.1)
    ∧ RandomAgentMatcher.recommend c i
        (RandomAgentMatcher.set_agents acc.1.1
           (<[i := Agent.replenish agent]>
              (RandomAgentMatcher.agents acc.1.1)))
        (Agent.replenish agent) = Some candidates_details
    ∧ Agent.assess_candidates (Agent.replenish agent) candidates_details
      = (a', (l, p))
    ∧ acc' = (RandomAgentMatcher.set_agents acc.1.1
                (<[i := a']> (RandomAgentMatcher.agents acc.1.1)),
              dict_set (Agent.id a') l acc.1.2,
              dict_set (Agent.id a') p acc.2).

(** The turn of an eliminated agent: it is shown nothing, and nothing
    changes. *)
Definition skipped {S} (acc : RandomAgentMatcher.collected) (i : nat)
    (acc' : @RandomAgentMatcher.collected S) : Prop :=
  ∃ agent,
    RandomAgentMatcher.agents acc.1.1 !! i = Some agent
    ∧ Agent.id agent ∈ RandomAgentMatcher.eliminated_agents acc.1.1
    ∧ acc' = acc.

(** The same turns in the loop of the ranked matcher. *)
Definition ranked_shown {S} `{!Agent.Strategy S} `{!TrueSkill} (c : Choices)
    (acc : RankedAgentMatcher.collected) (i : nat)
    (candidates_details : list Agent.details)
    (acc' : RankedAgentMatcher.collected) : Prop :=
  ∃ agent a' l p,
    RankedAgentMatcher.agents acc.1.1 !! i = Some agent
    ∧ (Agent.id agent ∉ RankedAgentMatcher.eliminated_agents acc.1.1)
    ∧ RankedAgentMatcher.recommend c i
        (RankedAgentMatcher.set_agents acc.1.1
           (<[i := Agent.replenish agent]>
              (RankedAgentMatcher.agents acc.1.1)))
        (Agent.replenish agent) = Some candidates_details
    ∧ Agent.assess_candidates (Agent.replenish agent) candidates_details
      = (a', (l, p))
    ∧ acc' = (RankedAgentMatcher.set_agents acc.1.1
                (<[i := a']> (RankedAgentMatcher.agents acc.1.1)),
              dict_set (Agent.id a') l acc.1.2,
              dict_set (Agent.id a') p acc.2).

Definition ranked_skipped {S} (acc : RankedAgentMatcher.collected) (i : nat)
    (acc' : @RankedAgentMatcher.collected S) : Prop :=
  ∃ agent,
    RankedAgentMatcher.agents acc.1.1 !! i = Some agent
    ∧ Agent.id agent ∈ RankedAgentMatcher.eliminated_agents acc.1.1
    ∧ acc' = acc.

(** The number of the calls of [get_matched] on the agent at position
    [i], among the calls that [process_matches] makes for a list of
    pairs. *)
Definition calls_on (i : nat) (pairs : list (nat * nat)) : nat :=
  length (filter (λ q, q.1 = i) (get_matched_calls pairs)).

(** What holds, beside [consistent], between two rounds of a run: no agent
    likes itself, the registered pairs have two distinct members, and the
    counter [match_count] of every agent is the number of the calls of
    [get_matched] on it. *)
Record counted {S} (m : RandomAgentMatcher.t S)
    (registered : list (nat * nat)) : Prop := {
  counted_self : ∀ i a,
    RandomAgentMatcher.agents m !! i = Some a → i ∉ Agent.liked a;
  counted_strict : ∀ p, p ∈ registered → p.1 < p.2;
  counted_count : ∀ i a,
    RandomAgentMatcher.agents m !! i = Some a →
    Agent.match_count a = calls_on i registered }.

(** The entry of the rating logs of an id after [log_agents] has logged
    the agents of a list: the rating of the id is logged under the round
    when the id is the id of one of the agents. *)
Definition logged_rating {S} (m : RankedAgentMatcher.t S)
    (logged : list (Agent.t S)) (x : nat) : option (gmap nat Rating) :=
  if decide (x ∈ Agent.id <$> logged) then
    log ← RankedAgentMatcher.rating_logs m !! x;
    rating ← RankedAgentMatcher.ratings m !! x;
    Some (<[RankedAgentMatcher.round m := rating]> log)
  else RankedAgentMatcher.rating_logs m !! x.

(** * Properties *)

Section agent_facts.
Context {S : Type} `{!Agent.Strategy S}.
Implicit Types (a b : Agent.t S).

(** C1, as the code has it: the utility is 0 exactly when a genuine agent
    evaluates an impostor; an impostor evaluating anyone, and a genuine
    agent evaluating a genuine one, get the utility formula. *)
Theorem calculate_happiness_impostor a b :
  Agent.calculate_happiness a b =
    if negb (Agent.is_impostor a) && Agent.is_impostor b
    then Some 0%R else Agent.match_happiness a b.
Proof.
  unfold Agent.calculate_happiness.
  destruct (Agent.is_impostor a), (Agent.is_impostor b); reflexivity.
Qed.

End agent_facts.

Lemma Rpower_above_one (x y : R) : (1 < x)%R → (0 < y)%R → (1 < Rpower x y)%R.
Proof.
  intros Hx Hy. unfold Rpower.
  assert (0 < ln x)%R as Hln by (rewrite <- ln_1; apply ln_increasing; lra).
  assert (0 < y * ln x)%R as Hpos by (apply Rmult_lt_0_compat; lra).
  assert (y * ln x ≠ 0)%R as Hne by lra.
  pose proof (exp_ineq1 _ Hne). lra.
Qed.

Lemma person_compatibility (i j : nat) (x y : bool) :
  Agent.match_happiness (person i x) (person j y)
  = Some (Rpower (3 * (0 + 3 / 4 * (1 / 2)) + 2) (9 / 10) - 1)%R.
Proof. reflexivity. Qed.

(** C1 fails as stated: an impostor that evaluates a genuine agent does not
    get 0. *)
Lemma calculate_happiness_impostor_counterexample :
  Agent.is_impostor (person 0 true) = true
  ∧ Agent.is_impostor (person 1 false) = false
  ∧ Agent.calculate_happiness (person 0 true) (person 1 false) ≠ Some 0%R.
Proof.
  split; [reflexivity|]. split; [reflexivity|].
  rewrite calculate_happiness_impostor, person_compatibility. simpl.
  intros [= H].
  pose proof (Rpower_above_one (3 * (0 + 3 / 4 * (1 / 2)) + 2) (9 / 10)) as Hp.
  lra.
Qed.

(** ** Construction of a matcher *)

(** C10, as the code has it: the constructors validate nothing.  Whatever the
    ids, they return a matcher that holds the list as given, the set of its
    ids and an empty square matrix with one row per distinct id. *)
Theorem init_accepts_any_ids {S} `{!Agent.Strategy S} `{!TrueSkill}
    (agents : list (Agent.t S)) (limit : nat)
    (calc : CompatibilityCalculator.t) (b1 b2 b3 b4 b5 : bool) :
  let ids : gset nat := list_to_set (Agent.id <$> agents) in
  (∃ m, RandomAgentMatcher.init agents limit calc = Some m
        ∧ RandomAgentMatcher.agents m = agents
        ∧ RandomAgentMatcher.agent_ids m = ids
        ∧ RandomAgentMatcher.round m = 0
        ∧ RandomAgentMatcher.matrix m = dok_matrix.new (size ids, size ids)
        ∧ RandomAgentMatcher.eliminated_agents m = ∅)
  ∧ (∃ m, RankedAgentMatcher.init agents limit calc b1 b2 b3 b4 b5 = Some m
          ∧ RankedAgentMatcher.agents m = agents
          ∧ RankedAgentMatcher.agent_ids m = ids
          ∧ RankedAgentMatcher.round m = 0
          ∧ RankedAgentMatcher.matrix m = dok_matrix.new (size ids, size ids)
          ∧ RankedAgentMatcher.ratings m = replicate (size ids) default_rating
          ∧ RankedAgentMatcher.eliminated_agents m = ∅).
Proof. intros ids. split; eexists; (split; [reflexivity|]); done. Qed.

(** C10 fails as stated: with the ids [1, 2], and with the ids [0, 5], both
    constructors return a matcher.  In the second one the matrix has two
    rows, so that the cell of agent 5 is out of it. *)
Lemma init_accepts_any_ids_counterexample :
  ¬ dense_ids [person 1 false; person 2 false]
  ∧ ¬ dense_ids [person 0 false; person 5 false]
  ∧ is_Some (RandomAgentMatcher.init [person 1 false; person 2 false] 3
               calculator)
  ∧ is_Some (RankedAgentMatcher.init [person 1 false; person 2 false] 3
               calculator true false true true true)
  ∧ is_Some (RankedAgentMatcher.init [person 0 false; person 5 false] 3
               calculator true false true true true)
  ∧ ∃ m, RandomAgentMatcher.init [person 0 false; person 5 false] 3
           calculator = Some m
         ∧ dok_matrix.shape (RandomAgentMatcher.matrix m) = (2, 2)
         ∧ RandomAgentMatcher.like 0 m 5 = None.
Proof.
  split; [intros H; by specialize (H 0 _ eq_refl)|].
  split; [intros H; by specialize (H 1 _ eq_refl)|].
  repeat (split; [by eexists|]).
  eexists. split; [reflexivity|]. split; by vm_compute.
Qed.

(** ** Assessment of the candidates *)

Lemma size_list_to_set_le (xs : list nat) :
  size (list_to_set xs : gset nat) ≤ length xs.
Proof.
  induction xs as [|x xs IH]; [done|]. simpl.
  rewrite size_union_alt, size_singleton.
  assert (size (list_to_set xs ∖ {[x]} : gset nat)
          ≤ size (list_to_set xs : gset nat))
    by (apply subseteq_size; set_solver).
  lia.
Qed.

Section assess_facts.
Context {S : Type} `{!Agent.Strategy S}.
Implicit Types (a : Agent.t S) (cs : list Agent.details) (l p : gset nat).

Lemma same_record_refl a : same_record a a.
Proof. by repeat split. Qed.

Lemma same_record_trans a1 a2 a3 :
  same_record a1 a2 → same_record a2 a3 → same_record a1 a3.
Proof.
  unfold same_record. intros (?&?&?&?&?&?&?&?&?) (?&?&?&?&?&?&?&?&?).
  repeat split; congruence.
Qed.

Lemma verdict_ids_cons (v b : bool) (d : Agent.details) ds :
  verdict_ids v ((d, b) :: ds)
  = if decide (b = v) then Agent.d_id d :: verdict_ids v ds
    else verdict_ids v ds.
Proof.
  unfold verdict_ids. rewrite filter_cons. simpl.
  by destruct (decide (b = v)).
Qed.

Lemma assess_loop_spec cs : ∀ a l p a' l' p',
  Agent.assess_loop a cs l p = (a', l', p') →
  let ds := consulted a cs in
  same_record a a'
  ∧ l' = l ∪ list_to_set (verdict_ids true ds)
  ∧ p' = p ∪ list_to_set (verdict_ids false ds)
  ∧ Agent.remaining_likes a'
    = (Agent.remaining_likes a - Z.of_nat (length (verdict_ids true ds)))%Z
  ∧ ds.*1 = take (length ds) cs
  ∧ (length ds < length cs → (Agent.remaining_likes a' < 1)%Z)
  ∧ (0 ≤ Agent.remaining_likes a → 0 ≤ Agent.remaining_likes a')%Z.
Proof.
  assert (∀ a l p (cs0 : list Agent.details),
    (cs0 ≠ [] → Agent.remaining_likes a < 1)%Z →
    same_record a a
    ∧ l = l ∪ list_to_set (verdict_ids true [])
    ∧ p = p ∪ list_to_set (verdict_ids false [])
    ∧ Agent.remaining_likes a
      = (Agent.remaining_likes a
         - Z.of_nat (length (verdict_ids true [])))%Z
    ∧ ([] : list (Agent.details * bool)).*1 = take 0 cs0
    ∧ (0 < length cs0 → (Agent.remaining_likes a < 1)%Z)
    ∧ (0 ≤ Agent.remaining_likes a → 0 ≤ Agent.remaining_likes a)%Z)
    as Hstop0.
  { intros a l p cs0 Hcs. split; [apply same_record_refl|].
    unfold verdict_ids; simpl.
    rewrite !(right_id_L ∅ (∪)). repeat split; [lia| |done].
    intros Hlen. apply Hcs. intros ->. simpl in Hlen. lia. }
  induction cs as [|c cs IH]; intros a l p a' l' p' Heq ds; subst ds.
  - simpl in Heq. injection Heq as <- <- <-. by apply Hstop0.
  - simpl in Heq. simpl consulted.
    case_bool_decide as Hrem.
    { injection Heq as <- <- <-. by apply Hstop0. }
    destruct (Agent.is_interested (Agent.strategy a) a c)
      as [interested s] eqn:Hint.
    rewrite verdict_ids_cons, verdict_ids_cons.
    destruct interested.
    + apply IH in Heq as (Hsame & -> & -> & Hr & Hpre & Hstop & Hpos).
      rewrite decide_True by done. rewrite decide_False by done.
      split; [exact Hsame|]. simpl in Hr.
      split; [simpl; by rewrite (assoc_L (∪))|]. split; [done|].
      split; [simpl length; lia|]. split; [simpl; by f_equal|].
      split; [simpl; intros; apply Hstop; lia|simpl in Hpos; lia].
    + apply IH in Heq as (Hsame & -> & -> & Hr & Hpre & Hstop & Hpos).
      rewrite decide_False by done. rewrite decide_True by done.
      split; [exact Hsame|]. simpl in Hr.
      split; [done|]. split; [simpl; by rewrite (assoc_L (∪))|].
      split; [lia|]. split; [simpl; by f_equal|].
      split; [simpl; intros; apply Hstop; lia|simpl in Hpos; lia].
Qed.

(** The candidates after the last one consulted have no influence. *)
Lemma assess_loop_prefix cs : ∀ a l p,
  Agent.assess_loop a (take (length (consulted a cs)) cs) l p
  = Agent.assess_loop a cs l p.
Proof.
  induction cs as [|c cs IH]; intros a l p; simpl; [done|].
  case_bool_decide; simpl; [done|].
  destruct (Agent.is_interested (Agent.strategy a) a c) as [[] s] eqn:Hint;
    simpl; rewrite bool_decide_eq_false_2 by done; rewrite Hint;
    apply IH.
Qed.

Lemma verdict_ids_subseteq v cs a x :
  x ∈ verdict_ids v (consulted a cs) →
  x ∈ Agent.d_id <$> take (length (consulted a cs)) cs.
Proof.
  intros Hx. unfold verdict_ids in Hx.
  apply list_elem_of_fmap in Hx as (d & -> & Hd).
  apply list_elem_of_filter in Hd as [_ Hd].
  destruct (Agent.assess_loop a cs ∅ ∅) as [[a' l'] p'] eqn:Heq.
  apply assess_loop_spec in Heq as (_ & _ & _ & _ & Hpre & _).
  rewrite <- Hpre. apply list_elem_of_fmap. exists d.1. split; [done|].
  apply list_elem_of_fmap. by exists d.
Qed.

(** With distinct candidates, no id gets both verdicts. *)
Lemma verdict_ids_disjoint cs : ∀ a x,
  NoDup (Agent.d_id <$> cs) →
  x ∈ verdict_ids true (consulted a cs) →
  x ∈ verdict_ids false (consulted a cs) → False.
Proof.
  induction cs as [|c cs IH]; intros a x Hnd; simpl consulted.
  - by intros ?%elem_of_nil.
  - rewrite fmap_cons in Hnd. apply NoDup_cons in Hnd as [Hc Hnd].
    case_bool_decide; [by intros ?%elem_of_nil|].
    destruct (Agent.is_interested (Agent.strategy a) a c) as [b s].
    rewrite !verdict_ids_cons.
    assert (∀ v a0, Agent.d_id c ∉ verdict_ids v (consulted a0 cs))
      as Hfresh.
    { intros v a0 Hin. apply verdict_ids_subseteq in Hin. apply Hc.
      apply list_elem_of_fmap in Hin as (d & -> & Hd).
      apply list_elem_of_fmap. exists d. split; [done|].
      by eapply subseteq_take. }
    destruct b.
    + rewrite decide_True by done. rewrite decide_False by done.
      intros [-> |Ht]%elem_of_cons Hf; [by eapply Hfresh|by eapply IH].
    + rewrite decide_False by done. rewrite decide_True by done.
      intros Ht [-> |Hf]%elem_of_cons; [by eapply Hfresh|by eapply IH].
Qed.

End assess_facts.

Section assess_claims.
Context {S : Type} `{!Agent.Strategy S}.
Implicit Types (a : Agent.t S) (cs : list Agent.details).

Lemma assess_candidates_spec a cs a' l p :
  Agent.assess_candidates a cs = (a', (l, p)) →
  let ds := consulted a cs in
  Agent.id a' = Agent.id a
  ∧ Agent.like_allowance a' = Agent.like_allowance a
  ∧ Agent.liked a' = Agent.liked a ∪ l
  ∧ Agent.passed a' = Agent.passed a ∪ p
  ∧ Agent.matched a' = Agent.matched a
  ∧ Agent.match_count a' = Agent.match_count a
  ∧ Agent.get_public_details a' = Agent.get_public_details a
  ∧ l = list_to_set (verdict_ids true ds)
  ∧ p = list_to_set (verdict_ids false ds)
  ∧ Agent.remaining_likes a'
    = (Agent.remaining_likes a - Z.of_nat (length (verdict_ids true ds)))%Z
  ∧ (length ds < length cs → (Agent.remaining_likes a' < 1)%Z)
  ∧ (0 ≤ Agent.remaining_likes a → 0 ≤ Agent.remaining_likes a')%Z.
Proof.
  unfold Agent.assess_candidates.
  destruct (Agent.assess_loop a cs ∅ ∅) as [[a1 l1] p1] eqn:Heq.
  intros [= <- <- <-].
  apply assess_loop_spec in Heq
    as ((?&?&Hl&Hp&?&?&?&?&?) & -> & -> & ? & ? & ? & ?).
  simpl. rewrite Hl, Hp. repeat split; try done; set_solver.
Qed.

(** C6: the strategy is asked about a prefix of the list, in the order of
    the list; a like costs exactly one remaining like; the loop leaves the
    list early only with no like left; and the candidates from there on are
    not looked at, so that they are neither liked nor passed. *)
Theorem assess_candidates_stops_when_exhausted a cs :
  let ds := consulted a cs in
  let result := Agent.assess_candidates a cs in
  let a' := result.1 in
  let l := result.2.1 in
  let p := result.2.2 in
  ds.*1 = take (length ds) cs
  ∧ l = list_to_set (verdict_ids true ds)
  ∧ p = list_to_set (verdict_ids false ds)
  ∧ Agent.liked a' = Agent.liked a ∪ l
  ∧ Agent.passed a' = Agent.passed a ∪ p
  ∧ Agent.remaining_likes a'
    = (Agent.remaining_likes a - Z.of_nat (length (verdict_ids true ds)))%Z
  ∧ (length ds < length cs → (Agent.remaining_likes a' < 1)%Z)
  ∧ (length ds < length cs → (0 ≤ Agent.remaining_likes a)%Z →
     Agent.remaining_likes a' = 0%Z)
  ∧ Agent.assess_candidates a (take (length ds) cs) = result
  ∧ (NoDup (Agent.d_id <$> cs) →
     ∀ d, d ∈ drop (length ds) cs →
       (Agent.d_id d ∉ l) ∧ (Agent.d_id d ∉ p)
       ∧ (Agent.d_id d ∉ Agent.get_assessed_candidates a →
          Agent.d_id d ∉ Agent.get_assessed_candidates a')).
Proof.
  intros ds result a' l p.
  destruct result as [a1 [l1 p1]] eqn:Hres. subst result a' l p. simpl.
  pose proof Hres as Hspec.
  apply assess_candidates_spec in Hspec
    as (_&_&Hl&Hp&_&_&_&Hl1&Hp1&Hr&Hstop&Hpos).
  fold ds in Hl1, Hp1, Hr, Hstop.
  assert (ds.*1 = take (length ds) cs) as Hpre.
  { destruct (Agent.assess_loop a cs ∅ ∅) as [[a2 l2] p2] eqn:Heq.
    by apply assess_loop_spec in Heq as (_&_&_&_&?&_). }
  assert (NoDup (Agent.d_id <$> cs) → ∀ d, d ∈ drop (length ds) cs →
          (Agent.d_id d ∉ l1) ∧ Agent.d_id d ∉ p1) as Hrest.
  { intros Hnd d Hd. rewrite <- (take_drop (length ds) cs) in Hnd.
    rewrite fmap_app in Hnd. apply NoDup_app in Hnd as (_ & Hdis & _).
    assert (∀ v, Agent.d_id d ∉ verdict_ids v ds) as Hno.
    { intros v Hin. apply verdict_ids_subseteq in Hin.
      apply (Hdis _ Hin). apply list_elem_of_fmap. by exists d. }
    subst l1 p1. split; rewrite elem_of_list_to_set; apply Hno. }
  repeat split; try done.
  - intros. apply Hstop in H0. lia.
  - unfold Agent.assess_candidates in *. subst ds.
    by rewrite assess_loop_prefix.
  - by apply Hrest.
  - by apply Hrest.
  - intros Hnew. destruct (Hrest H0 d H1).
    unfold Agent.get_assessed_candidates in *. rewrite Hl, Hp. set_solver.
Qed.

(** C5 for one call: with a replenished allowance that is not negative, the
    remaining likes stay between 0 and the allowance, and the likes of the
    call are at most the allowance. *)
Lemma assess_candidates_allowance a cs a' l p :
  Agent.assess_candidates a cs = (a', (l, p)) →
  (0 ≤ Agent.remaining_likes a)%Z →
  (0 ≤ Agent.remaining_likes a' ≤ Agent.remaining_likes a)%Z
  ∧ (Z.of_nat (size l) ≤ Agent.remaining_likes a)%Z.
Proof.
  intros Heq Hpos.
  apply assess_candidates_spec in Heq
    as (_&_&_&_&_&_&_&->&_&Hr&_&Hpos').
  specialize (Hpos' Hpos).
  pose proof (size_list_to_set_le (verdict_ids true (consulted a cs))).
  lia.
Qed.

End assess_claims.

(** ** Generic facts on lists and loops *)

Lemma StronglySorted_sublist {A} (R : relation A) (l k : list A) :
  l `sublist_of` k → StronglySorted R k → StronglySorted R l.
Proof.
  induction 1 as [|x l k Hs IH|x l k Hs IH]; intros Hk.
  - constructor.
  - apply StronglySorted_inv in Hk as [Hk Hall].
    constructor; [by apply IH|].
    eapply Forall_forall. intros y Hy.
    eapply Forall_forall in Hall; [done|]. by eapply elem_of_sublist.
  - apply StronglySorted_inv in Hk as [Hk _]. by apply IH.
Qed.

Lemma filter_ext_elem {A} (P Q : A → Prop) `{!∀ x, Decision (P x)}
    `{!∀ x, Decision (Q x)} (l : list A) :
  (∀ x, x ∈ l → P x ↔ Q x) → filter P l = filter Q l.
Proof.
  induction l as [|x l IH]; intros Hext; [done|].
  rewrite !filter_cons.
  rewrite IH by (intros; apply Hext; by right).
  destruct (decide (P x)) as [HP|HP], (decide (Q x)) as [HQ|HQ]; try done;
    exfalso; apply (Hext x) in HP || apply HP, (Hext x); try done; by left.
Qed.

Lemma filter_all {A} (P : A → Prop) `{!∀ x, Decision (P x)} (l : list A) :
  (∀ x, x ∈ l → P x) → filter P l = l.
Proof.
  induction l as [|x l IH]; intros Hall; [done|].
  rewrite filter_cons, decide_True by (apply Hall; by left).
  rewrite IH; [done|]. intros; apply Hall; by right.
Qed.

Lemma filter_none {A} (P : A → Prop) `{!∀ x, Decision (P x)} (l : list A) :
  (∀ x, x ∈ l → ¬ P x) → filter P l = [].
Proof.
  induction l as [|x l IH]; intros Hall; [done|].
  rewrite filter_cons, decide_False by (apply Hall; by left).
  apply IH. intros; apply Hall; by right.
Qed.

Lemma NoDup_keys_unique {V} (d : list (nat * V)) (k : nat) (v1 v2 : V) :
  NoDup d.*1 → (k, v1) ∈ d → (k, v2) ∈ d → v1 = v2.
Proof.
  induction d as [|[k' v'] d IH]; simpl; intros Hnd H1 H2.
  - by apply elem_of_nil in H1.
  - apply NoDup_cons in Hnd as [Hk Hnd].
    assert (∀ v, (k', v) ∈ d → False) as Hfresh.
    { intros v Hv. apply Hk, list_elem_of_fmap. by exists (k', v). }
    apply elem_of_cons in H1 as [H1|H1]; apply elem_of_cons in H2 as [H2|H2].
    + congruence.
    + injection H1 as -> ->. by destruct (Hfresh v2).
    + injection H2 as -> ->. by destruct (Hfresh v1).
    + by apply IH.
Qed.

Lemma for_each_app {A B} (body : B → A → option B) (l k : list A) (acc : B) :
  for_each body (l ++ k) acc = for_each body l acc ≫= for_each body k.
Proof.
  revert acc. induction l as [|x l IH]; intros acc; simpl; [done|].
  destruct (body acc x); simpl; [apply IH|done].
Qed.

(** An invariant of a loop holds when the loop returns. *)
Lemma for_each_invariant {A B} (P : B → Prop) (body : B → A → option B)
    (l : list A) (acc acc' : B) :
  (∀ acc x acc', x ∈ l → P acc → body acc x = Some acc' → P acc') →
  P acc → for_each body l acc = Some acc' → P acc'.
Proof.
  revert acc. induction l as [|x l IH]; intros acc Hstep HP; simpl.
  - by intros [= <-].
  - destruct (body acc x) as [acc1|] eqn:Hb; simpl; [|done].
    apply IH.
    + intros ? y ? Hy. apply Hstep. by right.
    + eapply Hstep; [by left|done..].
Qed.

(** ** The candidates come in the order of the population *)

Section order_of_candidates.
Context {S : Type} `{!Agent.Strategy S} `{!TrueSkill}.

Lemma get_agents_by_ids_sorted (agents : list (Agent.t S)) (ids : list nat) :
  StronglySorted lt (Agent.id <$> agents) →
  StronglySorted lt
    (Agent.d_id
       <$> (Agent.get_public_details
              <$> AgentMatcher.get_agents_by_ids agents ids)).
Proof.
  intros Hs. rewrite <- list_fmap_compose.
  eapply StronglySorted_sublist; [|exact Hs].
  apply fmap_sublist, sublist_filter.
Qed.

End order_of_candidates.

(** ** Elimination of the bottom percentile *)

(** Sorting a list that is in order returns it. *)
Lemma sorted_ascending {A} (key : A → R) (l : list A) :
  StronglySorted (λ x y, key x <= key y)%R l → sorted key false l = l.
Proof.
  induction 1 as [|x l Hl IH Hx]; [done|].
  unfold sorted in *. simpl. rewrite IH.
  destruct l as [|y l]; [done|]. simpl.
  apply Forall_cons in Hx as [Hxy _].
  unfold goes_first. by rewrite bool_decide_eq_false_2 by lra.
Qed.

Lemma np_percentile_median_example :
  np_percentile [0; 0; 1; 1; 2; 2]%R 50 = Some 1%R.
Proof.
  unfold np_percentile. rewrite decide_True by lra.
  rewrite sorted_ascending
    by (repeat (constructor; [|repeat (constructor; [lra|]); constructor]);
        constructor).
  simpl.
  replace (Zfloor ((1 + 1 + 1 + 1 + 1) * (50 / 100))) with 2%Z
    by (symmetry; apply Zfloor_eq; simpl; lra).
  simpl. f_equal. lra.
Qed.

Section elimination.
Context {S : Type} `{!Agent.Strategy S}.
Implicit Types (m : RandomAgentMatcher.t S) (agent : Agent.t S).

(** The loop of [eliminate_bottom] adds the ids of the agents at or below
    the threshold, and nothing else. *)
Lemma eliminate_loop_spec (v : R) (l : list (Agent.t S)) : ∀ e x,
  x ∈ foldl (RandomAgentMatcher.eliminate v) e l
  ↔ x ∈ e ∨ ∃ agent, agent ∈ l ∧ Agent.id agent = x
                      ∧ (Agent.happiness agent <= v)%R.
Proof.
  induction l as [|a l IH]; intros e x; simpl.
  - split; [auto|]. intros [?|(?&?%elem_of_nil&_)]; done.
  - rewrite IH. unfold RandomAgentMatcher.eliminate.
    case_decide as Hle.
    + rewrite elem_of_union, elem_of_singleton. split.
      * intros [[?| ->]|(b&?&?&?)]; [by left|right..].
        -- exists a. split; [by left|done].
        -- exists b. split; [by right|done].
      * intros [?|(b&[-> |?]%elem_of_cons&?&?)]; [by left;left|..].
        -- by left; right.
        -- right. by exists b.
    + split.
      * intros [?|(b&?&?&?)]; [by left|right].
        exists b. split; [by right|done].
      * intros [?|(b&[-> |?]%elem_of_cons&?&?)]; [by left|done|].
        right. by exists b.
Qed.

(** C9: on six agents still in the game with the happiness values
    0, 0, 1, 1, 2, 2, the 50th percentile is 1, and [eliminate_bottom(50)]
    adds to the elimination set exactly the agents whose happiness is at
    most 1: all four of them. *)
Theorem eliminate_bottom_includes_ties m :
  Agent.happiness <$> RandomAgentMatcher.agents m = [0; 0; 1; 1; 2; 2]%R →
  (∀ agent, agent ∈ RandomAgentMatcher.agents m →
            Agent.id agent ∉ RandomAgentMatcher.eliminated_agents m) →
  np_percentile (Agent.happiness <$> RandomAgentMatcher.agents m) 50
  = Some 1%R
  ∧ ∃ m', RandomAgentMatcher.eliminate_bottom 50 m = Some m'
    ∧ RandomAgentMatcher.agents m' = RandomAgentMatcher.agents m
    ∧ (∀ x, x ∈ RandomAgentMatcher.eliminated_agents m'
            ↔ x ∈ RandomAgentMatcher.eliminated_agents m
              ∨ ∃ agent, agent ∈ RandomAgentMatcher.agents m
                         ∧ Agent.id agent = x
                         ∧ (Agent.happiness agent <= 1)%R)
    ∧ (∀ i agent, i < 4 → RandomAgentMatcher.agents m !! i = Some agent →
         Agent.id agent ∈ RandomAgentMatcher.eliminated_agents m').
Proof.
  intros Hh Hnone.
  assert (filter (λ agent, Agent.id agent
                    ∉ RandomAgentMatcher.eliminated_agents m)
            (RandomAgentMatcher.agents m) = RandomAgentMatcher.agents m)
    as Hfilter.
  { by apply filter_all. }
  rewrite Hh. split; [apply np_percentile_median_example|].
  unfold RandomAgentMatcher.eliminate_bottom.
  rewrite Hfilter, Hh, np_percentile_median_example. simpl.
  eexists. split; [reflexivity|]. simpl. split; [done|].
  split; [apply eliminate_loop_spec|].
  intros i agent Hi Hag. apply eliminate_loop_spec. right.
  exists agent. split; [by eapply list_elem_of_lookup_2|]. split; [done|].
  assert ((Agent.happiness <$> RandomAgentMatcher.agents m) !! i
          = Some (Agent.happiness agent)) as Hlk
    by (by rewrite list_lookup_fmap, Hag).
  rewrite Hh in Hlk.
  destruct i as [|[|[|[|i]]]]; simpl in Hlk; try lia;
    injection Hlk as <-; lra.
Qed.

End elimination.

(** ** The ranking of the candidates by the ranked matcher *)

Lemma sorted_insert_perm {A} (key : A → R) (reverse : bool) (x : A) l :
  sorted_insert key reverse x l ≡ₚ x :: l.
Proof.
  induction l as [|y l IH]; simpl; [done|].
  destruct (goes_first reverse (key y) (key x)); [|done].
  rewrite IH. apply Permutation_swap.
Qed.

Lemma sorted_perm {A} (key : A → R) (reverse : bool) (l : list A) :
  sorted key reverse l ≡ₚ l.
Proof.
  induction l as [|x l IH]; [done|].
  unfold sorted in *. simpl. by rewrite sorted_insert_perm, IH.
Qed.

Lemma sorted_insert_descending {A} (key : A → R) (x : A) (l : list A) :
  StronglySorted (λ x y, key y <= key x)%R l →
  StronglySorted (λ x y, key y <= key x)%R (sorted_insert key true x l).
Proof.
  induction 1 as [|y l Hl IH Hy]; simpl.
  - repeat constructor.
  - unfold goes_first. case_bool_decide as Hlt.
    + constructor; [done|].
      rewrite sorted_insert_perm. constructor; [lra|done].
    + constructor; [by constructor|]. constructor; [lra|].
      eapply Forall_impl; [exact Hy|]. simpl. intros z Hz. lra.
Qed.

(** [sorted(..., reverse=True)] puts the largest keys first. *)
Lemma sorted_descending {A} (key : A → R) (l : list A) :
  StronglySorted (λ x y, key y <= key x)%R (sorted key true l).
Proof.
  induction l as [|x l IH]; [constructor|].
  unfold sorted in *. simpl. by apply sorted_insert_descending.
Qed.

Lemma StronglySorted_Forall {A} (R : relation A) (P : A → Prop) (l : list A) :
  StronglySorted R l → Forall P l →
  StronglySorted (λ x y, R x y ∧ P x ∧ P y) l.
Proof.
  induction 1 as [|x l Hl IH Hx]; intros Hall; [constructor|].
  apply Forall_cons in Hall as [HPx Hall].
  constructor; [by apply IH|].
  apply Forall_forall. intros y Hy.
  rewrite Forall_forall in Hx, Hall. auto.
Qed.

Lemma imap_keys {A B} (g : A → B) (l : list A) (k : nat) :
  (imap (λ i x, (k + i, g x)) l).*1 = seq k (length l).
Proof.
  revert k. induction l as [|x l IH]; intros k; [done|].
  rewrite imap_cons. simpl. rewrite Nat.add_0_r. f_equal.
  rewrite <- IH. f_equal. apply imap_ext. intros i y _. simpl.
  f_equal. lia.
Qed.

Lemma filter_fst_fmap {B} (P : nat → Prop) `{!∀ x, Decision (P x)}
    (l : list (nat * B)) :
  (filter (λ x, P x.1) l).*1 = filter P (l.*1).
Proof.
  induction l as [|x l IH]; [done|].
  rewrite fmap_cons, !filter_cons.
  destruct (decide (P x.1)); [rewrite fmap_cons|]; by rewrite <- IH.
Qed.

Section ranked_candidates.
Context {S : Type} `{!Agent.Strategy S} `{!TrueSkill}.
Implicit Types (m : RankedAgentMatcher.t S) (agent : Agent.t S).

Lemma rating_distances_keys (av : gset nat) (r : R) (ratings : list Rating) :
  (∀ x, x ∈ av → x < length ratings) →
  (RankedAgentMatcher.rating_distances av r ratings).*1 ≡ₚ elements av.
Proof.
  intros Hav. unfold RankedAgentMatcher.rating_distances.
  pose proof (filter_fst_fmap (λ x, x ∈ av)
                (imap (λ i rating, (i, Rabs (mu rating - r))) ratings))
    as Hkeys.
  simpl in Hkeys. rewrite Hkeys.
  pose proof (imap_keys (λ rating, Rabs (mu rating - r)) ratings 0)
    as Hseq.
  simpl in Hseq. rewrite Hseq.
  apply NoDup_Permutation.
  - apply NoDup_filter, NoDup_seq.
  - apply NoDup_elements.
  - intros x. rewrite list_elem_of_filter, elem_of_seq, elem_of_elements.
    split; [tauto|]. intros Hx. split; [done|]. apply Hav in Hx. lia.
Qed.

Lemma rating_distances_values (av : gset nat) (r : R)
    (ratings : list Rating) :
  Forall (λ x, x.2 = rating_distance ratings r x.1)
    (RankedAgentMatcher.rating_distances av r ratings).
Proof.
  apply Forall_forall. intros [i d] Hin.
  apply list_elem_of_filter in Hin as [_ Hin].
  apply elem_of_lookup_imap in Hin as (j & rating & [= -> ->] & Hj).
  unfold rating_distance. simpl. by rewrite Hj.
Qed.

(** C7: with strict recommendations, the ranked matcher returns the first
    [min(recommendation_limit, number of available candidates)] ids of the
    available candidates sorted by the distance between their rating mean
    and the mean of the agent, the largest distance first: no candidate
    left out is farther from the agent than a candidate returned. *)
Theorem strict_recommendations_farthest_first c i m agent rating :
  RankedAgentMatcher.strict_recommendations m = true →
  RankedAgentMatcher.ratings m !! Agent.id agent = Some rating →
  (∀ x, x ∈ RankedAgentMatcher.agent_ids m →
        x < length (RankedAgentMatcher.ratings m)) →
  let all_available : gset nat :=
    (RankedAgentMatcher.agent_ids m ∖ Agent.get_assessed_candidates agent)
      ∖ ({[Agent.id agent]} ∪ RankedAgentMatcher.eliminated_agents m) in
  let distance :=
    rating_distance (RankedAgentMatcher.ratings m) (mu rating) in
  let n :=
    RankedAgentMatcher.recommendation_limit m `min` size all_available in
  ∃ ranking,
    ranking ≡ₚ elements all_available
    ∧ StronglySorted (λ x y, distance y <= distance x)%R ranking
    ∧ RankedAgentMatcher.get_available_candidates c i m agent
      = Some (take n ranking)
    ∧ length (take n ranking) = n
    ∧ ∀ x y, x ∈ take n ranking → y ∈ all_available →
             y ∉ take n ranking → (distance y <= distance x)%R.
Proof.
  intros Hstrict Hrating Hdense all_available distance n.
  set (ds := RankedAgentMatcher.rating_distances all_available (mu rating)
               (RankedAgentMatcher.ratings m)).
  exists ((sorted snd true ds).*1).
  assert ((sorted snd true ds).*1 ≡ₚ elements all_available) as Hperm.
  { rewrite sorted_perm. apply rating_distances_keys.
    intros x Hx. apply Hdense. set_solver. }
  assert (StronglySorted (λ x y, distance y <= distance x)%R
            (sorted snd true ds).*1) as Hsorted.
  { eapply (StronglySorted_fmap fst
              (λ x y, (y.2 <= x.2)%R ∧ x.2 = distance x.1
                       ∧ y.2 = distance y.1)).
    - intros x y (Hle & Hx & Hy). by rewrite <- Hx, <- Hy.
    - apply (StronglySorted_Forall (λ x y, y.2 <= x.2)%R
               (λ x, x.2 = distance x.1)).
      + apply sorted_descending.
      + rewrite sorted_perm. apply rating_distances_values. }
  assert (length (sorted snd true ds).*1 = size all_available) as Hlen
    by (by rewrite Hperm).
  split; [done|]. split; [done|]. split; [|split].
  - unfold RankedAgentMatcher.get_available_candidates,
      RankedAgentMatcher.ranked_candidates.
    rewrite Hrating. simpl. rewrite Hstrict. fold all_available ds.
    rewrite Hlen. f_equal. f_equal. subst n. lia.
  - rewrite length_take, Hlen. subst n. lia.
  - intros x y Hx Hy Hny.
    rewrite <- (take_drop n (sorted snd true ds).*1) in Hsorted.
    eapply (StronglySorted_app_1_elem_of _ _ _ x y) in Hsorted; [done..|].
    assert (y ∈ (sorted snd true ds).*1) as Hin
      by (rewrite Hperm; by apply elem_of_elements).
    rewrite <- (take_drop n (sorted snd true ds).*1) in Hin.
    apply elem_of_app in Hin as [?|?]; done.
Qed.

End ranked_candidates.

(** ** A population that is eliminated as a whole *)

(** A loop whose body returns while an invariant holds returns. *)
Lemma for_each_total {A B} (P : B → Prop) (body : B → A → option B)
    (l : list A) (acc : B) :
  (∀ acc x, x ∈ l → P acc → ∃ acc', body acc x = Some acc' ∧ P acc') →
  P acc → ∃ acc', for_each body l acc = Some acc' ∧ P acc'.
Proof.
  revert acc. induction l as [|x l IH]; intros acc Hstep HP; simpl.
  - by exists acc.
  - destruct (Hstep acc x) as (acc1 & -> & HP1); [by left|done|]. simpl.
    apply IH; [|done]. intros ? y Hy. apply Hstep. by right.
Qed.

Section all_eliminated_random.
Context {S : Type} `{!Agent.Strategy S}.
Import RandomAgentMatcher.
Implicit Types (m : t S).

Lemma eta m :
  mk (agents m) (agent_ids m) (round m) (matrix m) (recommendation_limit m)
    (compatibility_calculator m) (waiting_matches m) (eliminated_agents m)
  = m.
Proof. by destruct m. Qed.

Lemma pair_order_empty c : choices_ok c → pair_order c ∅ = [].
Proof.
  intros Hc. apply Permutation_nil_r.
  rewrite (pair_order_perm c Hc ∅). by rewrite elements_empty.
Qed.

Lemma process_matches_none c m :
  choices_ok c → waiting_matches m = ∅ → process_matches c m = Some m.
Proof.
  intros Hc Hw. unfold process_matches. rewrite Hw, pair_order_empty by done.
  simpl. f_equal. rewrite <- (eta m) at 3. by rewrite Hw.
Qed.

Lemma collect_all_eliminated c m :
  (∀ agent, agent ∈ agents m → Agent.id agent ∈ eliminated_agents m) →
  collect c m = Some (m, [], []).
Proof.
  intros Hall. unfold collect.
  assert (∀ l, (∀ i, i ∈ l → i < length (agents m)) →
               for_each (serve c) l (m, [], []) = Some (m, [], [])) as Hl.
  { induction l as [|i l IH]; intros Hl; [done|]. simpl.
    destruct (lookup_lt_is_Some_2 (agents m) i) as [agent Hi];
      [apply Hl; by left|].
    rewrite Hi. simpl.
    rewrite decide_True by (eapply Hall, list_elem_of_lookup_2, Hi).
    simpl. apply IH. intros; apply Hl; by right. }
  apply Hl. intros i Hi%elem_of_seq. lia.
Qed.

Lemma eliminate_all_eliminated (v : R) (e : gset nat)
    (l : list (Agent.t S)) :
  (∀ agent, agent ∈ l → Agent.id agent ∈ e) → foldl (eliminate v) e l = e.
Proof.
  induction l as [|a l IH]; intros Hall; [done|]. simpl.
  assert (eliminate v e a = e) as ->.
  { unfold eliminate. case_decide; [|done].
    assert (Agent.id a ∈ e) by (apply Hall; by left). set_solver. }
  apply IH. intros; apply Hall; by right.
Qed.

Lemma np_percentile_empty (q : R) : np_percentile [] q = None.
Proof. unfold np_percentile. by case_decide. Qed.

Lemma random_all_eliminated c m (q : R) :
  choices_ok c →
  (∀ agent, agent ∈ agents m → Agent.id agent ∈ eliminated_agents m) →
  waiting_matches m = ∅ →
  run_new_round c m = Some (log_agents (set_round m (round m + 1)))
  ∧ (∀ v, foldl (eliminate v) (eliminated_agents m) (agents m)
          = eliminated_agents m)
  ∧ eliminate_bottom q m = np_percentile [] q ≫= λ _, Some m.
Proof.
  intros Hc Hall Hw. split; [|split].
  - unfold run_new_round, resolve_likes.
    rewrite collect_all_eliminated by done. simpl.
    by rewrite process_matches_none.
  - intros v. by apply eliminate_all_eliminated.
  - unfold eliminate_bottom.
    rewrite filter_none by (intros a Ha Hn; by apply Hn, Hall).
    simpl. destruct (np_percentile [] q) as [v|]; simpl; [|done].
    rewrite eliminate_all_eliminated by done. f_equal. apply eta.
Qed.

End all_eliminated_random.

Section all_eliminated_ranked.
Context {S : Type} `{!Agent.Strategy S} `{!TrueSkill}.
Import RankedAgentMatcher.
Implicit Types (m : t S).
#[local] Arguments Agent.log_state : simpl never.

Lemma log_variable_same_but_history (a : Agent.t S) (k : nat) (v : string) :
  same_but_history a (Agent.log_variable k a v).
Proof.
  unfold Agent.log_variable, same_but_history.
  destruct (Agent.getattr a v); [|by destruct a].
  destruct (Agent.history a !! v); by destruct a.
Qed.

Lemma same_but_history_trans (a1 a2 a3 : Agent.t S) :
  same_but_history a1 a2 → same_but_history a2 a3 → same_but_history a1 a3.
Proof.
  unfold same_but_history. destruct a1, a2, a3; simpl.
  intros H12 H23. injection H12. injection H23. intros. by subst.
Qed.

Lemma log_state_same_but_history (a : Agent.t S) (k : nat)
    (vs : list string) :
  same_but_history a (Agent.log_state a k vs).
Proof.
  unfold Agent.log_state. revert a.
  induction vs as [|v vs IH]; intros a; simpl; [by destruct a|].
  eapply same_but_history_trans; [|apply IH].
  apply log_variable_same_but_history.
Qed.

Lemma same_but_history_id (a a' : Agent.t S) :
  same_but_history a a' → Agent.id a' = Agent.id a.
Proof. by intros <-. Qed.

Lemma ranked_collect_all_eliminated c m :
  (∀ agent, agent ∈ agents m → Agent.id agent ∈ eliminated_agents m) →
  collect c m = Some (m, [], []).
Proof.
  intros Hall. unfold collect.
  assert (∀ l, (∀ i, i ∈ l → i < length (agents m)) →
               for_each (serve c) l (m, [], []) = Some (m, [], [])) as Hl.
  { induction l as [|i l IH]; intros Hl; [done|]. simpl.
    destruct (lookup_lt_is_Some_2 (agents m) i) as [agent Hi];
      [apply Hl; by left|].
    rewrite Hi. simpl.
    rewrite decide_True by (eapply Hall, list_elem_of_lookup_2, Hi).
    simpl. apply IH. intros; apply Hl; by right. }
  apply Hl. intros i Hi%elem_of_seq. lia.
Qed.

Lemma ranked_process_matches_none c m :
  choices_ok c → waiting_matches m = ∅ → process_matches c m = Some m.
Proof.
  intros Hc Hw. unfold process_matches. rewrite Hw, pair_order_empty by done.
  simpl. f_equal. destruct m; simpl in *. by subst.
Qed.

Lemma shuffle_empty c : choices_ok c → shuffle c [] = [].
Proof. intros Hc. apply Permutation_nil_r, (shuffle_perm c Hc). Qed.

Lemma log_agents_total m :
  (∀ agent, agent ∈ agents m →
     is_Some (rating_logs m !! Agent.id agent)
     ∧ is_Some (ratings m !! Agent.id agent)) →
  ∃ m', log_agents m = Some m' ∧ same_but_logs m m'.
Proof.
  intros Hwf. unfold log_agents.
  apply (for_each_total (λ m', same_but_logs m m')).
  - intros mk i Hi%elem_of_seq (Hag & Hdom & Hrest). unfold log_agent.
    pose proof (Forall2_length _ _ _ Hag) as Hlen.
    destruct (lookup_lt_is_Some_2 (agents mk) i) as [a' Ha']; [lia|].
    destruct (lookup_lt_is_Some_2 (agents m) i) as [a Ha]; [lia|].
    pose proof (Forall2_lookup_lr _ _ _ _ _ _ Hag Ha Ha') as Haa.
    rewrite Ha'. simpl.
    set (b := Agent.log_state a' (round mk) ["match_count"; "happiness"]).
    assert (same_but_history a b) as Hab.
    { eapply same_but_history_trans; [exact Haa|].
      apply log_state_same_but_history. }
    rewrite (same_but_history_id _ _ Hab).
    destruct (Hwf a) as [Hlog Hrat]; [by eapply list_elem_of_lookup_2|].
    assert (ratings mk = ratings m) as Hr by (by rewrite <- Hrest).
    rewrite Hr. destruct Hrat as [rating ->].
    assert (is_Some (rating_logs mk !! Agent.id a)) as [log ->].
    { apply elem_of_dom. rewrite Hdom. by apply elem_of_dom. }
    simpl. eexists. split; [reflexivity|].
    split; [|split]; simpl.
    + rewrite <- (list_insert_id (agents m) i a) by done.
      by apply Forall2_insert.
    + rewrite dom_insert_L, Hdom.
      assert (Agent.id a ∈ dom (rating_logs m)) by (by apply elem_of_dom).
      set_solver.
    + rewrite <- Hrest at 2. by destruct mk.
  - split; [|split]; [|done|by destruct m].
    apply Forall_Forall2_diag, Forall_forall. intros a _. by destruct a.
Qed.

Lemma ranked_all_eliminated c m (q : R) (using_ratings : bool) :
  choices_ok c →
  (∀ agent, agent ∈ agents m → Agent.id agent ∈ eliminated_agents m) →
  agent_ids m ⊆ eliminated_agents m →
  waiting_matches m = ∅ →
  (∀ agent, agent ∈ agents m →
     is_Some (rating_logs m !! Agent.id agent)
     ∧ is_Some (ratings m !! Agent.id agent)) →
  (∀ x, x ∈ agent_ids m → is_Some (ratings m !! x)) →
  run_new_round c m = log_agents (set_round m (round m + 1))
  ∧ (∃ m', run_new_round c m = Some m'
           ∧ same_but_logs (set_round m (round m + 1)) m')
  ∧ eliminate_bottom q using_ratings m
    = np_percentile [] q ≫= λ _, Some m.
Proof.
  intros Hc Hall Hids Hw Hwf Hrat.
  assert (run_new_round c m = log_agents (set_round m (round m + 1)))
    as Hrun.
  { unfold run_new_round.
    rewrite ranked_collect_all_eliminated by done. simpl.
    unfold process_likes, process_passes. simpl.
    rewrite shuffle_empty by done. simpl.
    by rewrite ranked_process_matches_none. }
  split; [done|]. split.
  { rewrite Hrun. by apply log_agents_total. }
  unfold eliminate_bottom. destruct using_ratings.
  - rewrite filter_none by (intros x Hx%elem_of_elements Hn; set_solver).
    simpl. destruct (np_percentile [] q) as [v|]; simpl; [|done].
    assert (∀ l e, (∀ x, x ∈ l → x ∈ agent_ids m) →
              agent_ids m ⊆ e →
              for_each (λ e agent_id,
                  rating ← ratings m !! agent_id;
                  if decide (mu rating <= v)%R
                  then Some (e ∪ {[agent_id]}) else Some e) l e
              = Some e) as Hloop.
    { induction l as [|x l IH]; intros e Hl He; [done|]. simpl.
      destruct (Hrat x) as [rating ->]; [apply Hl; by left|]. simpl.
      assert (x ∈ e) by (apply He, Hl; by left).
      case_decide; simpl.
      - replace (e ∪ {[x]}) with e by set_solver.
        apply IH; [intros; apply Hl; by right|done].
      - apply IH; [intros; apply Hl; by right|done]. }
    rewrite Hloop; [|intros x Hx; by apply elem_of_elements|done].
    simpl. f_equal. by destruct m.
  - rewrite filter_none by (intros a Ha Hn; by apply Hn, Hall).
    simpl. destruct (np_percentile [] q) as [v|]; simpl; [|done].
    f_equal.
    assert (foldl (eliminate v) (eliminated_agents m) (agents m)
            = eliminated_agents m) as ->; [|by destruct m].
    generalize (agents m) Hall. intros l.
    induction l as [|a l IH]; intros Hl; [done|]. simpl.
    assert (eliminate v (eliminated_agents m) a = eliminated_agents m)
      as ->.
    { unfold eliminate. case_decide; [|done].
      assert (Agent.id a ∈ eliminated_agents m) by (apply Hl; by left).
      set_solver. }
    apply IH. intros; apply Hl; by right.
Qed.

End all_eliminated_ranked.

Lemma first_choices_ok : choices_ok first_choices.
Proof.
  split; simpl; try done.
  - intros _ population k Hk. rewrite length_take. lia.
  - intros _ population k x Hx. by eapply subseteq_take.
  - intros _ population k Hnd. eapply sublist_NoDup; [exact Hnd|apply sublist_take].
Qed.

Section ranked_logs.
Context {S : Type} `{!Agent.Strategy S} `{!TrueSkill}.
Import RankedAgentMatcher.
Implicit Types (m : t S).
#[local] Arguments Agent.log_state : simpl never.

Lemma log_agents_prefix m (k : nat) : ∀ mk,
  k ≤ length (agents m) →
  for_each log_agent (seq 0 k) m = Some mk →
  agents mk
  = ((λ agent, Agent.log_state agent (round m) ["match_count"; "happiness"])
       <$> take k (agents m)) ++ drop k (agents m)
  ∧ (∀ x, rating_logs mk !! x = logged_rating m (take k (agents m)) x)
  ∧ set_rating_logs (set_agents mk (agents m)) (rating_logs m) = m.
Proof.
  induction k as [|k IH]; intros mk Hk.
  - simpl. intros [= <-]. rewrite take_0, drop_0. simpl.
    split; [done|]. split; [|by destruct m].
    intros x. unfold logged_rating.
    rewrite decide_False; [done|]. by intros ?%elem_of_nil.
  - rewrite seq_S, for_each_app. simpl.
    destruct (for_each log_agent (seq 0 k) m) as [m1|] eqn:Hpre;
      simpl; [|done].
    destruct (IH m1) as (Hag & Hlogs & Hrest); [lia|done|].
    destruct (log_agent m1 k) as [m2|] eqn:Hstep; simpl; [|done].
    intros [= <-]. unfold log_agent in Hstep.
    destruct (lookup_lt_is_Some_2 (agents m) k) as [a Ha]; [lia|].
    assert (agents m1 !! k = Some a) as Ha1.
    { rewrite Hag, lookup_app_r; rewrite length_fmap, length_take; [|lia].
      rewrite lookup_drop. rewrite <- Ha. f_equal. lia. }
    assert (round m1 = round m ∧ ratings m1 = ratings m) as [Hround Hrat]
      by (rewrite <- Hrest; by destruct m1).
    rewrite Ha1 in Hstep. simpl in Hstep.
    set (b := Agent.log_state a (round m1) ["match_count"; "happiness"])
      in *.
    assert (Agent.id b = Agent.id a) as Hid
      by (apply same_but_history_id, log_state_same_but_history).
    rewrite Hid, Hlogs, Hrat in Hstep.
    destruct (logged_rating m (take k (agents m)) (Agent.id a))
      as [log0|] eqn:Hlog0; simpl in Hstep; [|done].
    destruct (ratings m !! Agent.id a) as [rating|] eqn:Hrating;
      simpl in Hstep; [|done].
    injection Hstep as <-. simpl.
    rewrite (take_S_r _ _ a) by done. rewrite fmap_app. simpl.
    split; [|split].
    + rewrite Hag. rewrite <- (assoc_L (++)). simpl.
      rewrite insert_app_r_alt; rewrite length_fmap, length_take; [|lia].
      f_equal. replace (k - k `min` length (agents m)) with 0 by lia.
      rewrite (drop_S _ a k) by done. simpl. unfold b. by rewrite Hround.
    + intros x. unfold logged_rating in *. rewrite fmap_app. simpl.
      destruct (decide (x = Agent.id a)) as [->|Hne].
      * rewrite lookup_insert_eq.
        rewrite decide_True
          by (apply elem_of_app; right; by apply list_elem_of_singleton).
        rewrite Hrating, Hround. case_decide.
        -- destruct (rating_logs m !! Agent.id a) as [log|];
             simpl in *; [|done].
           rewrite Hrating in Hlog0. simpl in Hlog0.
           injection Hlog0 as <-. by rewrite insert_insert_eq.
        -- by rewrite Hlog0.
      * rewrite lookup_insert_ne by done. rewrite Hlogs.
        unfold logged_rating.
        destruct (decide (x ∈ Agent.id <$> take k (agents m))).
        -- by rewrite decide_True by (apply elem_of_app; by left).
        -- rewrite decide_False; [done|].
           intros [?|?%list_elem_of_singleton]%elem_of_app; done.
    + rewrite <- Hrest at 2. by destruct m1.
Qed.

(** [log_agents] writes the snapshot of every agent under the round, and
    the rating of the id of every agent under the round; it changes
    nothing else. *)
Lemma log_agents_spec m m' :
  log_agents m = Some m' →
  agents m'
  = (λ agent, Agent.log_state agent (round m) ["match_count"; "happiness"])
      <$> agents m
  ∧ (∀ x, rating_logs m' !! x = logged_rating m (agents m) x)
  ∧ set_rating_logs (set_agents m' (agents m)) (rating_logs m) = m.
Proof.
  intros Hlog. apply log_agents_prefix in Hlog; [|done].
  by rewrite firstn_all, drop_all, app_nil_r in Hlog.
Qed.

End ranked_logs.

Section log_read_back.
Context {S : Type} `{!Agent.Strategy S}.
Implicit Types (a : Agent.t S).
#[local] Arguments Agent.log_state : simpl never.

Lemma getattr_log_variable a (k : nat) (v variable : string) :
  Agent.getattr (Agent.log_variable k a v) variable
  = Agent.getattr a variable.
Proof.
  pose proof (log_variable_same_but_history a k v) as Hs.
  unfold same_but_history in Hs. rewrite <- Hs at 2.
  by destruct (Agent.log_variable k a v).
Qed.

(** The entry of a variable and a round in the history, after a variable
    is logged. *)
Lemma log_variable_lookup a (k j : nat) (v variable : string) :
  Agent.history (Agent.log_variable k a v) !! variable
    ≫= (λ log, log !! j)
  = match Agent.getattr a v with
    | Some x =>
        if decide (variable = v ∧ j = k) then Some x
        else Agent.history a !! variable ≫= λ log, log !! j
    | None => Agent.history a !! variable ≫= λ log, log !! j
    end.
Proof.
  unfold Agent.log_variable.
  destruct (Agent.getattr a v) as [x|]; [|done].
  destruct (Agent.history a !! v) as [h|] eqn:Hh; simpl.
  - destruct (decide (variable = v)) as [->|Hne].
    + rewrite lookup_insert_eq. simpl.
      destruct (decide (j = k)) as [->|Hnj].
      * rewrite lookup_insert_eq. by rewrite decide_True by done.
      * rewrite lookup_insert_ne by done.
        rewrite decide_False by (by intros [_ ?]). by rewrite Hh.
    + rewrite lookup_insert_ne by done.
      by rewrite decide_False by (by intros [? _]).
  - destruct (decide (variable = v)) as [->|Hne].
    + rewrite lookup_insert_eq. simpl.
      destruct (decide (j = k)) as [->|Hnj].
      * rewrite lookup_singleton_eq. by rewrite decide_True by done.
      * rewrite lookup_singleton_ne by done.
        rewrite decide_False by (by intros [_ ?]). by rewrite Hh.
    + rewrite lookup_insert_ne by done.
      by rewrite decide_False by (by intros [? _]).
Qed.

Lemma log_state_lookup (variables : list string) : ∀ a (k j : nat)
    (variable : string),
  Agent.history (Agent.log_state a k variables) !! variable
    ≫= (λ log, log !! j)
  = match Agent.getattr a variable with
    | Some x =>
        if decide (variable ∈ variables ∧ j = k) then Some x
        else Agent.history a !! variable ≫= λ log, log !! j
    | None => Agent.history a !! variable ≫= λ log, log !! j
    end.
Proof.
  unfold Agent.log_state.
  induction variables as [|v vs IH]; intros a k j variable; simpl.
  - by destruct (Agent.getattr a variable).
  - rewrite IH, getattr_log_variable, log_variable_lookup.
    destruct (Agent.getattr a variable) as [x|] eqn:Hx.
    + destruct (decide (variable ∈ vs ∧ j = k)) as [[Hin ->]|Hn].
      * by rewrite decide_True by (split; [by right|done]).
      * destruct (Agent.getattr a v) as [y|] eqn:Hy.
        -- destruct (decide (variable = v ∧ j = k)) as [[-> ->]|Hn2].
           ++ rewrite decide_True by (split; [by left|done]). congruence.
           ++ rewrite decide_False; [done|].
              intros [[?|?]%elem_of_cons ?]; tauto.
        -- rewrite decide_False; [done|].
           intros [[?|?]%elem_of_cons ?]; [congruence|tauto].
    + destruct (Agent.getattr a v) as [y|] eqn:Hy; [|done].
      rewrite decide_False; [done|]. intros [-> _]. congruence.
Qed.

(** The snapshot that [log_agents] takes of an agent under a round. *)
Lemma log_state_snapshot a (k : nat) :
  let a' := Agent.log_state a k ["match_count"; "happiness"] in
  same_but_history a a'
  ∧ Agent.history a' !! "match_count" ≫= (λ log, log !! k)
    = Some (PyInt (Z.of_nat (Agent.match_count a)))
  ∧ Agent.history a' !! "happiness" ≫= (λ log, log !! k)
    = Some (PyFloat (Agent.happiness a)).
Proof.
  simpl. split; [apply log_state_same_but_history|].
  rewrite !log_state_lookup.
  assert (Agent.getattr a "match_count"
          = Some (PyInt (Z.of_nat (Agent.match_count a)))) as ->
    by reflexivity.
  assert (Agent.getattr a "happiness"
          = Some (PyFloat (Agent.happiness a))) as -> by reflexivity.
  split.
  - by rewrite decide_True by (split; [by left|done]).
  - by rewrite decide_True by (split; [by right; left|done]).
Qed.

End log_read_back.

(** C2, as the code has it.  When every agent is eliminated,
    [run_new_round] serves nobody and returns; besides the round counter
    it changes the logs, and nothing else: in both matchers it writes, in
    the history of every agent, the values of [match_count] and of
    [happiness] under the new round, and in the ranked matcher it also
    writes the rating of every agent in the rating logs under the new
    round.  [eliminate_bottom] changes nothing, for every threshold: its
    loop adds no id, and the percentile of the empty sample raises before
    the loop is reached. *)
Theorem all_eliminated_round_only_logs {S} `{!Agent.Strategy S}
    `{!TrueSkill}
    (c : Choices) (q : R) (using_ratings : bool)
    (m : RandomAgentMatcher.t S) (m2 : RankedAgentMatcher.t S) :
  choices_ok c →
  (∀ agent, agent ∈ RandomAgentMatcher.agents m →
     Agent.id agent ∈ RandomAgentMatcher.eliminated_agents m) →
  RandomAgentMatcher.waiting_matches m = ∅ →
  (∀ agent, agent ∈ RankedAgentMatcher.agents m2 →
     Agent.id agent ∈ RankedAgentMatcher.eliminated_agents m2
     ∧ is_Some (RankedAgentMatcher.rating_logs m2 !! Agent.id agent)) →
  RankedAgentMatcher.agent_ids m2 ⊆ RankedAgentMatcher.eliminated_agents m2 →
  (∀ x, x ∈ RankedAgentMatcher.agent_ids m2 ∨
        (∃ agent, agent ∈ RankedAgentMatcher.agents m2 ∧ Agent.id agent = x) →
     is_Some (RankedAgentMatcher.ratings m2 !! x)) →
  RankedAgentMatcher.waiting_matches m2 = ∅ →
  (RandomAgentMatcher.run_new_round c m
   = Some (RandomAgentMatcher.log_agents
             (RandomAgentMatcher.set_round m
                (RandomAgentMatcher.round m + 1)))
   ∧ (∀ v, foldl (RandomAgentMatcher.eliminate v)
             (RandomAgentMatcher.eliminated_agents m)
             (RandomAgentMatcher.agents m)
           = RandomAgentMatcher.eliminated_agents m)
   ∧ RandomAgentMatcher.eliminate_bottom q m
     = np_percentile [] q ≫= λ _, Some m)
  ∧ (∃ m', RankedAgentMatcher.run_new_round c m2 = Some m'
       ∧ same_but_logs
           (RankedAgentMatcher.set_round m2
              (RankedAgentMatcher.round m2 + 1)) m'
       ∧ RankedAgentMatcher.agents m'
         = (λ agent,
              Agent.log_state agent (RankedAgentMatcher.round m2 + 1)
                ["match_count"; "happiness"])
             <$> RankedAgentMatcher.agents m2
       ∧ (∀ agent, agent ∈ RankedAgentMatcher.agents m2 →
            ∃ log rating,
              RankedAgentMatcher.rating_logs m2 !! Agent.id agent = Some log
              ∧ RankedAgentMatcher.ratings m2 !! Agent.id agent
                = Some rating
              ∧ RankedAgentMatcher.rating_logs m' !! Agent.id agent
                = Some (<[RankedAgentMatcher.round m2 + 1 := rating]> log))
       ∧ (∀ x, (∀ agent, agent ∈ RankedAgentMatcher.agents m2 →
                         Agent.id agent ≠ x) →
            RankedAgentMatcher.rating_logs m' !! x
            = RankedAgentMatcher.rating_logs m2 !! x))
  ∧ (∀ (a : Agent.t S) (k : nat),
       let a' := Agent.log_state a k ["match_count"; "happiness"] in
       same_but_history a a'
       ∧ Agent.history a' !! "match_count" ≫= (λ log, log !! k)
         = Some (PyInt (Z.of_nat (Agent.match_count a)))
       ∧ Agent.history a' !! "happiness" ≫= (λ log, log !! k)
         = Some (PyFloat (Agent.happiness a)))
  ∧ RankedAgentMatcher.eliminate_bottom q using_ratings m2
    = np_percentile [] q ≫= (λ _, Some m2)
  ∧ np_percentile [] q = None.
Proof.
  intros Hc Hall Hw Hall2 Hids2 Hrat2 Hw2.
  split; [by apply random_all_eliminated|].
  destruct (ranked_all_eliminated c m2 q using_ratings)
    as (Heq & (m' & Hrun & Hsame) & Hel); try done.
  - intros a Ha. by apply Hall2.
  - intros a Ha. split; [by apply Hall2|]. apply Hrat2. right. by exists a.
  - intros x Hx. apply Hrat2. by left.
  - split; [|split; [apply log_state_snapshot|]].
    + rewrite Hrun in Heq. symmetry in Heq.
      apply log_agents_spec in Heq as (Hag & Hlogs & _). simpl in *.
      exists m'. split; [done|]. split; [done|]. split; [done|].
      split.
      * intros agent Hin.
        destruct (Hall2 agent Hin) as [_ [log Hlog]].
        destruct (Hrat2 (Agent.id agent)) as [rating Hrating];
          [right; by exists agent|].
        exists log, rating. split; [done|]. split; [done|].
        rewrite Hlogs. unfold logged_rating. simpl.
        rewrite decide_True by (apply list_elem_of_fmap; by exists agent).
        by rewrite Hlog, Hrating.
      * intros x Hx. rewrite Hlogs. unfold logged_rating. simpl.
        rewrite decide_False; [done|].
        intros (agent & -> & Hin)%list_elem_of_fmap. by eapply Hx.
    + split; [done|]. apply np_percentile_empty.
Qed.

(** C2 fails as stated: in a matcher whose only agent is eliminated,
    [run_new_round] changes more than the round counter (the random
    matcher writes the history of the agent, the ranked one the rating logs
    too), and [eliminate_bottom] raises, on the happiness as on the
    ratings. *)
Lemma all_eliminated_round_only_logs_counterexample :
  (∀ agent, agent ∈ RandomAgentMatcher.agents ghost_town →
     Agent.id agent ∈ RandomAgentMatcher.eliminated_agents ghost_town)
  ∧ (∃ m', RandomAgentMatcher.run_new_round first_choices ghost_town = Some m'
           ∧ m' ≠ RandomAgentMatcher.set_round ghost_town 1)
  ∧ RandomAgentMatcher.eliminate_bottom 50 ghost_town = None
  ∧ (∀ agent, agent ∈ RankedAgentMatcher.agents ranked_ghost_town →
       Agent.id agent ∈ RankedAgentMatcher.eliminated_agents ranked_ghost_town)
  ∧ (∃ m', RankedAgentMatcher.run_new_round first_choices ranked_ghost_town
           = Some m'
           ∧ m' ≠ RankedAgentMatcher.set_round ranked_ghost_town 1)
  ∧ RankedAgentMatcher.eliminate_bottom 50 true ranked_ghost_town = None
  ∧ RankedAgentMatcher.eliminate_bottom 50 false ranked_ghost_town = None.
Proof.
  assert (∀ agent, agent ∈ RandomAgentMatcher.agents ghost_town →
     Agent.id agent ∈ RandomAgentMatcher.eliminated_agents ghost_town)
    as Hall.
  { intros agent Hin. apply list_elem_of_singleton in Hin as ->.
    by apply elem_of_singleton. }
  assert (∀ agent, agent ∈ RankedAgentMatcher.agents ranked_ghost_town →
     Agent.id agent ∈ RankedAgentMatcher.eliminated_agents ranked_ghost_town)
    as Hall2.
  { intros agent Hin. apply list_elem_of_singleton in Hin as ->.
    by apply elem_of_singleton. }
  destruct (random_all_eliminated first_choices ghost_town 50
              first_choices_ok Hall eq_refl) as (Hrun & _ & Hel).
  assert (∀ b, ∃ m',
            RankedAgentMatcher.run_new_round first_choices ranked_ghost_town
            = Some m'
            ∧ RankedAgentMatcher.log_agents
                (RankedAgentMatcher.set_round ranked_ghost_town 1) = Some m'
            ∧ RankedAgentMatcher.eliminate_bottom 50 b ranked_ghost_town
              = None) as Hranked.
  { intros b.
    destruct (ranked_all_eliminated first_choices ranked_ghost_town 50 b
                first_choices_ok Hall2) as (Heq & (m' & Hrun2 & _) & Hel2).
    - done.
    - done.
    - intros agent Hin. apply list_elem_of_singleton in Hin as ->.
      split; by eexists.
    - intros x Hx. simpl in Hx. apply elem_of_singleton in Hx as ->.
      by eexists.
    - exists m'. split; [done|].
      split; [exact (eq_trans (eq_sym Heq) Hrun2)|].
      by rewrite Hel2, np_percentile_empty. }
  split; [done|]. split; [|split; [|split; [done|split; [|split]]]].
  - eexists. split; [exact Hrun|]. intros Heq.
    apply (f_equal (λ m, (λ a, Agent.history a !! "happiness")
                           <$> RandomAgentMatcher.agents m !! 0)) in Heq.
    discriminate Heq.
  - rewrite Hel. by rewrite np_percentile_empty.
  - destruct (Hranked true) as (m' & Hrun2 & Hlog & _).
    exists m'. split; [done|]. intros ->.
    apply log_agents_spec in Hlog as (_ & Hlogs & _).
    specialize (Hlogs 0). unfold logged_rating in Hlogs. simpl in Hlogs.
    rewrite lookup_singleton_eq in Hlogs. simpl in Hlogs.
    apply (inj Some) in Hlogs.
    apply (f_equal (λ log : gmap nat Rating, log !! 1)) in Hlogs.
    by rewrite lookup_insert_eq in Hlogs.
  - by destruct (Hranked true) as (_ & _ & _ & ?).
  - by destruct (Hranked false) as (_ & _ & _ & ?).
Qed.

(** ** The loop of a round of the random matcher *)

Section random_round.
Context {S : Type} `{!Agent.Strategy S}.
Import RandomAgentMatcher.
Implicit Types (m : t S) (a : Agent.t S) (c : Choices).

Lemma same_but_agents_refl m : same_but_agents m m.
Proof. by destruct m. Qed.

Lemma same_but_agents_set_agents m m' l :
  same_but_agents m m' → same_but_agents m (set_agents m' l).
Proof. by destruct m'. Qed.

Lemma same_but_agents_fields m m' :
  same_but_agents m m' →
  agent_ids m' = agent_ids m ∧ round m' = round m
  ∧ matrix m' = matrix m ∧ recommendation_limit m' = recommendation_limit m
  ∧ waiting_matches m' = waiting_matches m
  ∧ eliminated_agents m' = eliminated_agents m.
Proof. by intros <-. Qed.

Lemma get_available_candidates_same m m' a a' :
  same_but_agents m m' →
  Agent.id a' = Agent.id a →
  Agent.liked a' = Agent.liked a →
  Agent.passed a' = Agent.passed a →
  get_available_candidates m' a' = get_available_candidates m a.
Proof.
  intros (Hids & _ & _ & _ & _ & Hel)%same_but_agents_fields Hid Hl Hp.
  unfold get_available_candidates, Agent.get_assessed_candidates.
  by rewrite Hids, Hel, Hid, Hl, Hp.
Qed.

(** The candidates shown are available, and distinct when the ids of the
    population are. *)
Lemma recommend_spec c i m a candidates_details :
  choices_ok c →
  recommend c i m a = Some candidates_details →
  (∀ d, d ∈ candidates_details →
        Agent.d_id d ∈ get_available_candidates m a)
  ∧ (NoDup (Agent.id <$> agents m) →
     NoDup (Agent.d_id <$> candidates_details)).
Proof.
  intros Hc. unfold recommend, random_sample.
  case_decide; simpl; [|done]. intros [= <-]. split.
  - intros d (b & -> & Hb)%list_elem_of_fmap.
    apply list_elem_of_filter in Hb as [Hb _]. simpl.
    apply (sample_subset c Hc) in Hb.
    rewrite (set_order_perm c Hc) in Hb. by apply elem_of_elements.
  - intros Hnd. rewrite <- list_fmap_compose.
    eapply sublist_NoDup; [exact Hnd|].
    apply fmap_sublist, sublist_filter.
Qed.

Lemma serve_spec c m RL RP i m' RL' RP' :
  serve c (m, RL, RP) i = Some (m', RL', RP') →
  ∃ a, agents m !! i = Some a
    ∧ ((Agent.id a ∈ eliminated_agents m
        ∧ m' = m ∧ RL' = RL ∧ RP' = RP)
       ∨ ((Agent.id a ∉ eliminated_agents m)
          ∧ ∃ a' l p candidates_details,
              recommend c i
                (set_agents m (<[i := Agent.replenish a]> (agents m)))
                (Agent.replenish a) = Some candidates_details
              ∧ Agent.assess_candidates (Agent.replenish a)
                  candidates_details = (a', (l, p))
              ∧ m' = set_agents m (<[i := a']> (agents m))
              ∧ RL' = dict_set (Agent.id a') l RL
              ∧ RP' = dict_set (Agent.id a') p RP)).
Proof.
  unfold serve. destruct (agents m !! i) as [a|] eqn:Ha; simpl; [|done].
  intros Hs. exists a. split; [done|].
  case_decide as Hel; [left; by simplify_eq|right]. split; [done|].
  destruct (recommend c i _ _) as [ds|] eqn:Hrec; simpl in Hs; [|done].
  destruct (Agent.assess_candidates (Agent.replenish a) ds)
    as [a' [l p]] eqn:Has.
  injection Hs as <- <- <-. exists a', l, p, ds.
  repeat split; try done. simpl. by rewrite list_insert_insert_eq.
Qed.

Lemma dict_set_fresh {V} (k : nat) (v : V) (d : list (nat * V)) :
  k ∉ d.*1 → dict_set k v d = d ++ [(k, v)].
Proof.
  induction d as [|[k' v'] d IH]; intros Hk; [done|]. simpl in *.
  rewrite not_elem_of_cons in Hk. destruct Hk as [Hne Hk].
  rewrite decide_False by done. by rewrite IH.
Qed.

Lemma replenish_fields a :
  Agent.id (Agent.replenish a) = Agent.id a
  ∧ Agent.like_allowance (Agent.replenish a) = Agent.like_allowance a
  ∧ Agent.remaining_likes (Agent.replenish a) = Agent.like_allowance a
  ∧ Agent.liked (Agent.replenish a) = Agent.liked a
  ∧ Agent.passed (Agent.replenish a) = Agent.passed a
  ∧ Agent.matched (Agent.replenish a) = Agent.matched a
  ∧ Agent.match_count (Agent.replenish a) = Agent.match_count a
  ∧ Agent.get_public_details (Agent.replenish a)
    = Agent.get_public_details a.
Proof. done. Qed.

Lemma ids_insert (l : list (Agent.t S)) i a a' :
  l !! i = Some a → Agent.id a' = Agent.id a →
  Agent.id <$> <[i := a']> l = Agent.id <$> l.
Proof.
  intros Hi Hid. rewrite list_fmap_insert, Hid.
  apply list_insert_id. by rewrite list_lookup_fmap, Hi.
Qed.

Lemma collect_inv_start c m : collect_inv c m 0 (m, [], []).
Proof.
  split; [apply same_but_agents_refl|]. split; [done|].
  split; [done|]. split; [intros; lia|].
  intros _. split; [constructor|]. split; [constructor|].
  intros x [Hx|Hx]; by apply elem_of_nil in Hx.
Qed.

Lemma collect_inv_step c m k acc acc' :
  collect_inv c m k acc → serve c acc k = Some acc' →
  collect_inv c m (Datatypes.S k) acc'.
Proof.
  destruct acc as [[mk RL] RP], acc' as [[mk' RL'] RP'].
  intros (Hsame & Hids & Hrest & Hdone & Hdict) Hserve.
  apply serve_spec in Hserve as (a & Ha & Hcase).
  pose proof (same_but_agents_fields _ _ Hsame) as (_&_&_&_&_&Hel).
  assert (agents m !! k = Some a) as Ham by (by rewrite <- Hrest).
  destruct Hcase as [(Hin & -> & -> & ->)
                    |(Hnin & a' & l & p & ds & Hrec & Has & -> & -> & ->)].
  - rewrite Hel in Hin.
    split; [done|]. split; [done|]. split; [intros; apply Hrest; lia|].
    split.
    + intros i b Hi Hb. destruct (decide (i = k)) as [->|Hne].
      * left. rewrite Ham in Hb. injection Hb as <-. by split.
      * apply Hdone; [lia|done].
    + intros Hd. destruct (Hdict Hd) as (? & ? & Hkeys).
      split; [done|]. split; [done|].
      intros x Hx. destruct (Hkeys x Hx). split; [lia|done].
  - rewrite Hel in Hnin.
    pose proof (assess_candidates_spec _ _ _ _ _ Has)
      as (Hid & _). simpl in Hid.
    assert (served c m k a a' l p) as Hserved.
    { exists (set_agents mk (<[k := Agent.replenish a]> (agents mk))), ds.
      split; [by apply same_but_agents_set_agents|].
      split; [|done]. simpl. rewrite <- Hids. by eapply ids_insert. }
    split; [by apply same_but_agents_set_agents|].
    split; [simpl; rewrite <- Hids; by eapply ids_insert|].
    split; [intros i Hi; simpl;
            rewrite list_lookup_insert_ne by lia; apply Hrest; lia|].
    assert (dense_ids (agents m) →
            (k ∉ RL.*1) ∧ (k ∉ RP.*1) ∧ Agent.id a' = k) as Hfresh.
    { intros Hd. destruct (Hdict Hd) as (_ & _ & Hkeys).
      split; [|split].
      - intros Hk. destruct (Hkeys k); [by left|lia].
      - intros Hk. destruct (Hkeys k); [by right|lia].
      - rewrite Hid. by apply Hd. }
    split.
    + intros i b Hi Hb. simpl. destruct (decide (i = k)) as [->|Hne].
      * right. rewrite Ham in Hb. injection Hb as <-. split; [done|].
        exists a', l, p.
        split; [apply list_lookup_insert_eq; by eapply lookup_lt_Some|].
        split; [done|]. intros Hd.
        destruct (Hfresh Hd) as (HL & HP & ->).
        rewrite !dict_set_fresh by done.
        split; apply elem_of_app; right; by apply list_elem_of_singleton.
      * rewrite list_lookup_insert_ne by done.
        destruct (Hdone i b) as [?|(? & b' & l' & p' & ? & ? & Hent)];
          [lia|done|by left|right].
        split; [done|]. exists b', l', p'. split; [done|]. split; [done|].
        intros Hd. destruct (Hfresh Hd) as (HL & HP & ->).
        rewrite !dict_set_fresh by done.
        destruct (Hent Hd). split; apply elem_of_app; by left.
    + intros Hd. destruct (Hfresh Hd) as (HL & HP & ->).
      destruct (Hdict Hd) as (HndL & HndP & Hkeys).
      rewrite !dict_set_fresh by done. rewrite !fmap_app. simpl.
      split; [|split].
      * apply NoDup_app. split; [done|]. split; [|apply NoDup_singleton].
        intros x Hx ->%list_elem_of_singleton. done.
      * apply NoDup_app. split; [done|]. split; [|apply NoDup_singleton].
        intros x Hx ->%list_elem_of_singleton. done.
      * intros x Hx.
        assert (x = k ∨ x ∈ RL.*1 ∨ x ∈ RP.*1) as [->|Hold].
        { destruct Hx as [Hx|Hx]; apply elem_of_app in Hx as [?|Hx];
            try tauto; apply list_elem_of_singleton in Hx; tauto. }
        -- split; [lia|]. by exists a.
        -- destruct (Hkeys x Hold). split; [lia|done].
Qed.

Lemma collect_prefix c m k acc :
  for_each (serve c) (seq 0 k) (m, [], []) = Some acc →
  collect_inv c m k acc.
Proof.
  revert acc. induction k as [|k IH]; intros acc.
  - intros [= <-]. apply collect_inv_start.
  - rewrite seq_S, for_each_app. simpl.
    destruct (for_each (serve c) (seq 0 k) (m, [], [])) as [acc1|];
      simpl; [|done].
    destruct (serve c acc1 k) as [acc2|] eqn:Hs; simpl; [|done].
    intros [= <-]. eapply collect_inv_step; [by apply IH|done].
Qed.

End random_round.

(** ** The turns of the loop of a round *)

(** A loop over the positions that returns has run every turn. *)
Lemma for_each_seq_turns {B} (body : B → nat → option B) (n : nat)
    (acc0 r : B) :
  for_each body (seq 0 n) acc0 = Some r →
  ∀ i, i < n →
    ∃ acc acc', for_each body (seq 0 i) acc0 = Some acc
                ∧ body acc i = Some acc'.
Proof.
  revert r. induction n as [|n IH]; intros r Hr i Hi; [lia|].
  rewrite seq_S, for_each_app in Hr. simpl in Hr.
  destruct (for_each body (seq 0 n) acc0) as [acc|] eqn:Hpre;
    simpl in Hr; [|done].
  destruct (decide (i = n)) as [->|Hne].
  - exists acc. destruct (body acc n) as [acc'|]; [|done]. by exists acc'.
  - eapply IH; [done|lia].
Qed.

Section turns.
Context {S : Type} `{!Agent.Strategy S}.
Import RandomAgentMatcher.
Implicit Types (m : t S) (a : Agent.t S) (c : Choices).

(** A turn of the loop of a round is the turn of an eliminated agent, or
    shows a list of candidates to an agent in the game. *)
Lemma serve_turn c (acc acc' : collected) (i : nat) :
  serve c acc i = Some acc' →
  skipped acc i acc'
  ∨ ∃ candidates_details, shown c acc i candidates_details acc'.
Proof.
  destruct acc as [[mk RL] RP], acc' as [[mk' RL'] RP'].
  intros (a & Ha & Hcase)%serve_spec.
  destruct Hcase as [(Hin & -> & -> & ->)
                    |(Hnin & a' & l & p & ds & Hrec & Has & -> & -> & ->)].
  - left. by exists a.
  - right. exists ds, a, a', l, p. by repeat split.
Qed.

(** The rounds that return have a turn for every position. *)
Lemma run_new_round_turns c m m' (i : nat) :
  run_new_round c m = Some m' → i < length (agents m) →
  ∃ acc acc', for_each (serve c) (seq 0 i) (round_start m) = Some acc
              ∧ serve c acc i = Some acc'.
Proof.
  unfold run_new_round, resolve_likes, collect. intros Hrun Hi.
  destruct (for_each (serve c) _ _) as [r|] eqn:Hcol; simpl in Hrun; [|done].
  by eapply (for_each_seq_turns (serve c)).
Qed.

Lemma prefix_ids c m (k : nat) (acc : collected) :
  for_each (serve c) (seq 0 k) (round_start m) = Some acc →
  Agent.id <$> agents acc.1.1 = Agent.id <$> agents m.
Proof.
  destruct acc as [[mk RL] RP].
  intros (_ & Hids & _)%collect_prefix. done.
Qed.

End turns.


Section ranked_turns.
Context {S : Type} `{!Agent.Strategy S} `{!TrueSkill}.
Import RankedAgentMatcher.
Implicit Types (m : t S) (a : Agent.t S) (c : Choices).

Lemma ranked_serve_turn c (acc acc' : collected) (i : nat) :
  serve c acc i = Some acc' →
  ranked_skipped acc i acc'
  ∨ ∃ candidates_details, ranked_shown c acc i candidates_details acc'.
Proof.
  destruct acc as [[mk RL] RP]. unfold serve.
  destruct (agents mk !! i) as [a|] eqn:Ha; simpl; [|done].
  case_decide as Hel.
  - intros [= <-]. left. by exists a.
  - destruct (recommend c i _ _) as [ds|] eqn:Hrec; simpl; [|done].
    destruct (Agent.assess_candidates (Agent.replenish a) ds)
      as [a' [l p]] eqn:Has.
    intros [= <-]. right. exists ds, a, a', l, p. simpl.
    repeat split; try done. by rewrite list_insert_insert_eq.
Qed.

Lemma ranked_serve_ids c (acc acc' : collected) (i : nat) :
  serve c acc i = Some acc' →
  Agent.id <$> agents acc'.1.1 = Agent.id <$> agents acc.1.1.
Proof.
  intros [(a & _ & _ & ->)|(ds & a & a' & l & p & Ha & _ & _ & Has & ->)]
    %ranked_serve_turn; [done|].
  simpl. eapply ids_insert; [done|].
  by apply assess_candidates_spec in Has as (-> & _).
Qed.

Lemma ranked_prefix_ids c m (k : nat) (acc : collected) :
  for_each (serve c) (seq 0 k) (set_round m (round m + 1), [], [])
  = Some acc →
  Agent.id <$> agents acc.1.1 = Agent.id <$> agents m.
Proof.
  apply (for_each_invariant
           (λ acc : collected,
              Agent.id <$> agents acc.1.1 = Agent.id <$> agents m));
    [|done].
  intros acc0 i acc1 _ Hids Hserve.
  by rewrite (ranked_serve_ids _ _ _ _ Hserve).
Qed.

Lemma ranked_run_new_round_turns c m m' (i : nat) :
  run_new_round c m = Some m' → i < length (agents m) →
  ∃ acc acc',
    for_each (serve c) (seq 0 i) (set_round m (round m + 1), [], [])
    = Some acc
    ∧ serve c acc i = Some acc'.
Proof.
  unfold run_new_round, collect. intros Hrun Hi.
  destruct (for_each (serve c) _ _) as [r|] eqn:Hcol; simpl in Hrun; [|done].
  by eapply (for_each_seq_turns (serve c)).
Qed.

End ranked_turns.

Section candidates_in_order.
Context {S : Type} `{!Agent.Strategy S} `{!TrueSkill}.

(** C8: [get_agents_by_ids] keeps the order of the population, whatever
    the order of the ids it is given.  So, with a population in the
    ascending order of the ids, in every turn of the loop of
    [run_new_round], in both matchers and whatever the draws and the
    ranking, the agent is skipped (eliminated) or the list that the round
    hands to [assess_candidates] is in the ascending order of the ids; and
    a round that returns has had a turn for every position. *)
Theorem get_agents_by_ids_population_order
    (agents : list (Agent.t S)) (ids : list nat) :
  AgentMatcher.get_agents_by_ids agents ids `sublist_of` agents
  ∧ (∀ agent, agent ∈ AgentMatcher.get_agents_by_ids agents ids
              ↔ agent ∈ agents ∧ Agent.id agent ∈ ids)
  ∧ (∀ ids', (∀ x, x ∈ ids' ↔ x ∈ ids) →
       AgentMatcher.get_agents_by_ids agents ids'
       = AgentMatcher.get_agents_by_ids agents ids)
  ∧ (StronglySorted lt (Agent.id <$> agents) →
     StronglySorted lt
       (Agent.id <$> AgentMatcher.get_agents_by_ids agents ids))
  ∧ (∀ c (m : RandomAgentMatcher.t S) i acc acc',
       StronglySorted lt (Agent.id <$> RandomAgentMatcher.agents m) →
       for_each (RandomAgentMatcher.serve c) (seq 0 i) (round_start m)
       = Some acc →
       RandomAgentMatcher.serve c acc i = Some acc' →
       skipped acc i acc'
       ∨ ∃ candidates_details,
           shown c acc i candidates_details acc'
           ∧ StronglySorted lt (Agent.d_id <$> candidates_details))
  ∧ (∀ c (m : RankedAgentMatcher.t S) i acc acc',
       StronglySorted lt (Agent.id <$> RankedAgentMatcher.agents m) →
       for_each (RankedAgentMatcher.serve c) (seq 0 i)
         (RankedAgentMatcher.set_round m (RankedAgentMatcher.round m + 1),
          [], [])
       = Some acc →
       RankedAgentMatcher.serve c acc i = Some acc' →
       ranked_skipped acc i acc'
       ∨ ∃ candidates_details,
           ranked_shown c acc i candidates_details acc'
           ∧ StronglySorted lt (Agent.d_id <$> candidates_details))
  ∧ (∀ c (m m' : RandomAgentMatcher.t S) i,
       RandomAgentMatcher.run_new_round c m = Some m' →
       i < length (RandomAgentMatcher.agents m) →
       ∃ acc acc',
         for_each (RandomAgentMatcher.serve c) (seq 0 i) (round_start m)
         = Some acc
         ∧ RandomAgentMatcher.serve c acc i = Some acc')
  ∧ (∀ c (m m' : RankedAgentMatcher.t S) i,
       RankedAgentMatcher.run_new_round c m = Some m' →
       i < length (RankedAgentMatcher.agents m) →
       ∃ acc acc',
         for_each (RankedAgentMatcher.serve c) (seq 0 i)
           (RankedAgentMatcher.set_round m
              (RankedAgentMatcher.round m + 1), [], [])
         = Some acc
         ∧ RankedAgentMatcher.serve c acc i = Some acc').
Proof.
  split; [apply sublist_filter|].
  split; [intros agent; unfold AgentMatcher.get_agents_by_ids;
          rewrite list_elem_of_filter; tauto|].
  split; [intros ids' Hids; apply filter_ext_elem; intros; apply Hids|].
  split.
  { intros Hs. eapply StronglySorted_sublist; [|exact Hs].
    apply fmap_sublist, sublist_filter. }
  split; [|split; [|split]].
  - intros c m i acc acc' Hs Hpre Hserve.
    apply prefix_ids in Hpre.
    apply serve_turn in Hserve as [?|(ds & Hshown)]; [by left|right].
    exists ds. split; [done|].
    destruct Hshown as (agent & a' & l & p & Hag & _ & Hrec & _).
    unfold RandomAgentMatcher.recommend in Hrec.
    destruct (random_sample _ _ _ _) as [chosen|]; simpl in Hrec; [|done].
    injection Hrec as <-. apply get_agents_by_ids_sorted.
    rewrite (ids_insert _ _ agent) by done. by rewrite Hpre.
  - intros c m i acc acc' Hs Hpre Hserve.
    apply ranked_prefix_ids in Hpre.
    apply ranked_serve_turn in Hserve as [?|(ds & Hshown)]; [by left|right].
    exists ds. split; [done|].
    destruct Hshown as (agent & a' & l & p & Hag & _ & Hrec & _).
    unfold RankedAgentMatcher.recommend in Hrec.
    destruct (RankedAgentMatcher.get_available_candidates _ _ _ _)
      as [av|]; simpl in Hrec; [|done].
    destruct (random_sample _ _ _ _) as [chosen|]; simpl in Hrec; [|done].
    injection Hrec as <-. apply get_agents_by_ids_sorted.
    rewrite (ids_insert _ _ agent) by done. by rewrite Hpre.
  - intros c m m' i. apply run_new_round_turns.
  - intros c m m' i. apply ranked_run_new_round_turns.
Qed.

End candidates_in_order.

(** ** Likes, passes and matches of a round *)

Lemma for_each_fmap {A B C} (body : B → A → option B) (f : C → A)
    (l : list C) (acc : B) :
  for_each body (f <$> l) acc = for_each (λ acc x, body acc (f x)) l acc.
Proof.
  revert acc. induction l as [|x l IH]; intros acc; simpl; [done|].
  destruct (body acc (f x)); simpl; [apply IH|done].
Qed.

Section random_resolution.
Context {S : Type} `{!Agent.Strategy S}.
Import RandomAgentMatcher.
Implicit Types (m : t S) (a : Agent.t S) (c : Choices).

Lemma process_likes_walk c (likes : list (nat * gset nat)) m :
  process_likes c likes m
  = for_each (λ m p, like p.1 m p.2) (walk c likes) m.
Proof.
  unfold process_likes, walk. revert m.
  induction likes as [|[x L] likes IH]; intros m; [done|].
  simpl. rewrite for_each_app, for_each_fmap. simpl.
  destruct (for_each (like x) (set_order c L) m); simpl; [apply IH|done].
Qed.

Lemma process_passes_walk c (passes : list (nat * gset nat)) m :
  process_passes c passes m
  = for_each (λ m p, pass p.1 m p.2) (walk c passes) m.
Proof.
  unfold process_passes, walk. revert m.
  induction passes as [|[x L] passes IH]; intros m; [done|].
  simpl. rewrite for_each_app, for_each_fmap. simpl.
  destruct (for_each (pass x) (set_order c L) m); simpl; [apply IH|done].
Qed.

Lemma like_spec x y m m' :
  like x m y = Some m' →
  same_population m m'
  ∧ dok_matrix.cells (matrix m')
    = <[(x, y) := 1%Z]> (dok_matrix.cells (matrix m))
  ∧ ∀ q, q ∈ waiting_matches m'
         ↔ q ∈ waiting_matches m
           ∨ (q = sorted_pair x y
              ∧ dok_matrix.cells (matrix m') !! (y, x) = Some 1%Z).
Proof.
  unfold like, dok_matrix.set, dok_matrix.get.
  destruct (dok_matrix.in_shape (matrix m) x y); simpl; [|done].
  destruct (dok_matrix.in_shape _ y x); simpl; [|done].
  destruct (<[(x, y):=1%Z]> (dok_matrix.cells (matrix m)) !! (y, x))
    as [v|] eqn:Hback; simpl.
  - case_decide as Hv; intros [= <-]; simpl;
      (split; [done|]); (split; [done|]); intros q.
    + rewrite elem_of_union, elem_of_singleton. subst v. naive_solver.
    + split; [auto|]. intros [?|[_ Hq]]; [done|]. congruence.
  - intros [= <-]. simpl.
    split; [done|]. split; [done|]. intros q.
    split; [auto|]. intros [?|[_ Hq]]; [done|]. congruence.
Qed.

Lemma likes_spec (ps : list (nat * nat)) : ∀ m m',
  for_each (λ m p, like p.1 m p.2) ps m = Some m' →
  same_population m m'
  ∧ (∀ key, dok_matrix.cells (matrix m') !! key
            = if decide (key ∈ ps) then Some 1%Z
              else dok_matrix.cells (matrix m) !! key)
  ∧ ∀ q, q ∈ waiting_matches m'
         ↔ q ∈ waiting_matches m
           ∨ ∃ x y, (x, y) ∈ ps ∧ q = sorted_pair x y
                    ∧ dok_matrix.cells (matrix m') !! (y, x) = Some 1%Z.
Proof.
  induction ps as [|[x y] ps IH]; intros m m'; simpl.
  - intros [= <-]. split; [done|]. split.
    + done.
    + intros q. split; [auto|]. intros [?|(?&?&?%elem_of_nil&_)]; done.
  - destruct (like x m y) as [m1|] eqn:Hlike; simpl; [|done].
    intros Hrest. apply like_spec in Hlike as (Hpop1 & Hcells1 & Hw1).
    apply IH in Hrest as (Hpop & Hcells & Hw).
    assert (∀ key, dok_matrix.cells (matrix m1) !! key = Some 1%Z →
                   dok_matrix.cells (matrix m') !! key = Some 1%Z)
      as Hmono.
    { intros key Hkey. rewrite Hcells. by case_decide. }
    split; [|split].
    + destruct Hpop1 as (?&?&?&?&?), Hpop as (?&?&?&?&?).
      repeat split; congruence.
    + intros key. rewrite Hcells, Hcells1.
      destruct (decide (key = (x, y))) as [->|Hne].
      * rewrite lookup_insert_eq.
        rewrite (decide_True (P := (x, y) ∈ (x, y) :: ps)) by by left.
        by case_decide.
      * rewrite lookup_insert_ne by done.
        destruct (decide (key ∈ ps)) as [Hin|Hnin].
        -- by rewrite decide_True by by right.
        -- rewrite decide_False; [done|].
           intros [?|?]%elem_of_cons; done.
    + intros q. rewrite Hw, Hw1. split.
      * intros [[?|[-> Hback]]|(x' & y' & Hin & -> & Hback)].
        -- by left.
        -- right. exists x, y. split; [by left|]. split; [done|].
           by apply Hmono.
        -- right. exists x', y'. split; [by right|done].
      * intros [?|(x' & y' & Hin & -> & Hback)]; [by left; left|].
        apply elem_of_cons in Hin as [[= -> ->]|Hin].
        -- rewrite Hcells in Hback. case_decide as Hyx.
           ++ right. exists y, x. split; [done|].
              split; [unfold sorted_pair; f_equal; lia|].
              apply Hmono. rewrite Hcells1. apply lookup_insert_eq.
           ++ left. right. by split.
        -- right. by exists x', y'.
Qed.

Lemma pass_spec x y m m' :
  pass x m y = Some m' →
  same_population m m'
  ∧ waiting_matches m' = waiting_matches m
  ∧ dok_matrix.cells (matrix m')
    = <[(x, y) := (-1)%Z]> (dok_matrix.cells (matrix m)).
Proof.
  unfold pass, dok_matrix.set.
  destruct (dok_matrix.in_shape (matrix m) x y); simpl; [|done].
  by intros [= <-].
Qed.

Lemma passes_spec (ps : list (nat * nat)) : ∀ m m',
  for_each (λ m p, pass p.1 m p.2) ps m = Some m' →
  same_population m m'
  ∧ waiting_matches m' = waiting_matches m
  ∧ ∀ key, dok_matrix.cells (matrix m') !! key
           = if decide (key ∈ ps) then Some (-1)%Z
             else dok_matrix.cells (matrix m) !! key.
Proof.
  induction ps as [|[x y] ps IH]; intros m m'; simpl.
  - by intros [= <-].
  - destruct (pass x m y) as [m1|] eqn:Hpass; simpl; [|done].
    intros Hrest. apply pass_spec in Hpass as (Hpop1 & Hw1 & Hcells1).
    apply IH in Hrest as (Hpop & Hw & Hcells).
    split; [|split].
    + destruct Hpop1 as (?&?&?&?&?), Hpop as (?&?&?&?&?).
      repeat split; congruence.
    + congruence.
    + intros key. rewrite Hcells, Hcells1.
      destruct (decide (key = (x, y))) as [->|Hne].
      * rewrite lookup_insert_eq.
        rewrite (decide_True (P := (x, y) ∈ (x, y) :: ps)) by by left.
        by case_decide.
      * rewrite lookup_insert_ne by done.
        destruct (decide (key ∈ ps)) as [Hin|Hnin].
        -- by rewrite decide_True by by right.
        -- rewrite decide_False; [done|].
           intros [?|?]%elem_of_cons; done.
Qed.

End random_resolution.

Section random_matches.
Context {S : Type} `{!Agent.Strategy S}.
Import RandomAgentMatcher.
Implicit Types (m : t S) (a b : Agent.t S) (l : list (Agent.t S)).

Lemma same_bookkeeping_refl a : same_bookkeeping a a.
Proof. by repeat split. Qed.

Lemma same_bookkeeping_trans a1 a2 a3 :
  same_bookkeeping a1 a2 → same_bookkeeping a2 a3 →
  same_bookkeeping a1 a3.
Proof.
  unfold same_bookkeeping. intros (?&?&?&?&?&?) (?&?&?&?&?&?).
  repeat split; congruence.
Qed.

Lemma get_matched_spec a b a' :
  Agent.get_matched a b = Some a' →
  same_bookkeeping a a'
  ∧ Agent.matched a' = Agent.matched a ∪ {[Agent.id b]}
  ∧ Agent.match_count a' = Datatypes.S (Agent.match_count a).
Proof.
  unfold Agent.get_matched.
  destruct (Agent.calculate_happiness _ b) as [h|]; simpl; [|done].
  by intros [= <-].
Qed.

Lemma dense_ids_same l l' :
  dense_ids l →
  (∀ i a, l !! i = Some a →
     ∃ a', l' !! i = Some a' ∧ Agent.id a' = Agent.id a) →
  length l' = length l → dense_ids l'.
Proof.
  intros Hd Hsame Hlen i a' Ha'.
  destruct (lookup_lt_is_Some_2 l i) as [a Ha];
    [rewrite <- Hlen; by eapply lookup_lt_Some|].
  destruct (Hsame i a Ha) as (a2 & Ha2 & Hid).
  rewrite Ha' in Ha2. injection Ha2 as <-. rewrite Hid. by apply Hd.
Qed.

Lemma notify_spec i j l l' :
  notify i j l = Some l' →
  length l' = length l
  ∧ ∀ k a, l !! k = Some a →
      ∃ a', l' !! k = Some a' ∧ same_bookkeeping a a'
            ∧ (dense_ids l →
               ∀ z, z ∈ Agent.matched a'
                    ↔ z ∈ Agent.matched a ∨ (k, z) = (i, j)).
Proof.
  unfold notify, AgentMatcher.get_agent_by_id.
  destruct (l !! i) as [a|] eqn:Ha; simpl; [|done].
  destruct (l !! j) as [b|] eqn:Hb; simpl; [|done].
  destruct (Agent.get_matched a b) as [a'|] eqn:Hm; simpl; [|done].
  intros [= <-]. apply get_matched_spec in Hm as (Hbook & Hmatched & _).
  split; [apply length_insert|].
  intros k a0 Hk. destruct (decide (k = i)) as [->|Hne].
  - rewrite Ha in Hk. injection Hk as <-. exists a'.
    split; [apply list_lookup_insert_eq; by eapply lookup_lt_Some|].
    split; [done|]. intros Hd z. rewrite Hmatched, (Hd j b Hb).
    rewrite elem_of_union, elem_of_singleton. naive_solver.
  - exists a0. rewrite list_lookup_insert_ne by done.
    split; [done|]. split; [apply same_bookkeeping_refl|].
    intros _ z. naive_solver.
Qed.

Lemma matches_spec (pairs : list (nat * nat)) : ∀ l l',
  for_each process_match pairs l = Some l' →
  length l' = length l
  ∧ ∀ k a, l !! k = Some a →
      ∃ a', l' !! k = Some a' ∧ same_bookkeeping a a'
            ∧ (dense_ids l →
               ∀ z, z ∈ Agent.matched a'
                    ↔ z ∈ Agent.matched a
                      ∨ (k, z) ∈ get_matched_calls pairs).
Proof.
  induction pairs as [|[x y] pairs IH]; intros l l'; simpl.
  - intros [= <-]. split; [done|]. intros k a Hk. exists a.
    split; [done|]. split; [apply same_bookkeeping_refl|].
    intros _ z. split; [auto|]. intros [?|?%elem_of_nil]; done.
  - destruct (process_match l (x, y)) as [l2|] eqn:Hpm; simpl; [|done].
    intros Hrest. unfold process_match in Hpm. simpl in Hpm.
    destruct (notify x y l) as [l1|] eqn:H1; simpl in Hpm; [|done].
    rename Hpm into H2.
    apply notify_spec in H1 as (Hlen1 & H1).
    apply notify_spec in H2 as (Hlen2 & H2).
    apply IH in Hrest as (Hlen & Hrest).
    split; [congruence|]. intros k a Hk.
    destruct (H1 k a Hk) as (a1 & Hk1 & Hb1 & Hm1).
    destruct (H2 k a1 Hk1) as (a2 & Hk2 & Hb2 & Hm2).
    destruct (Hrest k a2 Hk2) as (a' & Hk' & Hb' & Hm').
    exists a'. split; [done|].
    split; [eauto using same_bookkeeping_trans|].
    intros Hd.
    assert (dense_ids l1) as Hd1.
    { eapply dense_ids_same; [exact Hd| |done].
      intros i b Hi. destruct (H1 i b Hi) as (b' & ? & (?&_) & _).
      by exists b'. }
    assert (dense_ids l2) as Hd2.
    { eapply dense_ids_same; [exact Hd1| |done].
      intros i b Hi. destruct (H2 i b Hi) as (b' & ? & (?&_) & _).
      by exists b'. }
    intros z. rewrite (Hm' Hd2), (Hm2 Hd1), (Hm1 Hd).
    rewrite !elem_of_cons. naive_solver.
Qed.

Lemma log_state_same_bookkeeping a (k : nat) (vs : list string) :
  same_bookkeeping a (Agent.log_state a k vs)
  ∧ Agent.matched (Agent.log_state a k vs) = Agent.matched a.
Proof.
  pose proof (log_state_same_but_history a k vs) as Hh.
  unfold same_but_history in Hh.
  destruct (Agent.log_state a k vs). rewrite <- Hh. by repeat split.
Qed.

End random_matches.

(** ** What a round does to the population *)

Section random_summary.
Context {S : Type} `{!Agent.Strategy S}.
Import RandomAgentMatcher.
Implicit Types (m : t S) (a b : Agent.t S) (c : Choices).

Lemma dense_ids_NoDup (l : list (Agent.t S)) :
  dense_ids l → NoDup (Agent.id <$> l).
Proof.
  intros Hd. apply NoDup_alt. intros i j x Hi Hj.
  rewrite list_lookup_fmap in Hi, Hj.
  destruct (l !! i) as [a|] eqn:Ha; [|done].
  destruct (l !! j) as [b|] eqn:Hb; [|done].
  simpl in *. apply Hd in Ha, Hb. congruence.
Qed.

Lemma served_spec c m i a a' l p :
  choices_ok c → served c m i a a' l p →
  Agent.id a' = Agent.id a
  ∧ Agent.like_allowance a' = Agent.like_allowance a
  ∧ Agent.matched a' = Agent.matched a
  ∧ Agent.liked a' = Agent.liked a ∪ l
  ∧ Agent.passed a' = Agent.passed a ∪ p
  ∧ l ⊆ get_available_candidates m a
  ∧ p ⊆ get_available_candidates m a
  ∧ (NoDup (Agent.id <$> agents m) → l ## p)
  ∧ (0 ≤ Agent.like_allowance a →
     0 ≤ Agent.remaining_likes a' ≤ Agent.like_allowance a
     ∧ Z.of_nat (size l) ≤ Agent.like_allowance a)%Z.
Proof.
  intros Hc (mi & ds & Hsame & Hids & Hrec & Has).
  pose proof (replenish_fields a) as (Rid & Ral & Rrem & Rl & Rp & Rm & _).
  pose proof (assess_candidates_spec _ _ _ _ _ Has)
    as (Hid & Hal & Hl & Hp & Hm & _ & _ & Hl' & Hp' & _).
  apply recommend_spec in Hrec as [Hav Hnd]; [|done].
  rewrite (get_available_candidates_same m mi a (Agent.replenish a))
    in Hav by done.
  assert (∀ v x, x ∈ verdict_ids v (consulted (Agent.replenish a) ds) →
                 x ∈ get_available_candidates m a) as Hsub.
  { intros v x Hx%verdict_ids_subseteq.
    apply list_elem_of_fmap in Hx as (d & -> & Hd).
    apply Hav. by eapply subseteq_take. }
  split; [congruence|]. split; [congruence|]. split; [congruence|].
  split; [congruence|]. split; [congruence|].
  split; [intros x; rewrite Hl', elem_of_list_to_set; apply Hsub|].
  split; [intros x; rewrite Hp', elem_of_list_to_set; apply Hsub|].
  split.
  - intros Hnd' x. rewrite Hl', Hp', !elem_of_list_to_set.
    apply verdict_ids_disjoint, Hnd. by rewrite Hids.
  - intros Hpos.
    apply assess_candidates_allowance in Has; [|by rewrite Rrem].
    rewrite Rrem in Has. lia.
Qed.

Lemma elem_of_walk c (d : list (nat * gset nat)) (x y : nat) :
  choices_ok c →
  (x, y) ∈ walk c d ↔ ∃ L, (x, L) ∈ d ∧ y ∈ L.
Proof.
  intros Hc. unfold walk. rewrite list_elem_of_bind. split.
  - intros ([x' L] & Hin & Hd). simpl in Hin.
    apply list_elem_of_fmap in Hin as (y' & [= -> ->] & Hy).
    rewrite (set_order_perm c Hc) in Hy. apply elem_of_elements in Hy.
    by exists L.
  - intros (L & Hd & Hy). exists (x, L). split; [|done]. simpl.
    apply list_elem_of_fmap. exists y. split; [done|].
    rewrite (set_order_perm c Hc). by apply elem_of_elements.
Qed.

(** The loop of a round, agent by agent: the likes [l] and the passes [p]
    of the agent at each position are new, disjoint, and what the round
    will walk for this agent. *)
Lemma collect_summary c m mc RL RP :
  choices_ok c → dense_ids (agents m) →
  collect c m = Some (mc, RL, RP) →
  same_but_agents m mc
  ∧ length (agents mc) = length (agents m)
  ∧ ∀ i,
      (agents m !! i = None
       ∧ ∀ y, ((i, y) ∉ walk c RL) ∧ (i, y) ∉ walk c RP)
      ∨ ∃ a a1 l p,
          agents m !! i = Some a ∧ agents mc !! i = Some a1
          ∧ Agent.id a1 = Agent.id a
          ∧ Agent.matched a1 = Agent.matched a
          ∧ Agent.liked a1 = Agent.liked a ∪ l
          ∧ Agent.passed a1 = Agent.passed a ∪ p
          ∧ l ⊆ get_available_candidates m a
          ∧ p ⊆ get_available_candidates m a
          ∧ l ## p
          ∧ (∀ y, (i, y) ∈ walk c RL ↔ y ∈ l)
          ∧ (∀ y, (i, y) ∈ walk c RP ↔ y ∈ p).
Proof.
  intros Hc Hd Hcollect. apply collect_prefix in Hcollect
    as (Hsame & Hids & _ & Hdone & Hdict).
  destruct (Hdict Hd) as (HndL & HndP & Hkeys).
  assert (length (agents mc) = length (agents m)) as Hlen.
  { by rewrite <- (length_fmap Agent.id), Hids, length_fmap. }
  split; [done|]. split; [done|]. intros i.
  assert (∀ x L, (x, L) ∈ RL → x ∈ RL.*1) as HkL.
  { intros x L Hin. apply list_elem_of_fmap. by exists (x, L). }
  assert (∀ x L, (x, L) ∈ RP → x ∈ RP.*1) as HkP.
  { intros x L Hin. apply list_elem_of_fmap. by exists (x, L). }
  destruct (agents m !! i) as [a|] eqn:Ha.
  - right. destruct (Hdone i a) as [[Hel Hi]|(Hnel & a' & l & p & Hi & Hs & Hent)];
      [by eapply lookup_lt_Some|done|..].
    + assert (∀ y, ((i, y) ∉ walk c RL) ∧ (i, y) ∉ walk c RP) as Hno.
      { intros y. split.
        - intros (L & HL%HkL & _)%elem_of_walk; [|done].
          destruct (Hkeys i) as (_ & b & Hb & Hnb); [by left|]. congruence.
        - intros (L & HL%HkP & _)%elem_of_walk; [|done].
          destruct (Hkeys i) as (_ & b & Hb & Hnb); [by right|].
          congruence. }
      exists a, a, ∅, ∅. do 4 (split; [done|]).
      do 2 (split; [by rewrite (right_id_L ∅ (∪))|]).
      do 2 (split; [apply empty_subseteq|]).
      split; [apply disjoint_empty_l|].
      split; intros y; destruct (Hno y);
        (split; [done|by intros ?%elem_of_empty]).
    + destruct (Hent Hd) as [HinL HinP].
      pose proof (served_spec c m i a a' l p Hc Hs)
        as (?&?&?&?&?&?&?&Hdisj&_).
      exists a, a', l, p. repeat split; try done.
      * by apply Hdisj, dense_ids_NoDup.
      * intros (L & HL & Hy)%elem_of_walk; [|done].
        by rewrite (NoDup_keys_unique RL i l L).
      * intros Hy. apply elem_of_walk; [done|]. by exists l.
      * intros (L & HL & Hy)%elem_of_walk; [|done].
        by rewrite (NoDup_keys_unique RP i p L).
      * intros Hy. apply elem_of_walk; [done|]. by exists p.
  - left. split; [done|]. intros y. split.
    + intros (L & HL%HkL & _)%elem_of_walk; [|done].
      destruct (Hkeys i) as (_ & b & Hb & _); [by left|]. congruence.
    + intros (L & HL%HkP & _)%elem_of_walk; [|done].
      destruct (Hkeys i) as (_ & b & Hb & _); [by right|]. congruence.
Qed.

End random_summary.

Section random_resolve.
Context {S : Type} `{!Agent.Strategy S}.
Import RandomAgentMatcher.
Implicit Types (m : t S) (a b : Agent.t S) (c : Choices).

Lemma mutual_sym (x : dok_matrix.t) (i j : nat) :
  mutual x i j → mutual x j i.
Proof. unfold mutual. tauto. Qed.

Lemma sorted_pair_sym (i j : nat) : sorted_pair i j = sorted_pair j i.
Proof. unfold sorted_pair. f_equal; lia. Qed.

Lemma sorted_pair_lt (i j x y : nat) :
  i < j → (i, j) = sorted_pair x y → (x = i ∧ y = j) ∨ (x = j ∧ y = i).
Proof. unfold sorted_pair. intros Hlt [= Hi Hj]. lia. Qed.

Lemma elem_of_available m a (y : nat) :
  y ∈ get_available_candidates m a
  ↔ y ∈ agent_ids m ∧ (y ∉ Agent.liked a) ∧ (y ∉ Agent.passed a)
    ∧ y ≠ Agent.id a ∧ (y ∉ eliminated_agents m).
Proof.
  unfold get_available_candidates, Agent.get_assessed_candidates.
  rewrite !elem_of_difference, !elem_of_union, elem_of_singleton. tauto.
Qed.

(** The state in which [process_matches] starts: the matrix records the
    likes of the agents, and the pairs that wait are the pairs that like
    each other now and did not before the round. *)
Lemma resolve_likes_spec c m registered m1 :
  choices_ok c → consistent m registered →
  resolve_likes c m = Some m1 →
  dense_ids (agents m1)
  ∧ length (agents m1) = length (agents m)
  ∧ agent_ids m1 = agent_ids m
  ∧ (∀ i j, dok_matrix.cells (matrix m1) !! (i, j) = Some 1%Z
            ↔ ∃ a1, agents m1 !! i = Some a1 ∧ j ∈ Agent.liked a1)
  ∧ (∀ i a, agents m !! i = Some a →
       ∃ a1, agents m1 !! i = Some a1
             ∧ Agent.matched a1 = Agent.matched a
             ∧ Agent.liked a ⊆ Agent.liked a1
             ∧ Agent.passed a ⊆ Agent.passed a1)
  ∧ (∀ q, q ∈ waiting_matches m1
          ↔ ∃ x y, q = sorted_pair x y ∧ mutual (matrix m1) x y
                   ∧ ¬ mutual (matrix m) x y).
Proof.
  intros Hc [Hdense Hids Hwait Hcells Hsorted Hreg Hmatched] Hres.
  unfold resolve_likes in Hres.
  destruct (collect c (set_round m (round m + 1)))
    as [[[mc RL] RP]|] eqn:Hcol; simpl in Hres; [|done].
  destruct (process_likes c RL mc) as [ml|] eqn:Hlikes;
    simpl in Hres; [|done].
  rewrite process_likes_walk in Hlikes.
  rewrite process_passes_walk in Hres.
  apply likes_spec in Hlikes as (Hpopl & Hcellsl & Hwl).
  apply passes_spec in Hres as (Hpop1 & Hw1 & Hcells1).
  apply collect_summary in Hcol as (Hsame & Hlen & Hsum); [|done..].
  apply same_but_agents_fields in Hsame
    as (Hidsc & _ & Hmatc & _ & Hwaitc & Helc).
  simpl in *.
  destruct Hpopl as (Hagl & Hidsl & _ & _ & _).
  destruct Hpop1 as (Hag1 & Hids1 & _ & _ & _).
  rewrite Hmatc in Hcellsl. rewrite Hwaitc, Hwait in Hwl.
  rewrite Hag1, Hagl, Hids1, Hidsl, Hidsc, Hw1.
  (* the cells that hold a like, after [process_likes] *)
  assert (∀ i j, dok_matrix.cells (matrix ml) !! (i, j) = Some 1%Z
                 ↔ ∃ a1, agents mc !! i = Some a1 ∧ j ∈ Agent.liked a1)
    as Hl.
  { intros i j. rewrite Hcellsl.
    destruct (Hsum i) as [[Hnone Hno]
      |(a & a1 & l & p & Ha & Ha1 & _ & _ & Hla & _ & _ & _ & _ & HwL & _)].
    - destruct (Hno j) as [HnoL _]. rewrite decide_False by done.
      rewrite Hcells, Hnone. split; [by intros (?&?&_)|].
      intros (a1 & Ha1%lookup_lt_Some & _).
      apply lookup_ge_None in Hnone. lia.
    - case_decide as Hin.
      + split; [|done]. intros _. exists a1. split; [done|].
        rewrite Hla. apply HwL in Hin. apply elem_of_union. by right.
      + rewrite Hcells, Ha, Ha1. rewrite HwL in Hin. split.
        * intros (? & [= <-] & Hj). exists a1. split; [done|].
          rewrite Hla. apply elem_of_union. by left.
        * intros (? & [= <-] & Hj). exists a. split; [done|].
          rewrite Hla in Hj. by apply elem_of_union in Hj as [Hj|Hj]. }
  (* a pass of the round never lands on a like *)
  assert (∀ i j, dok_matrix.cells (matrix m1) !! (i, j) = Some 1%Z
                 ↔ dok_matrix.cells (matrix ml) !! (i, j) = Some 1%Z)
    as H1.
  { intros i j. rewrite Hcells1. case_decide as Hin; [|done].
    split; [done|]. intros Hlike. exfalso.
    apply Hl in Hlike as (a1' & Ha1' & Hj).
    destruct (Hsum i) as [[_ Hno]
      |(a & a1 & l & p & Ha & Ha1 & _ & _ & Hla & _ & _ & Hp & Hlp & _ & HwP)].
    - by destruct (Hno j).
    - rewrite Ha1 in Ha1'. injection Ha1' as <-.
      apply HwP in Hin. rewrite Hla in Hj.
      pose proof (Hp _ Hin) as (_ & Hnl & _)%elem_of_available.
      apply elem_of_union in Hj as [Hj|Hj]; [done|]. by apply (Hlp j). }
  (* a like of the round is new *)
  assert (∀ x y, (x, y) ∈ walk c RL →
                 dok_matrix.cells (matrix m) !! (x, y) ≠ Some 1%Z) as Hnew.
  { intros x y Hin Hold. apply Hcells in Hold as (a' & Ha' & Hy).
    destruct (Hsum x) as [[_ Hno]
      |(a & a1 & l & p & Ha & _ & _ & _ & _ & _ & Hlsub & _ & _ & HwL & _)].
    - by destruct (Hno y).
    - simpl in Ha. rewrite Ha in Ha'. injection Ha' as <-.
      apply HwL, Hlsub in Hin.
      by apply elem_of_available in Hin as (_ & Hnl & _). }
  split.
  { intros i a1 Ha1.
    destruct (Hsum i) as [[Hnone _]|(a & a1' & _ & _ & Ha & Ha1' & Hid & _)].
    - apply lookup_lt_Some in Ha1. apply lookup_ge_None in Hnone.
      simpl in *. lia.
    - rewrite Ha1 in Ha1'. injection Ha1' as <-. rewrite Hid.
      by apply Hdense. }
  split; [done|]. split; [done|].
  split; [intros i j; by rewrite H1, Hl|].
  split.
  { intros i a Ha.
    destruct (Hsum i) as [[Hnone _]
      |(a' & a1 & l & p & Ha' & Ha1 & _ & Hm & Hla & Hpa & _)].
    - simpl in Hnone. congruence.
    - simpl in Ha'. rewrite Ha in Ha'. injection Ha' as <-.
      exists a1. split; [done|]. split; [done|].
      rewrite Hla, Hpa. split; apply union_subseteq_l. }
  intros q. rewrite Hwl. unfold mutual. split.
  - intros [?%elem_of_empty|(x & y & Hin & -> & Hback)]; [done|].
    exists x, y. split; [done|]. rewrite !H1. split.
    + split; [|done]. rewrite Hcellsl. by rewrite decide_True.
    + intros [Hold _]. by eapply Hnew.
  - intros (x & y & -> & [Hxy Hyx] & Hnot). right.
    rewrite H1 in Hxy, Hyx.
    destruct (decide ((x, y) ∈ walk c RL)) as [Hin|Hnin].
    + by exists x, y.
    + destruct (decide ((y, x) ∈ walk c RL)) as [Hin'|Hnin'].
      * exists y, x. split; [done|]. by rewrite sorted_pair_sym.
      * exfalso. apply Hnot.
        rewrite Hcellsl in Hxy, Hyx.
        rewrite decide_False in Hxy by done.
        by rewrite decide_False in Hyx by done.
Qed.

End random_resolve.

(** ** Runs of the random matcher *)

Lemma occurrences_app (p : nat * nat) (l k : list (nat * nat)) :
  occurrences p (l ++ k) = occurrences p l + occurrences p k.
Proof. unfold occurrences. by rewrite filter_app, length_app. Qed.

Lemma occurrences_cons (p q : nat * nat) (l : list (nat * nat)) :
  occurrences p (q :: l)
  = (if decide (q = p) then 1 else 0) + occurrences p l.
Proof.
  unfold occurrences. rewrite filter_cons. by destruct (decide (q = p)).
Qed.

Lemma occurrences_NoDup (p : nat * nat) (l : list (nat * nat)) :
  NoDup l → occurrences p l = if decide (p ∈ l) then 1 else 0.
Proof.
  induction 1 as [|q l Hq Hl IH]; [done|].
  rewrite occurrences_cons, IH.
  destruct (decide (q = p)) as [->|Hne].
  - rewrite decide_False by done. by rewrite decide_True by by left.
  - destruct (decide (p ∈ l)).
    + by rewrite decide_True by by right.
    + rewrite decide_False; [done|]. intros [?|?]%elem_of_cons; done.
Qed.

Lemma occurrences_pos (p : nat * nat) (l : list (nat * nat)) :
  0 < occurrences p l → p ∈ l.
Proof.
  unfold occurrences. intros Hpos.
  destruct (filter (λ q, q = p) l) as [|q k] eqn:Hf; [simpl in Hpos; lia|].
  assert (q ∈ filter (λ q, q = p) l) as Hq by (rewrite Hf; by left).
  by apply list_elem_of_filter in Hq as [-> ?].
Qed.

Lemma occurrences_NoDup_or_zero (p : nat * nat) (l : list (nat * nat)) :
  p ∉ l → occurrences p l = 0.
Proof.
  intros Hp. unfold occurrences. rewrite filter_none; [done|].
  intros q Hq ->. done.
Qed.

Lemma get_matched_calls_cons (p : nat * nat) (l : list (nat * nat)) :
  get_matched_calls (p :: l)
  = (p.1, p.2) :: (p.2, p.1) :: get_matched_calls l.
Proof. done. Qed.

Lemma occurrences_calls (i j : nat) (l : list (nat * nat)) :
  i ≠ j →
  occurrences (i, j) (get_matched_calls l)
  = occurrences (i, j) l + occurrences (j, i) l.
Proof.
  intros Hne. induction l as [|[x y] l IH]; [done|].
  rewrite get_matched_calls_cons, !occurrences_cons, IH. simpl.
  repeat case_decide; simplify_eq; lia.
Qed.

Lemma get_matched_calls_app (l k : list (nat * nat)) :
  get_matched_calls (l ++ k) = get_matched_calls l ++ get_matched_calls k.
Proof. apply bind_app. Qed.

Section random_runs.
Context {S : Type} `{!Agent.Strategy S}.
Import RandomAgentMatcher.
Implicit Types (m : t S) (a b : Agent.t S) (c : Choices).
#[local] Arguments Agent.log_state : simpl never.

Lemma run_new_round_resolved c m m' :
  run_new_round c m = Some m' →
  ∃ m1 l2, resolve_likes c m = Some m1
    ∧ for_each process_match (pair_order c (waiting_matches m1)) (agents m1)
      = Some l2
    ∧ m' = log_agents (set_waiting_matches (set_agents m1 l2) ∅).
Proof.
  unfold run_new_round, process_matches.
  destruct (resolve_likes c m) as [m1|] eqn:Hres; simpl; [|done].
  destruct (for_each process_match _ _) as [l2|] eqn:Hfe; simpl; [|done].
  intros [= <-]. by exists m1, l2.
Qed.

(** A round keeps the population consistent. *)
Lemma round_consistent c m registered m1 m' :
  choices_ok c → consistent m registered →
  resolve_likes c m = Some m1 →
  run_new_round c m = Some m' →
  consistent m' (registered ++ pair_order c (waiting_matches m1)).
Proof.
  intros Hc Hcons Hres Hrun.
  apply run_new_round_resolved in Hrun as (m1' & l2 & Hres' & Hfe & ->).
  rewrite Hres in Hres'. injection Hres' as <-.
  pose proof (resolve_likes_spec c m registered m1 Hc Hcons Hres)
    as (Hdense1 & Hlen1 & Hids1 & Hcells1 & Hkeep & Hwait1).
  destruct Hcons as [Hdense Hids Hwait Hcells Hsorted Hreg Hmatched].
  apply matches_spec in Hfe as (Hlen2 & Hm2).
  set (new := pair_order c (waiting_matches m1)) in *.
  assert (∀ q, q ∈ new ↔ q ∈ waiting_matches m1) as Hnew.
  { intros q. unfold new. rewrite (pair_order_perm c Hc).
    apply elem_of_elements. }
  assert (NoDup new) as Hnd.
  { unfold new. rewrite (pair_order_perm c Hc). apply NoDup_elements. }
  (* the agent at each position, round after round *)
  assert (∀ i a', agents (log_agents (set_waiting_matches
                                        (set_agents m1 l2) ∅)) !! i
                  = Some a' →
            ∃ a1, agents m1 !! i = Some a1 ∧ same_bookkeeping a1 a'
              ∧ ∀ z, z ∈ Agent.matched a'
                     ↔ z ∈ Agent.matched a1
                       ∨ (i, z) ∈ get_matched_calls new) as Hchain.
  { intros i a' Ha'. simpl in Ha'. rewrite list_lookup_fmap in Ha'.
    destruct (l2 !! i) as [a2|] eqn:Ha2; [|done]. injection Ha' as <-.
    destruct (lookup_lt_is_Some_2 (agents m1) i) as [a1 Ha1];
      [rewrite <- Hlen2; by eapply lookup_lt_Some|].
    destruct (Hm2 i a1 Ha1) as (a2' & Ha2' & Hbook & Hmat).
    rewrite Ha2 in Ha2'. injection Ha2' as <-.
    destruct (log_state_same_bookkeeping a2 (round m1)
                ["match_count"; "happiness"]) as [Hlog Hlogm].
    exists a1. split; [done|].
    split; [by eapply same_bookkeeping_trans|].
    intros z. rewrite Hlogm. by apply Hmat. }
  assert (∀ i a1, agents m1 !! i = Some a1 →
            ∃ a', agents (log_agents (set_waiting_matches
                                        (set_agents m1 l2) ∅)) !! i
                  = Some a') as Hback.
  { intros i a1 Ha1. simpl. rewrite list_lookup_fmap.
    destruct (Hm2 i a1 Ha1) as (a2 & -> & _). by eexists. }
  split.
  - intros i a' Ha'. destruct (Hchain i a' Ha') as (a1 & Ha1 & (Hid&_) & _).
    rewrite Hid. by apply Hdense1.
  - intros x. simpl. rewrite length_fmap, Hlen2, Hlen1, Hids1. apply Hids.
  - done.
  - intros i j. simpl. rewrite Hcells1. split.
    + intros (a1 & Ha1 & Hj). destruct (Hback i a1 Ha1) as [a' Ha'].
      exists a'. split; [done|].
      destruct (Hchain i a' Ha') as (a1' & Ha1' & (_&_&_&Hl&_) & _).
      rewrite Ha1 in Ha1'. injection Ha1' as <-. by rewrite Hl.
    + intros (a' & Ha' & Hj).
      destruct (Hchain i a' Ha') as (a1 & Ha1 & (_&_&_&Hl&_) & _).
      exists a1. split; [done|]. by rewrite <- Hl.
  - intros p [Hp|Hp]%elem_of_app; [by apply Hsorted|].
    apply Hnew, Hwait1 in Hp as (x & y & -> & _). simpl. lia.
  - intros i j Hij. simpl. rewrite occurrences_app, Hreg by done.
    rewrite occurrences_NoDup by done.
    assert (mutual (matrix m) i j → mutual (matrix m1) i j) as Hmono.
    { assert (∀ x y, dok_matrix.cells (matrix m) !! (x, y) = Some 1%Z →
                     dok_matrix.cells (matrix m1) !! (x, y) = Some 1%Z)
        as Hcell.
      { intros x y (a & Ha & Hy)%Hcells.
        destruct (Hkeep x a Ha) as (a1 & Ha1 & _ & Hsub & _).
        apply Hcells1. exists a1. split; [done|]. by apply Hsub. }
      intros [??]. split; by apply Hcell. }
    assert ((i, j) ∈ new
            ↔ mutual (matrix m1) i j ∧ ¬ mutual (matrix m) i j) as Hin.
    { rewrite Hnew, Hwait1. split.
      - intros (x & y & Heq & Hmut & Hnot).
        apply sorted_pair_lt in Heq as [[-> ->]|[-> ->]]; [done| |done].
        split; [by apply mutual_sym|].
        intros ?. by apply Hnot, mutual_sym.
      - intros [Hmut Hnot]. exists i, j. split; [|done].
        unfold sorted_pair. f_equal; lia. }
    destruct (decide (mutual (matrix m) i j)) as [Hold|Hold],
      (decide ((i, j) ∈ new)) as [Hn|Hn],
      (decide (mutual (matrix m1) i j)) as [Hnow|Hnow];
      try reflexivity; exfalso; rewrite Hin in Hn; tauto.
  - intros i a' j Ha'.
    destruct (Hchain i a' Ha') as (a1 & Ha1 & _ & Hmat).
    rewrite Hmat, get_matched_calls_app, elem_of_app.
    destruct (lookup_lt_is_Some_2 (agents m) i) as [a Ha];
      [rewrite <- Hlen1; by eapply lookup_lt_Some|].
    destruct (Hkeep i a Ha) as (a1' & Ha1' & Hsame & _).
    rewrite Ha1 in Ha1'. injection Ha1' as <-.
    by rewrite Hsame, (Hmatched i a j Ha).
Qed.

End random_runs.

Section random_claims.
Context {S : Type} `{!Agent.Strategy S}.
Import RandomAgentMatcher.
Implicit Types (m : t S) (a b : Agent.t S) (c : Choices).

Lemma eliminate_bottom_fields (q : R) m m' :
  eliminate_bottom q m = Some m' →
  agents m' = agents m ∧ agent_ids m' = agent_ids m
  ∧ matrix m' = matrix m ∧ waiting_matches m' = waiting_matches m
  ∧ round m' = round m
  ∧ eliminated_agents m ⊆ eliminated_agents m'.
Proof.
  unfold eliminate_bottom.
  destruct (np_percentile _ q) as [v|]; simpl; [|done].
  intros [= <-]. simpl. repeat split.
  intros x Hx. apply eliminate_loop_spec. by left.
Qed.

Lemma step_consistent m registered new m' :
  consistent m registered → step m new m' →
  consistent m' (registered ++ new).
Proof.
  intros Hcons [c m1 m2 Hc Hres Hrun|q m2 Hel].
  - by eapply round_consistent.
  - apply eliminate_bottom_fields in Hel as (Hag & Hids & Hmat & Hw & _).
    rewrite app_nil_r. destruct Hcons.
    split; rewrite ?Hag, ?Hids, ?Hmat, ?Hw; done.
Qed.

Lemma run_consistent m0 registered0 registered m :
  consistent m0 registered0 → run m0 registered m →
  consistent m (registered0 ++ registered).
Proof.
  intros Hcons. induction 1 as [|T m new m' Hrun IH Hstep].
  - by rewrite app_nil_r.
  - rewrite app_assoc. by eapply step_consistent.
Qed.

Lemma init_consistent (population : list (Agent.t S)) (limit : nat)
    (calc : CompatibilityCalculator.t) m :
  dense_ids population → Forall fresh population →
  init population limit calc = Some m → consistent m [].
Proof.
  intros Hd Hfresh [= <-]. rewrite Forall_forall in Hfresh.
  split; simpl; try done.
  - intros x. rewrite elem_of_list_to_set, list_elem_of_fmap. split.
    + intros (a & -> & (i & Hi)%list_elem_of_lookup).
      rewrite (Hd i a Hi). by eapply lookup_lt_Some.
    + intros Hx. destruct (lookup_lt_is_Some_2 population x Hx) as [a Ha].
      exists a. split; [by rewrite (Hd x a Ha)|].
      by eapply list_elem_of_lookup_2.
  - intros i j. split; [done|]. intros (a & Ha & Hj).
    destruct (Hfresh a) as (Hl & _); [by eapply list_elem_of_lookup_2|].
    rewrite Hl in Hj. by apply elem_of_empty in Hj.
  - intros p Hp. by apply elem_of_nil in Hp.
  - intros i a j Ha.
    destruct (Hfresh a) as (_ & _ & Hm & _); [by eapply list_elem_of_lookup_2|].
    rewrite Hm. split; [by intros ?%elem_of_empty|by intros ?%elem_of_nil].
Qed.

End random_claims.

Section exposure_and_allowance.
Context {S : Type} `{!Agent.Strategy S}.
Import RandomAgentMatcher.
Implicit Types (m : t S) (a b : Agent.t S) (c : Choices).
#[local] Arguments Agent.log_state : simpl never.

Lemma served_fields c m i a a' l p :
  served c m i a a' l p →
  Agent.id a' = Agent.id a
  ∧ Agent.like_allowance a' = Agent.like_allowance a
  ∧ Agent.liked a' = Agent.liked a ∪ l
  ∧ Agent.passed a' = Agent.passed a ∪ p
  ∧ (0 ≤ Agent.like_allowance a →
     0 ≤ Agent.remaining_likes a' ≤ Agent.like_allowance a
     ∧ Z.of_nat (size l) ≤ Agent.like_allowance a)%Z.
Proof.
  intros (mi & ds & _ & _ & _ & Has).
  pose proof (replenish_fields a) as (Rid & Ral & Rrem & Rl & Rp & _).
  pose proof (assess_candidates_spec _ _ _ _ _ Has)
    as (Hid & Hal & Hl & Hp & _).
  split; [congruence|]. split; [congruence|]. split; [congruence|].
  split; [congruence|]. intros Hpos.
  apply assess_candidates_allowance in Has; [|by rewrite Rrem].
  rewrite Rrem in Has. lia.
Qed.

(** The agent at a position, after the first [k] agents of a round were
    served: it is as at the start of the round, or it was served. *)
Lemma collect_prefix_agent c m k mk RL RP i a :
  for_each (serve c) (seq 0 k) (m, [], []) = Some (mk, RL, RP) →
  agents m !! i = Some a →
  eliminated_agents mk = eliminated_agents m
  ∧ agent_ids mk = agent_ids m
  ∧ ((agents mk !! i = Some a
      ∧ (i < k → Agent.id a ∈ eliminated_agents m))
     ∨ (i < k ∧ (Agent.id a ∉ eliminated_agents m)
        ∧ ∃ a' l p, agents mk !! i = Some a' ∧ served c m i a a' l p)).
Proof.
  intros Hpre Ha. apply collect_prefix in Hpre
    as (Hsame & _ & Hrest & Hdone & _).
  apply same_but_agents_fields in Hsame as (Hids & _ & _ & _ & _ & Hel).
  split; [done|]. split; [done|].
  destruct (decide (i < k)) as [Hlt|Hge].
  - destruct (Hdone i a Hlt Ha) as [[? ?]|(? & a' & l & p & ? & ? & _)].
    + left. by split.
    + right. split; [done|]. split; [done|]. by exists a', l, p.
  - left. split; [|lia]. rewrite Hrest by lia. done.
Qed.

(** What a whole round does to the bookkeeping of an agent. *)
Lemma run_new_round_agent c m m' i a :
  run_new_round c m = Some m' →
  agents m !! i = Some a →
  ∃ a1 a', agents m' !! i = Some a' ∧ same_bookkeeping a1 a'
    ∧ ((a1 = a ∧ Agent.id a ∈ eliminated_agents m)
       ∨ ((Agent.id a ∉ eliminated_agents m)
          ∧ ∃ l p, served c (set_round m (round m + 1)) i a a1 l p)).
Proof.
  intros Hrun Ha.
  apply run_new_round_resolved in Hrun as (m1 & l2 & Hres & Hfe & ->).
  unfold resolve_likes in Hres.
  destruct (collect c (set_round m (round m + 1)))
    as [[[mc RL] RP]|] eqn:Hcol; simpl in Hres; [|done].
  destruct (process_likes c RL mc) as [ml|] eqn:Hlikes;
    simpl in Hres; [|done].
  rewrite process_likes_walk in Hlikes.
  rewrite process_passes_walk in Hres.
  apply likes_spec in Hlikes as ((Hagl & _) & _).
  apply passes_spec in Hres as ((Hag1 & _) & _).
  apply matches_spec in Hfe as (_ & Hm2).
  pose proof (lookup_lt_Some _ _ _ Ha) as Hlt.
  destruct (collect_prefix_agent c _ _ _ _ _ i a Hcol Ha)
    as (_ & _ & Hcase).
  assert (∃ a1, agents mc !! i = Some a1
            ∧ ((a1 = a ∧ Agent.id a ∈ eliminated_agents m)
               ∨ ((Agent.id a ∉ eliminated_agents m)
                  ∧ ∃ l p, served c (set_round m (round m + 1)) i a a1 l p)))
    as (a1 & Ha1 & Hor).
  { destruct Hcase as [[? Hel]|(_ & ? & a' & l & p & ? & ?)].
    - exists a. split; [done|]. left. split; [done|]. by apply Hel.
    - exists a'. split; [done|]. right. split; [done|]. by exists l, p. }
  rewrite <- Hagl, <- Hag1 in Ha1.
  destruct (Hm2 i a1 Ha1) as (a2 & Ha2 & Hbook & _).
  exists a1, (Agent.log_state a2 (round m1) ["match_count"; "happiness"]).
  split; [simpl; by rewrite list_lookup_fmap, Ha2|].
  split; [|done].
  eapply same_bookkeeping_trans; [exact Hbook|].
  apply log_state_same_bookkeeping.
Qed.

(** C5: in every round, an agent that is served ends the round with a
    number of remaining likes between 0 and its allowance, and the round
    adds at most [like_allowance] ids to its liked set (the allowance
    being a number of likes, it is not negative). *)
Theorem allowance_bound c m m' i a a' :
  run_new_round c m = Some m' →
  agents m !! i = Some a →
  agents m' !! i = Some a' →
  Agent.id a ∉ eliminated_agents m →
  (0 ≤ Agent.like_allowance a)%Z →
  Agent.like_allowance a' = Agent.like_allowance a
  ∧ (0 ≤ Agent.remaining_likes a' ≤ Agent.like_allowance a')%Z
  ∧ (Z.of_nat (size (Agent.liked a' ∖ Agent.liked a))
     ≤ Agent.like_allowance a')%Z.
Proof.
  intros Hrun Ha Ha' Hnel Hpos.
  destruct (run_new_round_agent c m m' i a Hrun Ha)
    as (a1 & a'' & Ha'' & (_ & Hal & Hrem & Hl & _) & Hor).
  rewrite Ha' in Ha''. injection Ha'' as <-.
  destruct Hor as [[_ ?]|(_ & l & p & Hserved)]; [done|].
  apply served_fields in Hserved as (_ & Hal1 & Hl1 & _ & Hbound).
  destruct (Hbound Hpos) as [Hr Hsize].
  rewrite Hal, Hrem, Hl, Hal1, Hl1. split; [done|]. split; [lia|].
  assert (size ((Agent.liked a ∪ l) ∖ Agent.liked a) ≤ size l)
    by (apply subseteq_size; set_solver).
  lia.
Qed.

End exposure_and_allowance.

Section no_double_exposure.
Context {S : Type} `{!Agent.Strategy S}.
Import RandomAgentMatcher.
Implicit Types (m : t S) (a b : Agent.t S) (c : Choices).

Lemma step_assessed m new m' i a :
  step m new m' → agents m !! i = Some a →
  ∃ a', agents m' !! i = Some a'
    ∧ Agent.get_assessed_candidates a ⊆ Agent.get_assessed_candidates a'.
Proof.
  intros [c m1 m2 Hc Hres Hrun|q m2 Hel] Ha.
  - destruct (run_new_round_agent c m m2 i a Hrun Ha)
      as (a1 & a' & Ha' & (_ & _ & _ & Hl & Hp & _) & Hor).
    exists a'. split; [done|]. unfold Agent.get_assessed_candidates.
    rewrite Hl, Hp. destruct Hor as [[-> _]|(_ & l & p & Hserved)]; [done|].
    apply served_fields in Hserved as (_ & _ & -> & -> & _).
    apply union_mono; apply union_subseteq_l.
  - apply eliminate_bottom_fields in Hel as (Hag & _).
    exists a. by rewrite Hag.
Qed.

Lemma run_assessed m later m' i a :
  run m later m' → agents m !! i = Some a →
  ∃ a', agents m' !! i = Some a'
    ∧ Agent.get_assessed_candidates a ⊆ Agent.get_assessed_candidates a'.
Proof.
  intros Hrun Ha. induction Hrun as [|T m1 new m2 Hrun IH Hstep].
  - by exists a.
  - destruct IH as (a1 & Ha1 & Hsub).
    destruct (step_assessed _ _ _ _ _ Hstep Ha1) as (a2 & Ha2 & Hsub2).
    exists a2. split; [done|]. by etrans.
Qed.

(** C4: once the candidate [C] is in the liked or in the passed set of the
    agent at position [A], it is not an available candidate of this agent,
    in this state and in every later state of a run.  In every later
    round, when the turn of [A] comes in the loop of [run_new_round],
    whatever the agents served before it did, the agent is skipped
    (eliminated) or the list that the round recommends to it and hands to
    [assess_candidates] does not contain [C]; and a round that returns
    has had this turn. *)
Theorem no_double_exposure m (A C : nat) a :
  agents m !! A = Some a →
  C ∈ Agent.get_assessed_candidates a →
  (C ∉ get_available_candidates m a)
  ∧ ∀ later m', run m later m' →
      ∃ a', agents m' !! A = Some a'
        ∧ C ∈ Agent.get_assessed_candidates a'
        ∧ (C ∉ get_available_candidates m' a')
        ∧ (∀ c acc acc',
             choices_ok c →
             for_each (serve c) (seq 0 A) (round_start m') = Some acc →
             serve c acc A = Some acc' →
             skipped acc A acc'
             ∨ ∃ candidates_details,
                 shown c acc A candidates_details acc'
                 ∧ C ∉ Agent.d_id <$> candidates_details)
        ∧ (∀ c m'', run_new_round c m' = Some m'' →
             ∃ acc acc',
               for_each (serve c) (seq 0 A) (round_start m') = Some acc
               ∧ serve c acc A = Some acc').
Proof.
  intros Ha HC.
  assert (∀ mx b, C ∈ Agent.get_assessed_candidates b →
                  C ∉ get_available_candidates mx b) as Hexcl.
  { intros mx b Hb (_ & Hl & Hp & _)%elem_of_available.
    unfold Agent.get_assessed_candidates in Hb.
    by apply elem_of_union in Hb as [?|?]. }
  split; [by apply Hexcl|].
  intros later m' Hrun.
  destruct (run_assessed _ _ _ _ _ Hrun Ha) as (a' & Ha' & Hsub).
  exists a'. split; [done|]. split; [by apply Hsub|].
  split; [by apply Hexcl, Hsub|]. split.
  - intros c [[mk RL] RP] acc' Hc Hpre Hserve.
    destruct (collect_prefix_agent c _ A mk RL RP A a' Hpre Ha')
      as (_ & _ & Hcase).
    assert (agents mk !! A = Some a') as Hak.
    { destruct Hcase as [[? _]|(? & _)]; [done|lia]. }
    apply serve_turn in Hserve as [?|(ds & Hshown)]; [by left|right].
    exists ds. split; [done|].
    destruct Hshown as (agent & a2 & l & p & Hag & _ & Hrec & _).
    simpl in Hag, Hrec. rewrite Hak in Hag. injection Hag as <-.
    intros Hin. apply recommend_spec in Hrec as [Hav _]; [|done].
    apply list_elem_of_fmap in Hin as (d & -> & Hd).
    apply Hav in Hd. revert Hd. by apply Hexcl, Hsub.
  - intros c m'' Hround. eapply run_new_round_turns; [done|].
    by eapply lookup_lt_Some.
Qed.

End no_double_exposure.

(** ** The matches of a run, counted *)

Lemma calls_on_app (i : nat) (l k : list (nat * nat)) :
  calls_on i (l ++ k) = calls_on i l + calls_on i k.
Proof.
  unfold calls_on. by rewrite get_matched_calls_app, filter_app, length_app.
Qed.

Lemma calls_on_cons (i : nat) (p : nat * nat) (l : list (nat * nat)) :
  calls_on i (p :: l)
  = (if decide (p.1 = i) then 1 else 0)
    + (if decide (p.2 = i) then 1 else 0) + calls_on i l.
Proof.
  unfold calls_on. rewrite get_matched_calls_cons, !filter_cons. simpl.
  destruct (decide (p.1 = i)), (decide (p.2 = i)); simpl; lia.
Qed.

Lemma elem_of_get_matched_calls (x y : nat) (l : list (nat * nat)) :
  (x, y) ∈ get_matched_calls l ↔ (x, y) ∈ l ∨ (y, x) ∈ l.
Proof.
  induction l as [|[u v] l IH].
  - split; [by intros ?%elem_of_nil|by intros [?%elem_of_nil|?%elem_of_nil]].
  - rewrite get_matched_calls_cons, !elem_of_cons, IH. simpl.
    split; [intros [[= -> ->]|[[= -> ->]|[?|?]]]; auto|].
    intros [[[= -> ->]|?]|[[= -> ->]|?]]; auto.
Qed.

Lemma NoDup_get_matched_calls (l : list (nat * nat)) :
  NoDup l → (∀ p, p ∈ l → p.1 < p.2) → NoDup (get_matched_calls l).
Proof.
  induction 1 as [|[x y] l Hp Hl IH]; intros Hs; [constructor|].
  rewrite get_matched_calls_cons. simpl.
  assert (x < y) as Hxy by (apply (Hs (x, y)); by left).
  assert (∀ p, p ∈ l → p.1 < p.2) as Hs' by (intros; apply Hs; by right).
  constructor; [|constructor; [|by apply IH]].
  - intros [[= ? ?]|[?|Hyx]%elem_of_get_matched_calls]%elem_of_cons;
      [lia|done|].
    apply Hs' in Hyx. simpl in Hyx. lia.
  - intros [Hyx|?]%elem_of_get_matched_calls; [|done].
    apply Hs' in Hyx. simpl in Hyx. lia.
Qed.

Lemma NoDup_occurrences (l : list (nat * nat)) :
  (∀ p, occurrences p l ≤ 1) → NoDup l.
Proof.
  induction l as [|q l IH]; intros Hocc; [constructor|].
  constructor.
  - intros Hq. specialize (Hocc q). rewrite occurrences_cons in Hocc.
    rewrite decide_True in Hocc by done.
    assert (0 < occurrences q l); [|lia].
    unfold occurrences.
    destruct (filter (λ q0, q0 = q) l) as [|z k] eqn:Hf; [|simpl; lia].
    assert (q ∈ filter (λ q0, q0 = q) l) as Hin
      by (by apply list_elem_of_filter).
    rewrite Hf in Hin. by apply elem_of_nil in Hin.
  - apply IH. intros p. specialize (Hocc p).
    rewrite occurrences_cons in Hocc. lia.
Qed.

(** The ids that the calls on a position put in the matched set are as
    many as the calls. *)
Lemma size_matched_calls (i : nat) (X : gset nat) (l : list (nat * nat)) :
  NoDup l → (∀ p, p ∈ l → p.1 < p.2) →
  (∀ j, j ∈ X ↔ (i, j) ∈ get_matched_calls l) →
  size X = calls_on i l.
Proof.
  intros Hnd Hs HX. unfold calls_on.
  set (calls := filter (λ q, q.1 = i) (get_matched_calls l)).
  assert (NoDup calls) as Hndc.
  { apply NoDup_filter. by apply NoDup_get_matched_calls. }
  assert (NoDup calls.*2) as Hnd2.
  { apply NoDup_fmap_2_strong; [|done].
    intros [x y] [x' y'] [Hx _]%list_elem_of_filter
      [Hx' _]%list_elem_of_filter Heq. simpl in *. congruence. }
  assert (X = list_to_set (calls.*2)) as ->.
  { apply set_eq. intros j. rewrite HX, elem_of_list_to_set.
    rewrite list_elem_of_fmap. split.
    - intros Hin. exists (i, j). split; [done|].
      by apply list_elem_of_filter.
    - intros ([x y] & -> & [Hx Hin]%list_elem_of_filter).
      simpl in *. by subst. }
  rewrite size_list_to_set by done. by rewrite length_fmap.
Qed.

Section counting.
Context {S : Type} `{!Agent.Strategy S}.
Import RandomAgentMatcher.
Implicit Types (m : t S) (a b : Agent.t S) (c : Choices)
  (l : list (Agent.t S)).
#[local] Arguments Agent.log_state : simpl never.

Lemma notify_count i j l l' :
  notify i j l = Some l' →
  ∀ k a, l !! k = Some a →
    ∃ a', l' !! k = Some a'
      ∧ Agent.match_count a'
        = Agent.match_count a + if decide (i = k) then 1 else 0.
Proof.
  unfold notify, AgentMatcher.get_agent_by_id.
  destruct (l !! i) as [a|] eqn:Ha; simpl; [|done].
  destruct (l !! j) as [b|] eqn:Hb; simpl; [|done].
  destruct (Agent.get_matched a b) as [a'|] eqn:Hm; simpl; [|done].
  intros [= <-]. apply get_matched_spec in Hm as (_ & _ & Hcount).
  intros k a0 Hk. destruct (decide (i = k)) as [->|Hne].
  - rewrite Ha in Hk. injection Hk as <-. exists a'.
    split; [apply list_lookup_insert_eq; by eapply lookup_lt_Some|lia].
  - exists a0. rewrite list_lookup_insert_ne by done. split; [done|lia].
Qed.

(** [process_matches] adds to the counter of every agent the number of
    the calls of [get_matched] on it. *)
Lemma matches_count (pairs : list (nat * nat)) : ∀ l l',
  for_each process_match pairs l = Some l' →
  ∀ k a, l !! k = Some a →
    ∃ a', l' !! k = Some a'
      ∧ Agent.match_count a' = Agent.match_count a + calls_on k pairs.
Proof.
  induction pairs as [|[x y] pairs IH]; intros l l'; simpl.
  - intros [= <-] k a Hk. exists a. split; [done|].
    unfold calls_on. simpl. lia.
  - destruct (process_match l (x, y)) as [l2|] eqn:Hpm; simpl; [|done].
    intros Hrest. unfold process_match in Hpm. simpl in Hpm.
    destruct (notify x y l) as [l1|] eqn:H1; simpl in Hpm; [|done].
    intros k a Hk.
    destruct (notify_count _ _ _ _ H1 k a Hk) as (a1 & Hk1 & Hc1).
    destruct (notify_count _ _ _ _ Hpm k a1 Hk1) as (a2 & Hk2 & Hc2).
    destruct (IH _ _ Hrest k a2 Hk2) as (a' & Hk' & Hc').
    exists a'. split; [done|]. rewrite calls_on_cons. simpl. lia.
Qed.

Lemma log_state_match_count a (k : nat) (vs : list string) :
  Agent.match_count (Agent.log_state a k vs) = Agent.match_count a.
Proof.
  pose proof (log_state_same_but_history a k vs) as Hh.
  unfold same_but_history in Hh.
  destruct (Agent.log_state a k vs). by rewrite <- Hh.
Qed.

Lemma served_match_count c m i a a' lk ps :
  served c m i a a' lk ps → Agent.match_count a' = Agent.match_count a.
Proof.
  intros (mi & ds & _ & _ & _ & Has).
  by apply assess_candidates_spec in Has as (_&_&_&_&_&->&_).
Qed.

(** What a whole round does to the counter of an agent. *)
Lemma run_new_round_count c m m1 m' i a :
  resolve_likes c m = Some m1 →
  run_new_round c m = Some m' →
  agents m !! i = Some a →
  ∃ a', agents m' !! i = Some a'
    ∧ Agent.match_count a'
      = Agent.match_count a
        + calls_on i (pair_order c (waiting_matches m1)).
Proof.
  intros Hres Hrun Ha.
  apply run_new_round_resolved in Hrun as (m1' & l2 & Hres' & Hfe & ->).
  rewrite Hres in Hres'. injection Hres' as <-.
  unfold resolve_likes in Hres.
  destruct (collect c (set_round m (round m + 1)))
    as [[[mc RL] RP]|] eqn:Hcol; simpl in Hres; [|done].
  destruct (process_likes c RL mc) as [ml|] eqn:Hlikes;
    simpl in Hres; [|done].
  rewrite process_likes_walk in Hlikes.
  rewrite process_passes_walk in Hres.
  apply likes_spec in Hlikes as ((Hagl & _) & _).
  apply passes_spec in Hres as ((Hag1 & _) & _).
  destruct (collect_prefix_agent c _ _ _ _ _ i a Hcol Ha)
    as (_ & _ & Hcase).
  assert (∃ a1, agents mc !! i = Some a1
            ∧ Agent.match_count a1 = Agent.match_count a)
    as (a1 & Ha1 & Hc1).
  { destruct Hcase as [[? _]|(_ & _ & a1 & lk & ps & ? & Hserved)].
    - by exists a.
    - exists a1. split; [done|]. by eapply served_match_count. }
  rewrite <- Hagl, <- Hag1 in Ha1.
  destruct (matches_count _ _ _ Hfe i a1 Ha1) as (a2 & Ha2 & Hc2).
  exists (Agent.log_state a2 (round m1) ["match_count"; "happiness"]).
  split; [simpl; by rewrite list_lookup_fmap, Ha2|].
  rewrite log_state_match_count. lia.
Qed.

End counting.

Lemma occurrences_elem (p : nat * nat) (l : list (nat * nat)) :
  p ∈ l → 0 < occurrences p l.
Proof.
  intros Hp. unfold occurrences.
  assert (p ∈ filter (λ q, q = p) l) as Hin
    by (by apply list_elem_of_filter).
  destruct (filter (λ q, q = p) l); [by apply elem_of_nil in Hin|].
  simpl. lia.
Qed.

Section counted_runs.
Context {S : Type} `{!Agent.Strategy S}.
Import RandomAgentMatcher.
Implicit Types (m : t S) (a b : Agent.t S) (c : Choices).
#[local] Arguments Agent.log_state : simpl never.

Lemma round_counted c m registered m1 m' :
  choices_ok c → consistent m registered → counted m registered →
  resolve_likes c m = Some m1 →
  run_new_round c m = Some m' →
  counted m' (registered ++ pair_order c (waiting_matches m1)).
Proof.
  intros Hc Hcons [Hself Hstrict Hcount] Hres Hrun.
  pose proof (round_consistent c m registered m1 m' Hc Hcons Hres Hrun)
    as Hcons'.
  pose proof (resolve_likes_spec c m registered m1 Hc Hcons Hres)
    as (_ & Hlen1 & _ & _ & _ & Hwait1).
  assert (matrix m' = matrix m1 ∧ length (agents m') = length (agents m))
    as [Hmatrix Hlen].
  { pose proof Hrun as Hrun'.
    apply run_new_round_resolved in Hrun' as (m1' & l2 & Hres' & Hfe & ->).
    rewrite Hres in Hres'. injection Hres' as <-. split; [done|].
    apply matches_spec in Hfe as (Hlen2 & _).
    simpl. by rewrite length_fmap, Hlen2. }
  assert (∀ i a', agents m' !! i = Some a' →
            ∃ a, agents m !! i = Some a) as Hback.
  { intros i a' Ha'. apply lookup_lt_is_Some_2. rewrite <- Hlen.
    by eapply lookup_lt_Some. }
  assert (∀ i a', agents m' !! i = Some a' → i ∉ Agent.liked a') as Hself'.
  { intros i a' Ha'. destruct (Hback i a' Ha') as [a Ha].
    destruct (run_new_round_agent c m m' i a Hrun Ha)
      as (a1 & a'' & Ha'' & (_ & _ & _ & Hl & _) & Hor).
    rewrite Ha' in Ha''. injection Ha'' as <-. rewrite Hl.
    destruct Hor as [[-> _]|(_ & lk & ps & Hserved)]; [by eapply Hself|].
    apply served_spec in Hserved as (_&_&_&->&_&Hsub&_); [|done].
    intros [?|Hin%Hsub]%elem_of_union; [by eapply Hself|].
    apply elem_of_available in Hin as (_&_&_&Hne&_).
    apply Hne. symmetry. by apply (consistent_dense _ _ Hcons). }
  split; [done| |].
  - intros p [Hp|Hp]%elem_of_app; [by apply Hstrict|].
    rewrite (pair_order_perm c Hc) in Hp. apply elem_of_elements in Hp.
    apply Hwait1 in Hp as (x & y & -> & [Hxy _] & _).
    destruct (decide (x = y)) as [->|Hne];
      [|unfold sorted_pair; simpl; lia].
    exfalso. rewrite <- Hmatrix in Hxy.
    apply (consistent_cells _ _ Hcons') in Hxy as (a' & Ha' & Hin).
    by eapply Hself'.
  - intros i a' Ha'. destruct (Hback i a' Ha') as [a Ha].
    destruct (run_new_round_count c m m1 m' i a Hres Hrun Ha)
      as (a'' & Ha'' & Hc'').
    rewrite Ha' in Ha''. injection Ha'' as <-.
    rewrite calls_on_app, Hc''. f_equal. by apply Hcount.
Qed.

Lemma step_counted m registered new m' :
  consistent m registered → counted m registered → step m new m' →
  counted m' (registered ++ new).
Proof.
  intros Hcons Hcount [c m1 m2 Hc Hres Hrun|q m2 Hel].
  - by eapply round_counted.
  - apply eliminate_bottom_fields in Hel as (Hag & _).
    rewrite app_nil_r. destruct Hcount.
    split; rewrite ?Hag; done.
Qed.

Lemma run_counted m0 registered m :
  consistent m0 [] → counted m0 [] → run m0 registered m →
  counted m registered.
Proof.
  intros Hcons Hcount. induction 1 as [|T m new m' Hrun IH Hstep].
  - done.
  - eapply step_counted; [|done..].
    by apply (run_consistent _ _ _ _ Hcons) in Hrun.
Qed.

Lemma init_counted (population : list (Agent.t S)) (limit : nat)
    (calc : CompatibilityCalculator.t) m :
  Forall fresh population →
  init population limit calc = Some m → counted m [].
Proof.
  intros Hfresh [= <-]. rewrite Forall_forall in Hfresh.
  split; simpl.
  - intros i a Ha.
    destruct (Hfresh a) as (-> & _); [by eapply list_elem_of_lookup_2|].
    apply not_elem_of_empty.
  - intros p Hp. by apply elem_of_nil in Hp.
  - intros i a Ha.
    by destruct (Hfresh a) as (_ & _ & _ & ->);
      [by eapply list_elem_of_lookup_2|].
Qed.

(** C3: in a run of the random matcher from a fresh population, two
    distinct agents that like each other, in the same round or not, have
    exactly one match registered for their pair over the whole run (a
    pair is registered with its smaller member first), and each is in the
    matched set of the other.  [get_matched] is the only
    code that changes [match_count] and [matched]: a call adds one to the
    counter of its agent and the id of its argument to the set.  The
    matched set of each of the two agents is the set of the agents with
    whom the likes are mutual, and its counter is the size of this set: so
    [get_matched] was called on it exactly once for each of them, the
    other agent of the pair included, and never else. *)
Theorem mutual_like_matches_once
    (population : list (Agent.t S)) (limit : nat)
    (calc : CompatibilityCalculator.t) m0 registered m (A B : nat) a b :
  dense_ids population → Forall fresh population →
  init population limit calc = Some m0 →
  run m0 registered m →
  A ≠ B →
  agents m !! A = Some a → agents m !! B = Some b →
  B ∈ Agent.liked a → A ∈ Agent.liked b →
  occurrences (sorted_pair A B) registered = 1
  ∧ (∀ p, p ∈ registered → p.1 < p.2)
  ∧ B ∈ Agent.matched a ∧ A ∈ Agent.matched b
  ∧ (∀ z, z ∈ Agent.matched a
          ↔ z ∈ Agent.liked a
            ∧ ∃ partner, agents m !! z = Some partner ∧ A ∈ Agent.liked partner)
  ∧ (∀ z, z ∈ Agent.matched b
          ↔ z ∈ Agent.liked b
            ∧ ∃ partner, agents m !! z = Some partner ∧ B ∈ Agent.liked partner)
  ∧ Agent.match_count a = size (Agent.matched a)
  ∧ Agent.match_count b = size (Agent.matched b).
Proof.
  intros Hd Hfresh Hinit Hrun Hne Ha Hb HB HA.
  pose proof (init_consistent _ _ _ _ Hd Hfresh Hinit) as Hcons0.
  pose proof (init_counted _ _ _ _ Hfresh Hinit) as Hcount0.
  pose proof (run_counted _ _ _ Hcons0 Hcount0 Hrun)
    as [Hself Hstrict Hcount].
  apply (run_consistent _ _ _ _ Hcons0) in Hrun. simpl in Hrun.
  destruct Hrun as [_ _ _ Hcells Hsorted Hreg Hmatched].
  assert (∀ i j, i < j →
            (i, j) ∈ registered ↔ mutual (matrix m) i j) as Hin.
  { intros i j Hij. specialize (Hreg i j Hij). split.
    - intros Hp%occurrences_elem.
      destruct (decide (mutual (matrix m) i j)); [done|lia].
    - intros Hm. apply occurrences_pos. rewrite Hreg.
      rewrite decide_True by done. lia. }
  assert (∀ i a' z, agents m !! i = Some a' →
            z ∈ Agent.matched a'
            ↔ z ∈ Agent.liked a'
              ∧ ∃ partner, agents m !! z = Some partner
                           ∧ i ∈ Agent.liked partner) as Hpartners.
  { intros i a' z Ha'.
    rewrite (Hmatched i a' z Ha'), elem_of_get_matched_calls.
    assert (mutual (matrix m) i z
            ↔ z ∈ Agent.liked a'
              ∧ ∃ partner, agents m !! z = Some partner
                           ∧ i ∈ Agent.liked partner) as <-.
    { unfold mutual. rewrite !Hcells. split.
      - intros [(a2 & Ha2 & ?) ?]. rewrite Ha' in Ha2.
        by injection Ha2 as <-.
      - intros [? ?]. split; [by exists a'|done]. }
    split.
    - intros [Hp|Hp].
      + apply Hin; [by apply Hstrict in Hp|done].
      + apply mutual_sym, Hin; [by apply Hstrict in Hp|done].
    - intros Hm. destruct (decide (i < z)) as [Hlt|Hge].
      + left. by apply Hin.
      + right. apply Hin; [|by apply mutual_sym].
        assert (i ≠ z); [|lia]. intros ->.
        destruct Hm as [Hzz _]. apply Hcells in Hzz as (a2 & Ha2 & Hz).
        exact (Hself z a2 Ha2 Hz). }
  assert (NoDup registered) as Hnd.
  { apply NoDup_occurrences. intros [i j].
    destruct (decide (i < j)) as [Hij|Hij].
    - rewrite (Hreg i j Hij). case_decide; lia.
    - rewrite occurrences_NoDup_or_zero; [lia|].
      intros Hp%Hstrict. simpl in Hp. lia. }
  assert (∀ i a', agents m !! i = Some a' →
            Agent.match_count a' = size (Agent.matched a')) as Hsize.
  { intros i a' Ha'. rewrite (Hcount i a' Ha'). symmetry.
    apply size_matched_calls; [done..|]. intros j. by apply Hmatched. }
  assert (mutual (matrix m) A B) as Hmut.
  { split; apply Hcells; [by exists a|by exists b]. }
  split.
  { destruct (decide (A < B)) as [Hlt|Hge].
    - replace (sorted_pair A B) with (A, B)
        by (unfold sorted_pair; f_equal; lia).
      by rewrite Hreg, decide_True by done.
    - replace (sorted_pair A B) with (B, A)
        by (unfold sorted_pair; f_equal; lia).
      rewrite Hreg, decide_True by (lia || by apply mutual_sym). done. }
  split; [done|].
  split; [apply (Hpartners A a B Ha); split; [done|by exists b]|].
  split; [apply (Hpartners B b A Hb); split; [done|by exists a]|].
  split; [intros z; by apply Hpartners|].
  split; [intros z; by apply Hpartners|].
  split; by eapply Hsize.
Qed.

End counted_runs.

(** * The theorems at work on the small populations *)

Lemma two_people_dense : dense_ids two_people.
Proof. intros [|[|i]] agent; simpl; [by intros [= <-]..|done]. Defined.

Lemma two_people_fresh : Forall fresh two_people.
Proof. by repeat constructor. Defined.

Lemma date_start_init :
  RandomAgentMatcher.init two_people 3 calculator = Some date_start.
Proof. by vm_compute. Defined.

Lemma date_likes_resolved :
  RandomAgentMatcher.resolve_likes first_choices date_start = Some date_likes.
Proof. by vm_compute. Defined.

Lemma date_end_round :
  RandomAgentMatcher.run_new_round first_choices date_start = Some date_end.
Proof. by vm_compute. Defined.

Lemma date_run :
  run date_start
    ([] ++ pair_order first_choices
             (RandomAgentMatcher.waiting_matches date_likes))
    date_end.
Proof.
  eapply run_next; [apply run_start|].
  apply (step_round date_start first_choices date_likes date_end
           first_choices_ok date_likes_resolved date_end_round).
Defined.

Lemma mutual_like_matches_once_witness :
  ∃ registered a b,
    run date_start registered date_end
    ∧ RandomAgentMatcher.agents date_end !! 0 = Some a
    ∧ RandomAgentMatcher.agents date_end !! 1 = Some b
    ∧ 1 ∈ Agent.liked a ∧ 0 ∈ Agent.liked b
    ∧ occurrences (RandomAgentMatcher.sorted_pair 0 1) registered = 1
    ∧ (∀ p, p ∈ registered → p.1 < p.2)
    ∧ 1 ∈ Agent.matched a ∧ 0 ∈ Agent.matched b
    ∧ (∀ z, z ∈ Agent.matched a
            ↔ z ∈ Agent.liked a
              ∧ ∃ partner,
                  RandomAgentMatcher.agents date_end !! z = Some partner
                  ∧ 0 ∈ Agent.liked partner)
    ∧ (∀ z, z ∈ Agent.matched b
            ↔ z ∈ Agent.liked b
              ∧ ∃ partner,
                  RandomAgentMatcher.agents date_end !! z = Some partner
                  ∧ 1 ∈ Agent.liked partner)
    ∧ Agent.match_count a = size (Agent.matched a)
    ∧ Agent.match_count b = size (Agent.matched b).
Proof.
  eexists _, _, _. split; [exact date_run|].
  split; [by vm_compute|]. split; [by vm_compute|].
  assert (1 ∈ ({[1]} : gset nat)) as H1 by (by apply elem_of_singleton).
  assert (0 ∈ ({[0]} : gset nat)) as H0 by (by apply elem_of_singleton).
  split; [exact H1|]. split; [exact H0|].
  eapply (mutual_like_matches_once two_people 3 calculator date_start _
            date_end 0 1 _ _ two_people_dense two_people_fresh
            date_start_init date_run); [done|by vm_compute..|exact H1|exact H0].
Defined.

Lemma no_double_exposure_witness :
  ∃ a, RandomAgentMatcher.agents date_end !! 0 = Some a
    ∧ 1 ∈ Agent.get_assessed_candidates a
    ∧ (1 ∉ RandomAgentMatcher.get_available_candidates date_end a)
    ∧ ∀ later m', run date_end later m' →
        ∃ a', RandomAgentMatcher.agents m' !! 0 = Some a'
          ∧ 1 ∈ Agent.get_assessed_candidates a'
          ∧ (1 ∉ RandomAgentMatcher.get_available_candidates m' a')
          ∧ (∀ c acc acc',
               choices_ok c →
               for_each (RandomAgentMatcher.serve c) (seq 0 0)
                 (round_start m') = Some acc →
               RandomAgentMatcher.serve c acc 0 = Some acc' →
               skipped acc 0 acc'
               ∨ ∃ candidates_details,
                   shown c acc 0 candidates_details acc'
                   ∧ 1 ∉ Agent.d_id <$> candidates_details)
          ∧ (∀ c m'', RandomAgentMatcher.run_new_round c m' = Some m'' →
               ∃ acc acc',
                 for_each (RandomAgentMatcher.serve c) (seq 0 0)
                   (round_start m') = Some acc
                 ∧ RandomAgentMatcher.serve c acc 0 = Some acc').
Proof.
  eexists. split; [by vm_compute|].
  assert (1 ∈ ({[1]} ∪ ∅ : gset nat)) as H1
    by (apply elem_of_union; left; by apply elem_of_singleton).
  split; [exact H1|].
  eapply (no_double_exposure date_end 0 1); [by vm_compute|exact H1].
Defined.

Lemma allowance_bound_witness :
  ∃ a', RandomAgentMatcher.agents date_end !! 0 = Some a'
    ∧ (0 ≤ Agent.like_allowance (person 0 false))%Z
    ∧ Agent.like_allowance a' = Agent.like_allowance (person 0 false)
    ∧ (0 ≤ Agent.remaining_likes a' ≤ Agent.like_allowance a')%Z
    ∧ (Z.of_nat (size (Agent.liked a' ∖ Agent.liked (person 0 false)))
       ≤ Agent.like_allowance a')%Z.
Proof.
  eexists. split; [by vm_compute|]. split; [by vm_compute|].
  eapply (allowance_bound first_choices date_start date_end 0
            (person 0 false) _ date_end_round);
    [done|by vm_compute| |by vm_compute].
  by intros ?%elem_of_empty.
Defined.

Lemma ghost_town_eliminated :
  ∀ agent, agent ∈ RandomAgentMatcher.agents ghost_town →
    Agent.id agent ∈ RandomAgentMatcher.eliminated_agents ghost_town.
Proof.
  intros agent Hin. apply list_elem_of_singleton in Hin as ->.
  by apply elem_of_singleton.
Defined.

Lemma all_eliminated_round_only_logs_witness :
  RandomAgentMatcher.run_new_round first_choices ghost_town
  = Some (RandomAgentMatcher.log_agents
            (RandomAgentMatcher.set_round ghost_town 1))
  ∧ RandomAgentMatcher.eliminate_bottom 50 ghost_town = None
  ∧ (∃ m', RankedAgentMatcher.run_new_round first_choices ranked_ghost_town
           = Some m'
       ∧ RankedAgentMatcher.agents m'
         = [Agent.log_state (person 0 false) 1 ["match_count"; "happiness"]]
       ∧ RankedAgentMatcher.rating_logs m' !! 0
         = Some (<[1 := default_rating]> ∅))
  ∧ RankedAgentMatcher.eliminate_bottom 50 true ranked_ghost_town = None.
Proof.
  destruct (all_eliminated_round_only_logs first_choices 50 true ghost_town
              ranked_ghost_town first_choices_ok ghost_town_eliminated
              eq_refl)
    as ((Hrun & _ & Hel) & (m' & Hrun2 & _ & Hag & Hlogs & _) & _
        & Hel2 & Hnone).
  - intros agent Hin. simpl in Hin.
    apply list_elem_of_singleton in Hin as ->.
    split; [by apply elem_of_singleton|by eexists].
  - done.
  - intros x [Hx|(agent & Hin & <-)].
    + simpl in Hx. apply elem_of_singleton in Hx as ->. by eexists.
    + simpl in Hin. apply list_elem_of_singleton in Hin as ->. by eexists.
  - done.
  - split; [exact Hrun|]. split; [by rewrite Hel, Hnone|].
    split; [|by rewrite Hel2, Hnone].
    exists m'. split; [done|]. split; [exact Hag|].
    destruct (Hlogs (person 0 false))
      as (log & rating & Hlog & Hrating & Hnew);
      [by apply list_elem_of_singleton|].
    simpl in Hlog, Hrating, Hnew. rewrite Hnew. injection Hrating as <-.
    rewrite lookup_singleton_eq in Hlog. by injection Hlog as <-.
Defined.

Lemma strict_recommendations_farthest_first_witness :
  ∃ ranking,
    ranking ≡ₚ elements ({[1; 2]} : gset nat)
    ∧ RankedAgentMatcher.get_available_candidates first_choices 0
        three_ratings (person 0 false)
      = Some (take 1 ranking)
    ∧ length (take 1 ranking) = 1.
Proof.
  destruct (strict_recommendations_farthest_first first_choices 0
              three_ratings (person 0 false) (mk_rating 25 8) eq_refl eq_refl)
    as (ranking & Hperm & _ & Hget & Hlen & _).
  - intros x Hx. simpl in *.
    rewrite !elem_of_union, !elem_of_singleton in Hx. lia.
  - exists ranking. split; [|split].
    + rewrite Hperm. vm_compute. reflexivity.
    + rewrite Hget. f_equal.
    + exact Hlen.
Defined.

Lemma eliminate_bottom_includes_ties_witness :
  np_percentile (Agent.happiness <$> RandomAgentMatcher.agents six_matcher) 50
  = Some 1%R
  ∧ ∃ m', RandomAgentMatcher.eliminate_bottom 50 six_matcher = Some m'
    ∧ RandomAgentMatcher.agents m' = RandomAgentMatcher.agents six_matcher
    ∧ (∀ x, x ∈ RandomAgentMatcher.eliminated_agents m'
            ↔ x ∈ RandomAgentMatcher.eliminated_agents six_matcher
              ∨ ∃ agent, agent ∈ RandomAgentMatcher.agents six_matcher
                         ∧ Agent.id agent = x
                         ∧ (Agent.happiness agent <= 1)%R)
    ∧ (∀ i agent, i < 4 →
         RandomAgentMatcher.agents six_matcher !! i = Some agent →
         Agent.id agent ∈ RandomAgentMatcher.eliminated_agents m').
Proof.
  apply (eliminate_bottom_includes_ties six_matcher eq_refl).
  intros agent _. apply not_elem_of_empty.
Defined.
Lemma get_agents_by_ids_population_order_witness :
  AgentMatcher.get_agents_by_ids six_agents [4; 1; 3]
  = [contented 1 0; contented 3 1; contented 4 2]
  ∧ ∃ acc' candidates_details,
      RandomAgentMatcher.serve first_choices (round_start six_matcher) 0
      = Some acc'
      ∧ shown first_choices (round_start six_matcher) 0 candidates_details
          acc'
      ∧ StronglySorted lt (Agent.d_id <$> candidates_details)
      ∧ length candidates_details = 3.
Proof.
  split; [by vm_compute|].
  destruct (get_agents_by_ids_population_order six_agents [4; 1; 3])
    as (_ & _ & _ & _ & Hturn & _).
  assert (∃ acc',
            RandomAgentMatcher.serve first_choices (round_start six_matcher) 0
            = Some acc') as [acc' Hserve] by (eexists; by vm_compute).
  exists acc'.
  destruct (Hturn first_choices six_matcher 0 (round_start six_matcher) acc')
    as [(agent & Hag & Hel & _)|(ds & Hshown & Hsorted)].
  - assert (Agent.id <$> RandomAgentMatcher.agents six_matcher
            = [0; 1; 2; 3; 4; 5]) as -> by reflexivity.
    repeat (apply SSorted_cons;
            [|repeat (apply List.Forall_cons; [lia|]); apply List.Forall_nil]).
    apply SSorted_nil.
  - done.
  - exact Hserve.
  - simpl in Hag. injection Hag as <-. by apply elem_of_empty in Hel.
  - exists ds. split; [done|]. split; [done|]. split; [done|].
    destruct Hshown as (agent & a' & l & p & Hag & _ & Hrec & _).
    simpl in Hag. injection Hag as <-.
    vm_compute in Hrec. by injection Hrec as <-.
Defined.
